(** * knip: ignore-pattern normalisation and the dependency graph

    A shallow embedding of
    - [packages/knip/src/util/glob-core.ts] (ignore-file parsing, pattern
      normalisation, the file enumerator and the ignore handler), and
    - [packages/knip/src/util/dependency-graph.ts] (file nodes, the
      [ImportDetails] merge and [updateImportMap]),
    followed by the properties the specification states about them.

    Conventions of the embedding.
    - A JavaScript string is a [string]: a sequence of code units below 256.
      Every constant the code compares against is ASCII, so only [trim] and
      the regular-expression dot depend on the character set; their tables
      below are those of ECMAScript restricted to code units below 256.
    - [Map] and [Set] objects are [gmap] and [gset], compared by what they
      hold and not by insertion order, or lists where the code relies on the
      order. The objects the dependency graph mutates in place live in an
      explicit store, addressed by locations, so that two references to one
      object are two occurrences of one location.
    - An exception is the result [None]; a loop that may run for ever takes a
      bound on its iterations.
    - What lives outside these two files (the file system, fast-glob,
      picomatch, the path helpers, the constants) is a parameter. *)

From Stdlib Require Import Ascii String.
From stdpp Require Import gmap strings list fin_maps fin_map_dom.

Set Warnings "-clear-no-such-hyp".

(** ** JavaScript string primitives *)

Module Js.

(** [s.slice(n)] for [0 <= n]. *)
Fixpoint slice_from (n : nat) (s : string) : string :=
  match n, s with
  | O, _ => s
  | S _, EmptyString => EmptyString
  | S n', String _ s' => slice_from n' s'
  end.

(** [s.slice(0, n)] for [0 <= n]. *)
Fixpoint slice_to (n : nat) (s : string) : string :=
  match n, s with
  | O, _ => EmptyString
  | S _, EmptyString => EmptyString
  | S n', String c s' => String c (slice_to n' s')
  end.

(** [s.slice(0, -1)]: a negative end counts from the end of the string. *)
Definition slice_drop_last (s : string) : string :=
  slice_to (String.length s - 1) s.

(** [s.startsWith(p)]. *)
Definition startsWith (s p : string) : bool := String.prefix p s.

(** [s.endsWith(p)]. *)
Definition endsWith (s p : string) : bool :=
  (String.length p <=? String.length s)%nat
  && String.eqb (slice_from (String.length s - String.length p) s) p.

(** [s[0] === c]; [s[0]] is [undefined] on the empty string. *)
Definition first_is (s : string) (c : ascii) : bool :=
  match s with
  | EmptyString => false
  | String c' _ => Ascii.eqb c' c
  end.

(** ECMAScript [WhiteSpace] and [LineTerminator] code units below 256:
    TAB, LF, VT, FF, CR, SP and NBSP. These are what [trim] removes. *)
Definition is_space (c : ascii) : bool :=
  let n := nat_of_ascii c in
  ((9 <=? n) && (n <=? 13))%nat || (n =? 32)%nat || (n =? 160)%nat.

(** ECMAScript [LineTerminator] code units below 256: LF and CR. The
    regular-expression dot matches every code unit but these. *)
Definition is_line_terminator (c : ascii) : bool :=
  let n := nat_of_ascii c in (n =? 10)%nat || (n =? 13)%nat.

Fixpoint trimStart (s : string) : string :=
  match s with
  | EmptyString => EmptyString
  | String c s' => if is_space c then trimStart s' else s
  end.

(** [trimEnd] keeps a character when it is not a space or when something
    survives to its right. *)
Fixpoint trimEnd (s : string) : string :=
  match s with
  | EmptyString => EmptyString
  | String c s' =>
      match trimEnd s' with
      | EmptyString => if is_space c then EmptyString else String c EmptyString
      | r => String c r
      end
  end.

(** [s.trim()]. *)
Definition trim (s : string) : string := trimEnd (trimStart s).

(** Truthiness of a string: the empty string is the only falsy one. *)
Definition truthy (s : string) : bool :=
  match s with EmptyString => false | _ => true end.

End Js.

(** ** glob-core.ts: pattern normalisation *)

(** The object [{ negated, patterns: [pattern, extPattern] }]. *)
Record Rule := mkRule { negated : bool; patterns : list string }.

Global Instance Rule_eq_dec : EqDecision Rule.
Proof. solve_decision. Defined.

(** [convertGitignoreToPicomatchIgnorePatterns], statement by statement. *)
Definition convertGitignoreToPicomatchIgnorePatterns (pattern : string) : Rule :=
  let negated := Js.first_is pattern "!" in
  let pattern := if negated then Js.slice_from 1 pattern else pattern in
  let pattern :=
    if Js.endsWith pattern "/" then Js.slice_drop_last pattern else pattern in
  let pattern :=
    if Js.startsWith pattern "*/**/" then Js.slice_from 5 pattern else pattern in
  let pattern :=
    if Js.startsWith pattern "/" then Js.slice_from 1 pattern
    else if negb (Js.startsWith pattern "**/") then "**/" +:+ pattern
    else pattern in
  let extPattern :=
    if Js.endsWith pattern "/*" then pattern else pattern +:+ "/**" in
  {| negated := negated; patterns := [pattern; extPattern] |}.

(** Steps of [convertGitignoreToPicomatchIgnorePatterns] after the negation
    mark and the trailing slash are gone. *)
Definition anchorPattern (pattern : string) : string :=
  let pattern :=
    if Js.startsWith pattern "*/**/" then Js.slice_from 5 pattern else pattern in
  if Js.startsWith pattern "/" then Js.slice_from 1 pattern
  else if negb (Js.startsWith pattern "**/") then "**/" +:+ pattern
  else pattern.

Definition extendPattern (pattern : string) : string :=
  if Js.endsWith pattern "/*" then pattern else pattern +:+ "/**".

(** ** glob-core.ts: parsing an ignore file *)

(** [text.split(/\r?\n/)]: a line ends at LF or at CR LF; a CR that is not
    followed by LF stays inside its line. The result is never empty. *)
Definition push_char (c : ascii) (lines : list string) : list string :=
  match lines with
  | [] => [String c EmptyString]
  | l :: ls => String c l :: ls
  end.

Fixpoint splitLines (s : string) : list string :=
  match s with
  | EmptyString => [EmptyString]
  | String c s' =>
      if Ascii.eqb c "010" then EmptyString :: splitLines s'
      else
        match s' with
        | String c2 s'' =>
            if Ascii.eqb c "013" && Ascii.eqb c2 "010"
            then EmptyString :: splitLines s''
            else push_char c (splitLines s')
        | EmptyString => push_char c (splitLines s')
        end
  end.

(** What is left of the subject after a match of [.*]: the dot stops at the
    first line terminator. *)
Fixpoint afterDotStar (s : string) : string :=
  match s with
  | EmptyString => EmptyString
  | String c s' => if Js.is_line_terminator c then s else afterDotStar s'
  end.

(** [s.replace(/(?<!\\)#.*/, '')]: the first [#] whose preceding code unit is
    not a backslash is removed together with the run matched by [.*];
    [escaped] tells whether the code unit before [s] is a backslash. *)
Fixpoint stripComment (escaped : bool) (s : string) : string :=
  match s with
  | EmptyString => EmptyString
  | String c s' =>
      if Ascii.eqb c "#" && negb escaped then afterDotStar s'
      else String c (stripComment (Ascii.eqb c "\") s')
  end.

(** The predicate of [.filter(line => line.trim() && !line.startsWith('#'))]. *)
Definition keepLine (line : string) : bool :=
  Js.truthy (Js.trim line) && negb (Js.startsWith line "#").

(** The function of [.map(pattern => pattern.replace(...).trim())]. *)
Definition cleanLine (pattern : string) : string :=
  Js.trim (stripComment false pattern).

(** The position of the first [#] that no backslash immediately precedes:
    the "unescaped inline [#]" of the specification. [escaped] tells whether
    the code unit before [s] is a backslash. *)
Fixpoint hashIndex (escaped : bool) (s : string) : option nat :=
  match s with
  | EmptyString => None
  | String c s' =>
      if Ascii.eqb c "#" && negb escaped then Some O
      else S <$> hashIndex (Ascii.eqb c "\") s'
  end.

Section ParseGitignore.

(** [new RegExp(`^(!?/?)(${from})`)] interpolates [from] as regular-expression
    source. [compileFrom from] is [None] when the constructor throws a
    [SyntaxError]; otherwise it maps a pattern to [None] when
    [pattern.match(matchFrom)] fails and to
    [Some (pattern.replace(matchFrom, '$1'))] when it succeeds. *)
Variable compileFrom : string -> option (string -> option string).

(** The callback of [.flatMap], for the compiled [matchFrom] if there is one. *)
Definition rewriteFrom (matchFrom : option (string -> option string))
    (pattern : string) : list string :=
  match matchFrom with
  | Some re =>
      match re pattern with
      | Some replaced => [replaced]
      | None =>
          if Js.startsWith pattern "/**/" then [Js.slice_from 1 pattern]
          else if Js.startsWith pattern "!/**/"
               then ["!" +:+ Js.slice_from 2 pattern]
          else if Js.startsWith pattern "/" || Js.startsWith pattern "!/"
               then []
          else [pattern]
      end
  | None => [pattern]
  end.

(** [matchFrom = from ? new RegExp(...) : undefined]; the outer [None] is the
    exception of the constructor. An empty [from] is falsy. *)
Definition makeMatchFrom (from : option string)
    : option (option (string -> option string)) :=
  match from with
  | Some f => if Js.truthy f then Some <$> compileFrom f else Some None
  | None => Some None
  end.


(** The body of [parseGitignoreFile] after [readFileSync]: [file] is the text
    of the ignore file. [None] is an exception. *)
Definition parseGitignoreText (file : string) (from : option string)
    : option (list Rule) :=
  matchFrom ← makeMatchFrom from;
  Some (map convertGitignoreToPicomatchIgnorePatterns
          (flat_map (rewriteFrom matchFrom)
             (map cleanLine (List.filter keepLine (splitLines file))))).

(** [parseGitignoreFile]; [readFileSync path] is [None] when reading throws. *)
Definition parseGitignoreFile (readFileSync : string -> option string)
    (filePath : string) (from : option string) : option (list Rule) :=
  file ← readFileSync filePath;
  parseGitignoreText file from.

End ParseGitignore.

(** The regular expression [^(!?/?)(from)] for a [from] without
    metacharacters, with the backtracking order of the greedy [?]. *)
Definition literalFrom (from : string) : option (string -> option string) :=
  Some (fun pattern =>
    let try (pre : string) :=
      if Js.startsWith pattern (pre +:+ from)
      then Some (pre +:+ Js.slice_from (String.length (pre +:+ from)) pattern)
      else None in
    match try "!/" with
    | Some r => Some r
    | None =>
        match try "!" with
        | Some r => Some r
        | None =>
            match try "/" with
            | Some r => Some r
            | None => try ""
            end
        end
    end).

(** ** glob-core.ts: the file enumerator and the ignore handler *)

(** [type Gitignores = { ignores: Set<string>; unignores: string[] }]; the
    set is kept in insertion order, which is the order [...i.ignores]
    spreads it in. *)
Record Gitignores := mkGitignores {
  ignores : list string;
  unignores : list string
}.

(** [type Options = { gitignore: boolean; cwd: string }]. *)
Record Options := mkOptions {
  opt_gitignore : bool;
  opt_cwd : string
}.

(** [type GlobOptions]: the optional members come from fast-glob. *)
Record GlobOptions := mkGlobOptions {
  gitignore : bool;
  cwd : string;
  dir : string;
  onlyDirectories : option bool;
  ignore : option (list string);
  absolute : option bool;
  dot : option bool
}.

(** [fastGlobOptions]: the rest of [{ ...options, ignore }] without [dir]. *)
Record FastGlobOptions := mkFastGlobOptions {
  fg_gitignore : bool;
  fg_cwd : string;
  fg_onlyDirectories : option bool;
  fg_ignore : list string;
  fg_absolute : option bool;
  fg_dot : option bool
}.

(** [patterns: string | string[]]. *)
Inductive Patterns :=
  | OnePattern (p : string)
  | PatternArray (ps : list string).

(** What the module does to the outside world, in program order. *)
Inductive Effect :=
  | GlobCall (patterns : Patterns) (options : FastGlobOptions)
  | DebugLog (name title : string)
  | FsAccess (path : string).

(** The state of one process: the module-level [cachedIgnores] map and the
    trace of effects performed so far. *)
Record Session := mkSession {
  cachedIgnores : gmap string Gitignores;
  trace : list Effect
}.

Definition emit (e : Effect) (s : Session) : Session :=
  {| cachedIgnores := cachedIgnores s; trace := trace s ++ [e] |}.

(** [{ gitignoreFiles, ignores, unignores }], the result of
    [findAndParseGitignores]. *)
Record ParsedGitignores := mkParsedGitignores {
  gitignoreFiles : list string;
  all_ignores : list string;
  all_unignores : list string
}.

Section GlobCore.

(** Collaborators: [dirname] and [relative] of [./path.js],
    [ROOT_WORKSPACE_NAME] of [../constants.js], [fg.glob] of fast-glob (its
    answer depends on the file system, which is why every call is traced)
    and [picomatch(patterns, { ignore })]. [findAndParseGitignores] stands
    for the function of that name with all it drives: the walk of
    [@nodelib/fs.walk], the reading of the ignore files and the filling of
    [cachedIgnores]; it is given the session it starts from and returns the
    one it leaves, and the statements below hold whatever it does.
    [timerify] returns a function that behaves as its argument. *)
Variable dirname : string -> string.
Variable relative : string -> string -> string.
Variable ROOT_WORKSPACE_NAME : string.
Variable fg_glob : Patterns -> FastGlobOptions -> list string.
Variable picomatch : list string -> list string -> string -> bool.
Variable findAndParseGitignores : string -> Session -> ParsedGitignores * Session.

(** The [while (dir !== options.cwd)] loop of [globby]. It runs for ever when
    [dirname] never reaches [cwd]; [None] is running out of [fuel]. *)
Fixpoint ancestorIgnores (fuel : nat) (cache : gmap string Gitignores)
    (cwd dir : string) (ignore : list string) : option (list string) :=
  if String.eqb dir cwd then Some ignore
  else
    match fuel with
    | O => None
    | S fuel' =>
        let ignore :=
          match cache !! dir with
          | Some i =>
              (ignore ++ ignores i) ++ map (fun e => "!" +:+ e) (unignores i)
          | None => ignore
          end in
        ancestorIgnores fuel' cache cwd (dirname dir) ignore
    end.

Definition isEmptyArray (patterns : Patterns) : bool :=
  match patterns with
  | PatternArray [] => true
  | _ => false
  end.

(** [globby]: the result and the session it leaves, or [None] when the
    ancestor loop does not finish within [fuel] iterations. *)
Definition globby (fuel : nat) (patterns : Patterns) (options : GlobOptions)
    (s : Session) : option (list string * Session) :=
  if isEmptyArray patterns then Some ([], s)
  else
    let ignore0 :=
      if gitignore options
      then match ignore options with Some l => l | None => [] end
      else [] in
    ignore1 ←
      (if gitignore options
       then
         from_dirs ← ancestorIgnores fuel (cachedIgnores s) (cwd options)
                       (dir options) ignore0;
         Some (match cachedIgnores s !! cwd options with
               | Some i => from_dirs ++ ignores i
               | None => from_dirs
               end)
       else Some ignore0);
    let fastGlobOptions :=
      {| fg_gitignore := gitignore options;
         fg_cwd := cwd options;
         fg_onlyDirectories := onlyDirectories options;
         fg_ignore := ignore1;
         fg_absolute := absolute options;
         fg_dot := dot options |} in
    let name :=
      let r := relative (cwd options) (dir options) in
      if Js.truthy r then r else ROOT_WORKSPACE_NAME in
    let s := emit (DebugLog name "Glob options") s in
    let s := emit (GlobCall patterns fastGlobOptions) s in
    Some (fg_glob patterns fastGlobOptions, s).

(** [getGitIgnoredHandler]: the predicate it resolves to and the session it
    leaves. *)
Definition getGitIgnoredHandler (options : Options) (s : Session)
    : (string -> bool) * Session :=
  let s := {| cachedIgnores := ∅; trace := trace s |} in
  if negb (opt_gitignore options) then (fun _ => false, s)
  else
    let '(gitignore, s) := findAndParseGitignores (opt_cwd options) s in
    let matcher := picomatch (all_ignores gitignore) (all_unignores gitignore) in
    let isGitIgnored := fun filePath =>
      matcher (relative (opt_cwd options) filePath) in
    (isGitIgnored, s).

End GlobCore.

(** Sample collaborators, for running the definitions above: paths are
    taken relative to the root directory, the matcher accepts every path, and
    the walk finds one ignore file in [cwd], reads it and caches a pattern
    for that directory. *)
Definition sample_relative (from to : string) : string := to.

Definition sample_picomatch (patterns ignored : list string) (path : string)
    : bool := true.

Definition sample_findAndParseGitignores (cwd : string) (s : Session)
    : ParsedGitignores * Session :=
  (mkParsedGitignores [".gitignore"] [".git"; "**/dist"; "**/dist/**"] [],
   {| cachedIgnores :=
        <[cwd := mkGitignores ["**/dist"; "**/dist/**"] []]> (cachedIgnores s);
      trace := trace s ++ [FsAccess (cwd +:+ "/.gitignore")] |}).

(** ** dependency-graph.ts: the data model *)

(** A reference to an object of the store. *)
Abbreviation loc := positive (only parsing).

(** [ImportDetails]: every member holds a reference, to a [Set<string>]
    ([refs]), to an [IdToFileMap = Map<string, Set<string>>] or to an
    [IdToNsToFileMap = Map<string, IdToFileMap>] ([importedAs],
    [reExportedAs]). *)
Record ImportDetails := mkImportDetails {
  refs : loc;
  imported : loc;
  importedAs : loc;
  importedNs : loc;
  reExported : loc;
  reExportedAs : loc;
  reExportedNs : loc
}.

(** Modelled from the spec: the symbol kind of [../types/issues.js], of which
    the code names only [UNKNOWN] ("symbol kind (tag, default UNKNOWN)"). *)
Inductive SymbolType :=
  | UNKNOWN
  | SymbolTag (tag : string).

(** [Export], with the members [createExport] gives it. The element types of
    [members] and [fixes] are declared outside these sources; both lists are
    only ever created empty here. *)
Record Export := mkExport {
  identifier : string;
  pos : Z;
  line : Z;
  col : Z;
  type : SymbolType;
  members : list string;
  jsDocTags : gset string;
  export_refs : Z * bool;
  fixes : list string;
  isReExport : bool
}.

(** [FileNode]. The collections a node creates for itself are stored in the
    node; [imports_internal] maps a file path to a reference to an
    [ImportDetails] object and the optional member [imported] is such a
    reference. *)
Record FileNode := mkFileNode {
  imports_internal : gmap string loc;
  imports_external : gset string;
  imports_unresolved : gset string;
  exports : gmap string Export;
  node_imported : option loc;
  duplicates : gset string;
  scripts : gset string;
  traceRefs : gset string
}.

(** The store: the objects that are shared and mutated in place, by kind.
    The operations read it with [!!!]: a reference that the store does not
    hold reads as an empty object. A JavaScript program has no such
    reference. *)
Record Store := mkStore {
  sets : gmap loc (gset string);
  idmaps : gmap loc (gmap string loc);
  nsmaps : gmap loc (gmap string loc);
  details : gmap loc ImportDetails;
  nodes : gmap loc FileNode
}.

(** [DependencyGraph = Map<string, FileNode>]: file path to node reference. *)
Abbreviation DependencyGraph := (gmap string loc) (only parsing).

Definition emptyStore : Store := mkStore ∅ ∅ ∅ ∅ ∅.

Definition emptyFileNode : FileNode :=
  {| imports_internal := ∅; imports_external := ∅; imports_unresolved := ∅;
     exports := ∅; node_imported := None;
     duplicates := ∅; scripts := ∅; traceRefs := ∅ |}.

Global Instance FileNode_inhabited : Inhabited FileNode :=
  populate emptyFileNode.
Global Instance ImportDetails_inhabited : Inhabited ImportDetails :=
  populate (mkImportDetails 1 1 1 1 1 1 1)%positive.

Definition with_sets (st : Store) (x : gmap loc (gset string)) : Store :=
  {| sets := x; idmaps := idmaps st; nsmaps := nsmaps st;
     details := details st; nodes := nodes st |}.
Definition with_idmaps (st : Store) (x : gmap loc (gmap string loc)) : Store :=
  {| sets := sets st; idmaps := x; nsmaps := nsmaps st;
     details := details st; nodes := nodes st |}.
Definition with_nsmaps (st : Store) (x : gmap loc (gmap string loc)) : Store :=
  {| sets := sets st; idmaps := idmaps st; nsmaps := x;
     details := details st; nodes := nodes st |}.
Definition with_details (st : Store) (x : gmap loc ImportDetails) : Store :=
  {| sets := sets st; idmaps := idmaps st; nsmaps := nsmaps st;
     details := x; nodes := nodes st |}.
Definition with_nodes (st : Store) (x : gmap loc FileNode) : Store :=
  {| sets := sets st; idmaps := idmaps st; nsmaps := nsmaps st;
     details := details st; nodes := x |}.

Definition with_internal (n : FileNode) (x : gmap string loc) : FileNode :=
  {| imports_internal := x; imports_external := imports_external n;
     imports_unresolved := imports_unresolved n; exports := exports n;
     node_imported := node_imported n; duplicates := duplicates n;
     scripts := scripts n; traceRefs := traceRefs n |}.
Definition with_imported (n : FileNode) (x : option loc) : FileNode :=
  {| imports_internal := imports_internal n;
     imports_external := imports_external n;
     imports_unresolved := imports_unresolved n; exports := exports n;
     node_imported := x; duplicates := duplicates n;
     scripts := scripts n; traceRefs := traceRefs n |}.

(** [new Set(...)], [new Map(...)] and object literals take a location that
    is not in use. *)
Definition newSet (v : gset string) (st : Store) : loc * Store :=
  let l := fresh (dom (sets st)) in (l, with_sets st (<[l := v]> (sets st))).
Definition newIdMap (m : gmap string loc) (st : Store) : loc * Store :=
  let l := fresh (dom (idmaps st)) in (l, with_idmaps st (<[l := m]> (idmaps st))).
Definition newNsMap (m : gmap string loc) (st : Store) : loc * Store :=
  let l := fresh (dom (nsmaps st)) in (l, with_nsmaps st (<[l := m]> (nsmaps st))).
Definition newDetails (d : ImportDetails) (st : Store) : loc * Store :=
  let l := fresh (dom (details st)) in (l, with_details st (<[l := d]> (details st))).
Definition newNode (n : FileNode) (st : Store) : loc * Store :=
  let l := fresh (dom (nodes st)) in (l, with_nodes st (<[l := n]> (nodes st))).

(** ** dependency-graph.ts: the operations *)

(** [createFileNode]. *)
Definition createFileNode (st : Store) : loc * Store := newNode emptyFileNode st.

(** [getOrCreateFileNode]: [graph.get(filePath) ?? createFileNode()]. The
    graph is read and not written. *)
Definition getOrCreateFileNode (st : Store) (graph : DependencyGraph)
    (filePath : string) : loc * Store :=
  match graph !! filePath with
  | Some n => (n, st)
  | None => createFileNode st
  end.

(** [createExport]. *)
Definition createExport (id : string) : Export :=
  {| identifier := id; pos := 0; line := 1; col := 1; type := UNKNOWN;
     members := []; jsDocTags := ∅; export_refs := (0%Z, false); fixes := [];
     isReExport := false |}.

(** [createImports]: one new object per member. *)
Definition createImports (st : Store) : loc * Store :=
  let '(r, st) := newSet ∅ st in
  let '(i, st) := newIdMap ∅ st in
  let '(ia, st) := newNsMap ∅ st in
  let '(ins, st) := newIdMap ∅ st in
  let '(re, st) := newIdMap ∅ st in
  let '(rea, st) := newNsMap ∅ st in
  let '(rens, st) := newIdMap ∅ st in
  newDetails (mkImportDetails r i ia ins re rea rens) st.

(** [set.add(value)] on the set object at [t]. *)
Definition setAdd (t : loc) (value : string) (st : Store) : Store :=
  with_sets st (<[t := {[value]} ∪ (sets st !!! t)]> (sets st)).

(** [for (const v of values) target.add(v)]: the set at [t] receives the
    elements of the set at [values]. *)
Definition setAddAll (t values : loc) (st : Store) : Store :=
  with_sets st (<[t := (sets st !!! t) ∪ (sets st !!! values)]> (sets st)).

(** [map.set(id, v)] on the [IdToFileMap] object at [map]. *)
Definition idmapSet (map : loc) (id : string) (v : loc) (st : Store) : Store :=
  with_idmaps st (<[map := <[id := v]> (idmaps st !!! map)]> (idmaps st)).

(** [map.set(id, v)] on the [IdToNsToFileMap] object at [map]. *)
Definition nsmapSet (map : loc) (id : string) (v : loc) (st : Store) : Store :=
  with_nsmaps st (<[map := <[id := v]> (nsmaps st !!! map)]> (nsmaps st)).

(** [addValue]. *)
Definition addValue (map : loc) (id value : string) (st : Store) : Store :=
  match (idmaps st !!! map) !! id with
  | Some t => setAdd t value st
  | None => let '(t, st) := newSet {[value]} st in idmapSet map id t st
  end.

(** [addNsValue]. *)
Definition addNsValue (map : loc) (id ns value : string) (st : Store) : Store :=
  match (nsmaps st !!! map) !! id with
  | Some inner =>
      match (idmaps st !!! inner) !! ns with
      | Some t => setAdd t value st
      | None => let '(t, st) := newSet {[value]} st in idmapSet inner ns t st
      end
  | None =>
      let '(t, st) := newSet {[value]} st in
      let '(inner, st) := newIdMap {[ns := t]} st in
      nsmapSet map id inner st
  end.

(** [addValues]: [values] is a reference to a set; an unseen [id] adopts that
    very object. *)
Definition addValues (map : loc) (id : string) (values : loc) (st : Store)
    : Store :=
  match (idmaps st !!! map) !! id with
  | Some t => setAddAll t values st
  | None => idmapSet map id values st
  end.

(** The entries a [for ... of] loop over the [IdToFileMap] at [m] visits. The
    loops below never add a key to the map they iterate over: when the two
    maps are one object every visited key is found by [has], and otherwise
    only the other map is written. Taking the entries before the loop is
    therefore what the running loop sees. [map_to_list] lists them in an
    order of its own, not in insertion order; the lemmas on these loops hold
    for the entries in any order. *)
Definition idmapEntries (m : loc) (st : Store) : list (string * loc) :=
  map_to_list (idmaps st !!! m).
Definition nsmapEntries (m : loc) (st : Store) : list (string * loc) :=
  map_to_list (nsmaps st !!! m).

(** [for (const [id, v] of source.entries()) addValues(target, id, v)]. *)
Definition addAllValues (target source : loc) (st : Store) : Store :=
  foldl (fun st e => addValues target e.1 e.2 st) st (idmapEntries source st).

(** [addNsValues]: [value] is a reference to an [IdToFileMap]; an unseen [id]
    adopts that very object. [map.get(id)] is the same object throughout the
    loop. *)
Definition addNsValues (map : loc) (id : string) (value : loc) (st : Store)
    : Store :=
  match (nsmaps st !!! map) !! id with
  | Some inner => addAllValues inner value st
  | None => nsmapSet map id value st
  end.

(** [for (const [id, v] of source.entries()) addNsValues(target, id, v)]. *)
Definition addAllNsValues (target source : loc) (st : Store) : Store :=
  foldl (fun st e => addNsValues target e.1 e.2 st) st (nsmapEntries source st).

(** [updateImportDetails]: both arguments are references to [ImportDetails]
    objects; the first one is written. *)
Definition updateImportDetails (importedModule importItems : loc) (st : Store)
    : Store :=
  let a := details st !!! importedModule in
  let b := details st !!! importItems in
  let st := setAddAll (refs a) (refs b) st in
  let st := addAllValues (imported a) (imported b) st in
  let st := addAllNsValues (importedAs a) (importedAs b) st in
  let st := addAllValues (importedNs a) (importedNs b) st in
  let st := addAllValues (reExported a) (reExported b) st in
  let st := addAllNsValues (reExportedAs a) (reExportedAs b) st in
  addAllValues (reExportedNs a) (reExportedNs b) st.

(** One iteration of the loop of [updateImportMap]. *)
Definition updateImportEntry (file : loc) (st_graph : Store * DependencyGraph)
    (entry : string * loc) : Store * DependencyGraph :=
  let '(st, graph) := st_graph in
  let '(importedFilePath, importDetails) := entry in
  let fileNode := nodes st !!! file in
  let st :=
    match imports_internal fileNode !! importedFilePath with
    | None =>
        with_nodes st
          (<[file := with_internal fileNode
                       (<[importedFilePath := importDetails]>
                          (imports_internal fileNode))]> (nodes st))
    | Some importedFileImports =>
        updateImportDetails importedFileImports importDetails st
    end in
  let '(importedFile, st) := getOrCreateFileNode st graph importedFilePath in
  let importedNode := nodes st !!! importedFile in
  let st :=
    match node_imported importedNode with
    | None =>
        with_nodes st
          (<[importedFile := with_imported importedNode (Some importDetails)]>
             (nodes st))
    | Some aggregate => updateImportDetails aggregate importDetails st
    end in
  (st, <[importedFilePath := importedFile]> graph).

(** [updateImportMap]: [file] is a reference to the source [FileNode] and
    [importMap] the sequence [importMap.entries()], each entry a file path
    and a reference to an [ImportDetails] object. *)
Definition updateImportMap (file : loc) (importMap : list (string * loc))
    (graph : DependencyGraph) (st : Store) : Store * DependencyGraph :=
  foldl (updateImportEntry file) (st, graph) importMap.


(** ** dependency-graph.ts: what a reader of the store sees *)

(** The content of the objects, with every reference followed. *)
Record DetailsContent := mkDetailsContent {
  c_refs : gset string;
  c_imported : gmap string (gset string);
  c_importedAs : gmap string (gmap string (gset string));
  c_importedNs : gmap string (gset string);
  c_reExported : gmap string (gset string);
  c_reExportedAs : gmap string (gmap string (gset string));
  c_reExportedNs : gmap string (gset string)
}.

Record NodeContent := mkNodeContent {
  n_internal : gmap string DetailsContent;
  n_external : gset string;
  n_unresolved : gset string;
  n_exports : gmap string Export;
  n_imported : option DetailsContent;
  n_duplicates : gset string;
  n_scripts : gset string;
  n_traceRefs : gset string
}.

Definition setContent (st : Store) (l : loc) : gset string := sets st !!! l.

Definition idmapContent (st : Store) (m : loc) : gmap string (gset string) :=
  setContent st <$> (idmaps st !!! m).

Definition nsmapContent (st : Store) (m : loc)
    : gmap string (gmap string (gset string)) :=
  idmapContent st <$> (nsmaps st !!! m).

Definition contentOf (st : Store) (d : ImportDetails) : DetailsContent :=
  {| c_refs := setContent st (refs d);
     c_imported := idmapContent st (imported d);
     c_importedAs := nsmapContent st (importedAs d);
     c_importedNs := idmapContent st (importedNs d);
     c_reExported := idmapContent st (reExported d);
     c_reExportedAs := nsmapContent st (reExportedAs d);
     c_reExportedNs := idmapContent st (reExportedNs d) |}.

Definition detailsContent (st : Store) (d : loc) : DetailsContent :=
  contentOf st (details st !!! d).

Definition nodeContent (st : Store) (n : loc) : NodeContent :=
  let node := nodes st !!! n in
  {| n_internal := detailsContent st <$> imports_internal node;
     n_external := imports_external node;
     n_unresolved := imports_unresolved node;
     n_exports := exports node;
     n_imported := detailsContent st <$> node_imported node;
     n_duplicates := duplicates node;
     n_scripts := scripts node;
     n_traceRefs := traceRefs node |}.

Definition graphContent (st : Store) (graph : DependencyGraph)
    : gmap string NodeContent :=
  nodeContent st <$> graph.

(** ** A project of three files *)

(** What the analysis of a file [importer] that holds
    [import { x } from './C'] hands to [updateImportMap]: the [ImportDetails]
    that [createImports] and [addValue] build, in which [imported] maps the
    identifier [x] to the set of its importers, here [importer] alone. *)
Definition importsX (importer : string) (st : Store) : loc * Store :=
  let '(d, st) := createImports st in
  (d, addValue (imported (details st !!! d)) "x" importer st).

Record Project := mkProject {
  detailsA : loc;
  detailsB : loc;
  nodeA : loc;
  nodeB : loc;
  nodeC : loc;
  store0 : Store;
  graph0 : DependencyGraph
}.

(** Files [A.ts] and [B.ts] import [x] from [C.ts], which imports nothing;
    the graph holds an empty node for each of them. *)
Definition project : Project :=
  let '(dA, st) := importsX "A.ts" emptyStore in
  let '(dB, st) := importsX "B.ts" st in
  let '(nA, st) := createFileNode st in
  let '(nB, st) := createFileNode st in
  let '(nC, st) := createFileNode st in
  {| detailsA := dA; detailsB := dB; nodeA := nA; nodeB := nB; nodeC := nC;
     store0 := st;
     graph0 := {[ "A.ts" := nA; "B.ts" := nB; "C.ts" := nC ]} |}.

Definition importMapA : list (string * loc) := [("C.ts", detailsA project)].
Definition importMapB : list (string * loc) := [("C.ts", detailsB project)].
Definition importMapC : list (string * loc) := [].

(** [updateImportMap] for each file of [order] in turn. *)
Definition analyse (order : list (loc * list (string * loc)))
    (init : Store * DependencyGraph) : Store * DependencyGraph :=
  foldl (fun sg fm => updateImportMap fm.1 fm.2 sg.2 sg.1) init order.

Definition fileA := (nodeA project, importMapA).
Definition fileB := (nodeB project, importMapB).
Definition fileC := (nodeC project, importMapC).

Definition finalContent (order : list (loc * list (string * loc)))
    : gmap string NodeContent :=
  let '(st, graph) := analyse order (store0 project, graph0 project) in
  graphContent st graph.

(** The importers of [x] that the node of [file] records for its import of
    [C.ts], in the final graph of [order]. *)
Definition importersOfX (order : list (loc * list (string * loc)))
    (file : string) : option (gset string) :=
  node ← finalContent order !! file;
  d ← n_internal node !! "C.ts";
  c_imported d !! "x".

(** The importers of [x] in the aggregate [imported] of [C.ts]. *)
Definition aggregateOfX (order : list (loc * list (string * loc)))
    : option (gset string) :=
  node ← finalContent order !! "C.ts";
  d ← n_imported node;
  c_imported d !! "x".

(** The store and the graph once [A.ts] is analysed, and once [B.ts] is
    analysed after it. *)
Definition afterA : Store * DependencyGraph :=
  analyse [fileA] (store0 project, graph0 project).

Definition afterAB : Store * DependencyGraph :=
  updateImportMap (nodeB project) importMapB afterA.2 afterA.1.

(** The importers of [x] that node [n] records for its import of [C.ts]. *)
Definition recordedImportersOfX (st : Store) (n : loc) : option (gset string) :=
  node ← Some (nodeContent st n);
  d ← n_internal node !! "C.ts";
  c_imported d !! "x".

(** ** The merge of [ImportDetails], as the specification words it *)

(** Per field, union sets; for identifier-keyed mappings, union the value
    sets per key, recursively for the alias-keyed nested mapping; adopt
    unseen keys wholesale. *)
Definition mergeIdMap (x y : gmap string (gset string))
    : gmap string (gset string) :=
  union_with (fun s t => Some (s ∪ t)) x y.

Definition mergeNsMap (x y : gmap string (gmap string (gset string)))
    : gmap string (gmap string (gset string)) :=
  union_with (fun s t => Some (mergeIdMap s t)) x y.

Definition mergeContent (x y : DetailsContent) : DetailsContent :=
  {| c_refs := c_refs x ∪ c_refs y;
     c_imported := mergeIdMap (c_imported x) (c_imported y);
     c_importedAs := mergeNsMap (c_importedAs x) (c_importedAs y);
     c_importedNs := mergeIdMap (c_importedNs x) (c_importedNs y);
     c_reExported := mergeIdMap (c_reExported x) (c_reExported y);
     c_reExportedAs := mergeNsMap (c_reExportedAs x) (c_reExportedAs y);
     c_reExportedNs := mergeIdMap (c_reExportedNs x) (c_reExportedNs y) |}.




(** ** Access paths into an [ImportDetails] *)

(** The members that hold an [IdToFileMap], and those that hold an
    [IdToNsToFileMap]. *)
Inductive IdField := FImported | FImportedNs | FReExported | FReExportedNs.
Inductive NsField := FImportedAs | FReExportedAs.

Global Instance IdField_eq_dec : EqDecision IdField.
Proof. solve_decision. Defined.
Global Instance NsField_eq_dec : EqDecision NsField.
Proof. solve_decision. Defined.

Definition idField (f : IdField) (d : ImportDetails) : loc :=
  match f with
  | FImported => imported d
  | FImportedNs => importedNs d
  | FReExported => reExported d
  | FReExportedNs => reExportedNs d
  end.

Definition nsField (g : NsField) (d : ImportDetails) : loc :=
  match g with
  | FImportedAs => importedAs d
  | FReExportedAs => reExportedAs d
  end.

(** The member a path starts from. *)
Inductive Root := RRefs | RId (f : IdField) | RNs (g : NsField).

Global Instance Root_eq_dec : EqDecision Root.
Proof. solve_decision. Defined.

Definition allRoots : list Root :=
  [RId FReExportedNs; RNs FReExportedAs; RId FReExported; RId FImportedNs;
   RNs FImportedAs; RId FImported; RRefs].

(** The way to a set: [d.refs], [d.f.get(id)] or [d.g.get(id).get(ns)]. *)
Inductive SetPath :=
  | AtRefs
  | AtId (f : IdField) (id : string)
  | AtNs (g : NsField) (id ns : string).

(** The way to an [IdToFileMap]: [d.f] or [d.g.get(id)]. *)
Inductive MapPath :=
  | AtField (f : IdField)
  | AtEntry (g : NsField) (id : string).

Global Instance SetPath_eq_dec : EqDecision SetPath.
Proof. solve_decision. Defined.
Global Instance MapPath_eq_dec : EqDecision MapPath.
Proof. solve_decision. Defined.

Definition setRoot (p : SetPath) : Root :=
  match p with
  | AtRefs => RRefs
  | AtId f _ => RId f
  | AtNs g _ _ => RNs g
  end.

Definition mapRoot (q : MapPath) : Root :=
  match q with
  | AtField f => RId f
  | AtEntry g _ => RNs g
  end.

(** The object a path leads to, if the path exists. *)
Definition mapAt (st : Store) (d : ImportDetails) (q : MapPath) : option loc :=
  match q with
  | AtField f => Some (idField f d)
  | AtEntry g id => (nsmaps st !!! nsField g d) !! id
  end.

Definition setAt (st : Store) (d : ImportDetails) (p : SetPath) : option loc :=
  match p with
  | AtRefs => Some (refs d)
  | AtId f id => (idmaps st !!! idField f d) !! id
  | AtNs g id ns =>
      inner ← (nsmaps st !!! nsField g d) !! id;
      (idmaps st !!! inner) !! ns
  end.

(** What the object at [o] holds, nothing when there is no such object. *)
Definition setOf (st : Store) (o : option loc) : gset string :=
  match o with Some l => sets st !!! l | None => ∅ end.

Definition idmapOf (st : Store) (o : option loc) : gmap string loc :=
  match o with Some m => idmaps st !!! m | None => ∅ end.

(** No object is reached along two different paths of the values [ds]. An
    object may be shared, but then it sits at the same place in each value
    that holds it: this is the sharing that adopting a set or a map creates,
    and the sharing of a value with itself. *)
Definition positional (st : Store) (ds : list ImportDetails) : Prop :=
  (forall d1 d2 g1 g2, d1 ∈ ds -> d2 ∈ ds ->
      nsField g1 d1 = nsField g2 d2 -> g1 = g2)
  /\ (forall d1 d2 q1 q2 m, d1 ∈ ds -> d2 ∈ ds ->
      mapAt st d1 q1 = Some m -> mapAt st d2 q2 = Some m -> q1 = q2)
  /\ (forall d1 d2 p1 p2 l, d1 ∈ ds -> d2 ∈ ds ->
      setAt st d1 p1 = Some l -> setAt st d2 p2 = Some l -> p1 = p2).

(** The values [x] and [y] have no object in common. *)
Definition apart (st : Store) (x y : ImportDetails) : Prop :=
  (forall g1 g2, nsField g1 x <> nsField g2 y)
  /\ (forall q1 q2 m, mapAt st x q1 = Some m -> mapAt st y q2 <> Some m)
  /\ (forall p1 p2 l, setAt st x p1 = Some l -> setAt st y p2 <> Some l).

(** The objects of a value, each with the path that leads to it. *)
Definition nsObjects (d : ImportDetails) : list (NsField * loc) :=
  [(FImportedAs, importedAs d); (FReExportedAs, reExportedAs d)].

Definition idFields : list IdField :=
  [FImported; FImportedNs; FReExported; FReExportedNs].
Definition nsFields : list NsField := [FImportedAs; FReExportedAs].

Definition mapObjects (st : Store) (d : ImportDetails) : list (MapPath * loc) :=
  ((fun f => (AtField f, idField f d)) <$> idFields)
  ++ (g ← nsFields;
      (fun e : string * loc => (AtEntry g e.1, e.2))
        <$> map_to_list (nsmaps st !!! nsField g d)).

Definition setObjects (st : Store) (d : ImportDetails) : list (SetPath * loc) :=
  (AtRefs, refs d)
  :: (f ← idFields;
      (fun e : string * loc => (AtId f e.1, e.2))
        <$> map_to_list (idmaps st !!! idField f d))
  ++ (g ← nsFields;
      e ← map_to_list (nsmaps st !!! nsField g d);
      (fun e' : string * loc => (AtNs g e.1 e'.1, e'.2))
        <$> map_to_list (idmaps st !!! e.2)).

(** The values [ds] are separate: listing the objects of each of them in
    turn never lists an object twice. *)
Definition separate (st : Store) (ds : list ImportDetails) : Prop :=
  NoDup ((ds ≫= nsObjects).*2)
  /\ NoDup ((ds ≫= mapObjects st).*2)
  /\ NoDup ((ds ≫= setObjects st).*2).

Global Instance separate_dec (st : Store) (ds : list ImportDetails) :
  Decision (separate st ds).
Proof. unfold separate. apply _. Defined.

(** Three values to merge: what the analysis of [A.ts], [B.ts] and [D.ts]
    records for an import of [x], the last one under the alias [y] too. *)
Record ThreeValues := mkThreeValues {
  valueA : loc;
  valueB : loc;
  valueC : loc;
  valuesStore : Store
}.

Definition threeValues : ThreeValues :=
  let '(a, st) := importsX "A.ts" emptyStore in
  let '(b, st) := importsX "B.ts" st in
  let '(c, st) := importsX "D.ts" st in
  let st := addNsValue (importedAs (details st !!! c)) "x" "y" "D.ts" st in
  let st := addNsValue (importedAs (details st !!! a)) "x" "y" "A.ts" st in
  {| valueA := a; valueB := b; valueC := c; valuesStore := st |}.

(** What merging [b] into [a] does to the store, as far as the members
    [roots] are concerned: every object of [a] under one of these members
    receives what [b] holds along the same path, and no other object
    changes. *)
Record effect (a b : ImportDetails) (roots : list Root) (st st' : Store)
    : Prop := mkEffect {
  eff_details : details st' = details st;
  eff_nodes : nodes st' = nodes st;
  eff_ns_hit : forall g, RNs g ∈ roots ->
    nsmaps st' !!! nsField g a
    = nsmaps st !!! nsField g a ∪ nsmaps st !!! nsField g b;
  eff_ns_miss : forall n, (forall g, RNs g ∈ roots -> nsField g a <> n) ->
    nsmaps st' !!! n = nsmaps st !!! n;
  eff_map_hit : forall q m, mapRoot q ∈ roots -> mapAt st a q = Some m ->
    idmaps st' !!! m = idmaps st !!! m ∪ idmapOf st (mapAt st b q);
  eff_map_miss : forall m,
    (forall q, mapRoot q ∈ roots -> mapAt st a q <> Some m) ->
    idmaps st' !!! m = idmaps st !!! m;
  eff_set_hit : forall p l, setRoot p ∈ roots -> setAt st a p = Some l ->
    sets st' !!! l = sets st !!! l ∪ setOf st (setAt st b p);
  eff_set_miss : forall l,
    (forall p, setRoot p ∈ roots -> setAt st a p <> Some l) ->
    sets st' !!! l = sets st !!! l
}.

(** [updateImportDetails] on the two objects themselves. *)
Definition mergeInto (a b : ImportDetails) (st : Store) : Store :=
  let st := setAddAll (refs a) (refs b) st in
  let st := addAllValues (imported a) (imported b) st in
  let st := addAllNsValues (importedAs a) (importedAs b) st in
  let st := addAllValues (importedNs a) (importedNs b) st in
  let st := addAllValues (reExported a) (reExported b) st in
  let st := addAllNsValues (reExportedAs a) (reExportedAs b) st in
  addAllValues (reExportedNs a) (reExportedNs b) st.

(** The members of a node that [updateImportMap] has no business with. *)
Definition sameOutsideImports (n n' : FileNode) : Prop :=
  imports_external n' = imports_external n
  /\ imports_unresolved n' = imports_unresolved n
  /\ exports n' = exports n
  /\ duplicates n' = duplicates n
  /\ scripts n' = scripts n
  /\ traceRefs n' = traceRefs n.

(** What one or several iterations of [updateImportMap] for the keys [keys]
    may do to a node record [n] that the store held at [m]: write the
    entries of [imports.internal] for these keys if the node is the source,
    and write [imported] if the graph had the node for one of these keys. *)
Definition recordKept (file : loc) (graph : DependencyGraph)
    (keys : list string) (m : loc) (n n' : FileNode) : Prop :=
  sameOutsideImports n n'
  /\ (m <> file -> imports_internal n' = imports_internal n)
  /\ (forall p, p ∉ keys -> imports_internal n' !! p = imports_internal n !! p)
  /\ ((forall p, p ∈ keys -> graph !! p <> Some m) ->
      node_imported n' = node_imported n).


(** ** Proof steps that recur *)

(** A decidable statement about a concrete store, settled by evaluation. *)
Ltac by_computation := apply (bool_decide_unpack _); vm_compute; exact I.

(** Membership in a list that is written out. *)
Ltac in_list :=
  repeat (first [ apply list_elem_of_here | apply list_elem_of_further ]).


(** ** glob-core.ts: finding the ignore files *)

(** A [Set<string>], kept in insertion order: the order in which a spread or
    a [for ... of] visits it. *)
Module JsSet.

(** [set.has(x)]. *)
Definition has (x : string) (s : list string) : bool := bool_decide (x ∈ s).

(** [set.add(x)]: a value the set holds is not added again. *)
Definition add (x : string) (s : list string) : list string :=
  if has x s then s else s ++ [x].

(** [new Set(values)]. *)
Definition of_list (values : list string) : list string :=
  foldl (fun s x => add x s) [] values.

End JsSet.

(** [array.includes(x)]. *)
Definition includes (l : list string) (x : string) : bool :=
  bool_decide (x ∈ l).

(** An [Entry] of [@nodelib/fs.walk], as far as the filters look at it:
    [entry.path], [entry.name] and [entry.dirent.isFile()]. *)
Record Entry := mkEntry {
  entry_path : string;
  entry_name : string;
  entry_isFile : bool
}.

(** The walk of [@nodelib/fs.walk], seen from this module: which entry it
    shows to which filter next, given the answers it got so far. The order
    of the entries, and whether a directory refused by [deepFilter] is left
    out, are the walk's business. *)
Inductive Walk :=
  | WalkEnd
  | AskEntryFilter (entry : Entry) (next : bool -> Walk)
  | AskDeepFilter (entry : Entry) (next : bool -> Walk).

(** The variables one call of [findAndParseGitignores] closes over:
    [ignores] (a set), [unignores], [gitignoreFiles] and [matchers] (a set of
    function objects, one per call of [picomatch], which are all different:
    nothing is ever left out when one is added); and the session, with the
    module-level [cachedIgnores]. *)
Record Finder := mkFinder {
  f_ignores : list string;
  f_unignores : list string;
  f_gitignoreFiles : list string;
  f_matchers : list (string -> bool);
  f_session : Session
}.

(** The state of the loop over the rules of one file: the closure variables
    and the sets [dirIgnores] and [dirUnignores] of that file. *)
Record FileScan := mkFileScan {
  scan_finder : Finder;
  dirIgnores : list string;
  dirUnignores : list string
}.

(** Writes to the closure variables. *)
Definition with_session (st : Finder) (s : Session) : Finder :=
  {| f_ignores := f_ignores st; f_unignores := f_unignores st;
     f_gitignoreFiles := f_gitignoreFiles st; f_matchers := f_matchers st;
     f_session := s |}.

(** [ignores.add(pattern)]. *)
Definition addIgnore (pattern : string) (st : Finder) : Finder :=
  {| f_ignores := JsSet.add pattern (f_ignores st);
     f_unignores := f_unignores st;
     f_gitignoreFiles := f_gitignoreFiles st; f_matchers := f_matchers st;
     f_session := f_session st |}.

(** [unignores.push(...patterns)]. *)
Definition pushUnignores (patterns : list string) (st : Finder) : Finder :=
  {| f_ignores := f_ignores st;
     f_unignores := f_unignores st ++ patterns;
     f_gitignoreFiles := f_gitignoreFiles st; f_matchers := f_matchers st;
     f_session := f_session st |}.

(** [gitignoreFiles.push(path)]. *)
Definition pushGitignoreFile (path : string) (st : Finder) : Finder :=
  {| f_ignores := f_ignores st; f_unignores := f_unignores st;
     f_gitignoreFiles := f_gitignoreFiles st ++ [path];
     f_matchers := f_matchers st; f_session := f_session st |}.

(** [matchers.add(isMatch)] for each of [fns] in turn. *)
Definition addMatchers (fns : list (string -> bool)) (st : Finder) : Finder :=
  {| f_ignores := f_ignores st; f_unignores := f_unignores st;
     f_gitignoreFiles := f_gitignoreFiles st;
     f_matchers := f_matchers st ++ fns; f_session := f_session st |}.

(** [cachedIgnores.set(dir, entry)]. *)
Definition cacheSet (dir : string) (entry : Gitignores) (s : Session) : Session :=
  {| cachedIgnores := <[dir := entry]> (cachedIgnores s); trace := trace s |}.

Section FindGitignores.

(** Collaborators: [new RegExp] as in [parseGitignoreFile]; [readFileSync] of
    [node:fs] ([None] when it throws) and [isFile] of [./fs.js], both
    answering from a file system that does not change during the call;
    [dirname], [join], [relative] and [toPosix] of [./path.js];
    [picomatch(patterns, { ignore })], which compiles its [ignore] option when
    it is called, so that a matcher does not see what is pushed to the array
    afterwards; [GLOBAL_IGNORE_PATTERNS] of [../constants.js]; and the walk
    that [walk(cwd, ...)] performs. *)
Variable compileFrom : string -> option (string -> option string).
Variable readFileSync : string -> option string.
Variable isFile : string -> bool.
Variable dirname : string -> string.
Variable join : string -> string -> string.
Variable relative : string -> string -> string.
Variable toPosix : string -> string.
Variable picomatch : list string -> list string -> string -> bool.
Variable GLOBAL_IGNORE_PATTERNS : list string.
Variable walk : string -> Walk.

(** The loop of [findAncestorGitignoreFiles]; every [isFile] is an access to
    the file system. [None] is running out of [fuel]. *)
Fixpoint ancestorLoop (fuel : nat) (dir : string)
    (gitignorePaths : list string) (s : Session)
    : option (list string * Session) :=
  if Js.truthy dir then
    match fuel with
    | O => None
    | S fuel' =>
        let filePath := join dir ".gitignore" in
        let s := emit (FsAccess filePath) s in
        let gitignorePaths :=
          if isFile filePath then gitignorePaths ++ [filePath]
          else gitignorePaths in
        let prev := dir in
        let dir := dirname prev in
        if String.eqb prev dir || String.eqb dir "." then Some (gitignorePaths, s)
        else ancestorLoop fuel' dir gitignorePaths s
    end
  else Some (gitignorePaths, s).

(** [findAncestorGitignoreFiles]. *)
Definition findAncestorGitignoreFiles (fuel : nat) (cwd : string) (s : Session)
    : option (list string * Session) :=
  ancestorLoop fuel (dirname cwd) [] s.

(** [init = ['.git', ...GLOBAL_IGNORE_PATTERNS]]. *)
Definition init : list string := ".git" :: GLOBAL_IGNORE_PATTERNS.

(** The body of [for (const rule of parseGitignoreFile(filePath, from))] in
    [addFile]. Every rule that [parseGitignoreFile] returns has two patterns;
    the last branch is not reached. *)
Definition addRule (base : string) (sc : FileScan) (rule : Rule) : FileScan :=
  let st := scan_finder sc in
  match patterns rule with
  | pattern :: extraPattern :: _ =>
      if negated rule then
        if String.eqb base "" || Js.startsWith base ".." then
          if negb (includes (f_unignores st) extraPattern) then
            {| scan_finder := pushUnignores (patterns rule) st;
               dirIgnores := dirIgnores sc;
               dirUnignores :=
                 JsSet.add extraPattern (JsSet.add pattern (dirUnignores sc)) |}
          else sc
        else
          if negb (includes (f_unignores st)
                     (if Js.startsWith extraPattern "**/" then extraPattern
                      else "**/" +:+ extraPattern)) then
            let unignore := join base pattern in
            let extraUnignore := join base extraPattern in
            {| scan_finder := pushUnignores [unignore; extraUnignore] st;
               dirIgnores := dirIgnores sc;
               dirUnignores :=
                 JsSet.add extraUnignore (JsSet.add unignore (dirUnignores sc)) |}
          else sc
      else
        if String.eqb base "" || Js.startsWith base ".." then
          if negb (JsSet.has extraPattern (f_ignores st)) then
            {| scan_finder := addIgnore extraPattern (addIgnore pattern st);
               dirIgnores :=
                 JsSet.add extraPattern (JsSet.add pattern (dirIgnores sc));
               dirUnignores := dirUnignores sc |}
          else sc
        else
          if negb (JsSet.has
                     (if Js.startsWith extraPattern "**/" then extraPattern
                      else "**/" +:+ extraPattern) (f_ignores st)) then
            let ignore := join base pattern in
            let extraIgnore := join base extraPattern in
            {| scan_finder := addIgnore extraIgnore (addIgnore ignore st);
               dirIgnores :=
                 JsSet.add extraIgnore (JsSet.add ignore (dirIgnores sc));
               dirUnignores := dirUnignores sc |}
          else sc
  | _ => sc
  end.

(** [addFile]; [None] is the exception of [parseGitignoreFile]. Reading the
    file is an access to the file system. The matchers added at the end are
    compiled with the [unignores] of that moment. *)
Definition addFile (cwd filePath : string) (st : Finder) : option Finder :=
  let st := pushGitignoreFile (relative cwd filePath) st in
  let dir := dirname (toPosix filePath) in
  let base := relative cwd dir in
  let from :=
    if Js.startsWith base ".." then Some (relative dir cwd +:+ "/") else None in
  let sc :=
    {| scan_finder := st;
       dirIgnores := JsSet.of_list (if String.eqb base "" then init else []);
       dirUnignores := [] |} in
  let sc :=
    {| scan_finder :=
         with_session (scan_finder sc)
           (emit (FsAccess filePath) (f_session (scan_finder sc)));
       dirIgnores := dirIgnores sc;
       dirUnignores := dirUnignores sc |} in
  rules ← parseGitignoreFile compileFrom readFileSync filePath from;
  let sc := foldl (addRule base) sc rules in
  let st := scan_finder sc in
  let st :=
    with_session st
      (cacheSet dir (mkGitignores (dirIgnores sc) (dirUnignores sc))
         (f_session st)) in
  Some (addMatchers
          (map (fun pattern => picomatch [pattern] (f_unignores st))
             (dirIgnores sc))
          st).

(** [matcher]: the first matcher that accepts [str] decides. *)
Definition matcher (st : Finder) (str : string) : bool :=
  existsb (fun isMatch => isMatch str) (f_matchers st).

(** [entryFilter]: its answer and the state it leaves. *)
Definition entryFilter (cwd : string) (entry : Entry) (st : Finder)
    : option (bool * Finder) :=
  if entry_isFile entry && String.eqb (entry_name entry) ".gitignore"
  then st ← addFile cwd (entry_path entry) st; Some (true, st)
  else Some (false, st).

(** [deepFilter]. *)
Definition deepFilter (cwd : string) (entry : Entry) (st : Finder) : bool :=
  negb (matcher st (relative cwd (entry_path entry))).

(** [await walk(cwd, { entryFilter, deepFilter })]. *)
Fixpoint runWalk (cwd : string) (w : Walk) (st : Finder) : option Finder :=
  match w with
  | WalkEnd => Some st
  | AskEntryFilter entry next =>
      r ← entryFilter cwd entry st;
      runWalk cwd (next r.1) r.2
  | AskDeepFilter entry next =>
      runWalk cwd (next (deepFilter cwd entry st)) st
  end.

(** [filePaths.forEach(addFile)]. *)
Fixpoint addFiles (cwd : string) (filePaths : list string) (st : Finder)
    : option Finder :=
  match filePaths with
  | [] => Some st
  | filePath :: rest => st ← addFile cwd filePath st; addFiles cwd rest st
  end.

(** The closure variables as [findAndParseGitignores] creates them; the first
    matchers are compiled while [unignores] is empty. *)
Definition newFinder (s : Session) : Finder :=
  {| f_ignores := JsSet.of_list init;
     f_unignores := [];
     f_gitignoreFiles := [];
     f_matchers := map (fun pattern => picomatch [pattern] []) init;
     f_session := s |}.

(** The statements of [findAndParseGitignores] up to the end of the walk. *)
Definition findGitignores (fuel : nat) (cwd : string) (s : Session)
    : option Finder :=
  let st := newFinder s in
  r ← findAncestorGitignoreFiles fuel cwd (f_session st);
  st ← addFiles cwd r.1 (with_session st r.2);
  let st :=
    with_session st (emit (FsAccess ".git/info/exclude") (f_session st)) in
  st ← (if isFile ".git/info/exclude" then addFile cwd ".git/info/exclude" st
        else Some st);
  runWalk cwd (walk cwd) st.

(** [findAndParseGitignores]: its result and the session it leaves. [None]
    is an exception, or running out of [fuel] in the ancestor loop. *)
Definition findAndParseGitignores (fuel : nat) (cwd : string) (s : Session)
    : option (ParsedGitignores * Session) :=
  st ← findGitignores fuel cwd s;
  Some ({| gitignoreFiles := f_gitignoreFiles st;
           all_ignores := f_ignores st;
           all_unignores := f_unignores st |},
        emit (DebugLog "*" "Parsed gitignore files") (f_session st)).

End FindGitignores.

(** ** glob-core.ts: what the enumerator takes from the cache *)

(** What the loop of [globby] pushes for a directory [dir] below [cwd]: the
    ignore patterns cached for it, then its unignore patterns, each with a
    negation mark in front. *)
Definition dirPatterns (cache : gmap string Gitignores) (dir : string)
    : list string :=
  match cache !! dir with
  | Some i => ignores i ++ map (fun e => "!" +:+ e) (unignores i)
  | None => []
  end.

(** What [globby] pushes for [cwd] itself: its ignore patterns only. *)
Definition cwdPatterns (cache : gmap string Gitignores) (cwd : string)
    : list string :=
  match cache !! cwd with
  | Some i => ignores i
  | None => []
  end.

(** The directories the loop of [globby] visits when [cwd] is [n] levels
    above [dir]: [dir], its parent, and so on, [cwd] excluded. *)
Definition dirsBelow (dirname : string -> string) (n : nat) (dir : string)
    : list string :=
  map (fun k => Nat.iter k dirname dir) (seq 0 n).

(** The options [globby] hands to [fg.glob], given the list [ignore]. *)
Definition fastGlobOptionsOf (options : GlobOptions) (ignore : list string)
    : FastGlobOptions :=
  {| fg_gitignore := gitignore options;
     fg_cwd := cwd options;
     fg_onlyDirectories := onlyDirectories options;
     fg_ignore := ignore;
     fg_absolute := absolute options;
     fg_dot := dot options |}.

(** The session after [globby] has logged its options and called [fg.glob]. *)
Definition globbed (relative : string -> string -> string)
    (ROOT_WORKSPACE_NAME : string) (patterns : Patterns)
    (options : GlobOptions) (ignore : list string) (s : Session) : Session :=
  let r := relative (cwd options) (dir options) in
  emit (GlobCall patterns (fastGlobOptionsOf options ignore))
    (emit (DebugLog (if Js.truthy r then r else ROOT_WORKSPACE_NAME)
             "Glob options") s).

(** ** glob-core.ts: what a call of [findAndParseGitignores] keeps *)

(** The closure variables only grow: what [st] holds, [st'] holds at the
    same place, and so does the trace. *)
Definition grows (st st' : Finder) : Prop :=
  f_ignores st `prefix_of` f_ignores st'
  /\ f_unignores st `prefix_of` f_unignores st'
  /\ f_gitignoreFiles st `prefix_of` f_gitignoreFiles st'
  /\ f_matchers st `prefix_of` f_matchers st'
  /\ trace (f_session st) `prefix_of` trace (f_session st').

(** Every entry of the cache is one of [old], or holds patterns that are
    among those of [st], the [first] ones included when the entry is for
    [cwd] itself. *)
Definition cachedWithin (relative : string -> string -> string)
    (first : list string) (cwd : string) (old : gmap string Gitignores)
    (st : Finder) : Prop :=
  forall dir entry,
    cachedIgnores (f_session st) !! dir = Some entry ->
    old !! dir = Some entry
    \/ (ignores entry ⊆ f_ignores st
        /\ unignores entry ⊆ f_unignores st
        /\ (relative cwd dir = "" -> first ⊆ ignores entry)).

(** ** A sample repository *)

(** Sample collaborators, for running [findAndParseGitignores]: a repository
    at [/r] that holds the ignore files [/r/.gitignore] and
    [/r/pkg/.gitignore] and the directories [/r/dist] and [/r/pkg]; path
    helpers that know these paths; a walk that descends into [/r/pkg] when
    [deepFilter] lets it; and a matcher that accepts a path named by one of
    its patterns, with or without [**/] in front, unless one of the ignored
    patterns names it. *)
Definition repo_readFileSync (path : string) : option string :=
  if String.eqb path "/r/.gitignore"
  then Some ("dist" +:+ String "010" "!keep.me")
  else if String.eqb path "/r/pkg/.gitignore" then Some "/out"
  else None.

Definition repo_isFile (path : string) : bool := false.

Definition repo_dirname (path : string) : string :=
  if String.eqb path "/r/.gitignore" then "/r"
  else if String.eqb path "/r/pkg/.gitignore" then "/r/pkg"
  else if String.eqb path "/r/pkg" then "/r"
  else "/".

Definition repo_relative (from to : string) : string :=
  if String.eqb to from then ""
  else if Js.startsWith to (from +:+ "/")
       then Js.slice_from (String.length from + 1) to
  else "..".

Definition repo_join (base path : string) : string :=
  if String.eqb base "/" then "/" +:+ path else base +:+ "/" +:+ path.

Definition repo_names (path pattern : string) : bool :=
  String.eqb pattern path || String.eqb pattern ("**/" +:+ path).

Definition repo_picomatch (patterns ignored : list string) (path : string)
    : bool :=
  existsb (repo_names path) patterns && negb (existsb (repo_names path) ignored).

Definition repo_walk (cwd : string) : Walk :=
  AskEntryFilter (mkEntry "/r/.gitignore" ".gitignore" true) (fun _ =>
  AskDeepFilter (mkEntry "/r/dist" "dist" false) (fun _ =>
  AskDeepFilter (mkEntry "/r/pkg" "pkg" false) (fun deep =>
  if deep
  then AskEntryFilter (mkEntry "/r/pkg/.gitignore" ".gitignore" true)
         (fun _ => WalkEnd)
  else WalkEnd))).

(** The search of the sample repository from [/r], with no global patterns. *)
Definition repo_search : option (ParsedGitignores * Session) :=
  findAndParseGitignores literalFrom repo_readFileSync repo_isFile repo_dirname
    repo_join repo_relative (fun path => path) repo_picomatch [] repo_walk
    5 "/r" (mkSession ∅ []).

(** ** dependency-graph.ts: the values the constructors build *)

(** The objects of the value [d] are objects of the store. *)
Definition allocated (st : Store) (d : ImportDetails) : Prop :=
  Forall (fun x => x.2 ∈ dom (nsmaps st)) (nsObjects d)
  /\ Forall (fun x => x.2 ∈ dom (idmaps st)) (mapObjects st d)
  /\ Forall (fun x => x.2 ∈ dom (sets st)) (setObjects st d).

Global Instance allocated_dec (st : Store) (d : ImportDetails) :
  Decision (allocated st d).
Proof. unfold allocated. apply _. Defined.

(** What [createImports], [addValue] and [addNsValue] keep: the values [ds]
    are separate, and their objects are objects of the store. *)
Definition built (st : Store) (ds : list ImportDetails) : Prop :=
  separate st ds /\ Forall (allocated st) ds.

Global Instance built_dec (st : Store) (ds : list ImportDetails) :
  Decision (built st ds).
Proof. unfold built. apply _. Defined.

(** [separate] and [allocated] by paths: no value is listed twice, an object
    is reached from one value only and along one path only; and what a path
    leads to is an object of the store. *)
Definition onePlace (st : Store) (ds : list ImportDetails) : Prop :=
  NoDup ds
  /\ (forall d1 d2 g1 g2, d1 ∈ ds -> d2 ∈ ds ->
        nsField g1 d1 = nsField g2 d2 -> d1 = d2 /\ g1 = g2)
  /\ (forall d1 d2 q1 q2 m, d1 ∈ ds -> d2 ∈ ds ->
        mapAt st d1 q1 = Some m -> mapAt st d2 q2 = Some m ->
        d1 = d2 /\ q1 = q2)
  /\ (forall d1 d2 p1 p2 l, d1 ∈ ds -> d2 ∈ ds ->
        setAt st d1 p1 = Some l -> setAt st d2 p2 = Some l ->
        d1 = d2 /\ p1 = p2).

Definition held (st : Store) (d : ImportDetails) : Prop :=
  (forall g, nsField g d ∈ dom (nsmaps st))
  /\ (forall q m, mapAt st d q = Some m -> m ∈ dom (idmaps st))
  /\ (forall p l, setAt st d p = Some l -> l ∈ dom (sets st)).

(** The content of a value that holds nothing. *)
Definition emptyContent : DetailsContent :=
  {| c_refs := ∅; c_imported := ∅; c_importedAs := ∅; c_importedNs := ∅;
     c_reExported := ∅; c_reExportedAs := ∅; c_reExportedNs := ∅ |}.

(** [addValue] on a content: the value set of [id] receives [value]. *)
Definition contentAdd (id value : string) (m : gmap string (gset string))
    : gmap string (gset string) :=
  <[id := {[value]} ∪ default ∅ (m !! id)]> m.

(** [addNsValue] on a content. *)
Definition contentAddNs (id ns value : string)
    (m : gmap string (gmap string (gset string)))
    : gmap string (gmap string (gset string)) :=
  <[id := contentAdd ns value (default ∅ (m !! id))]> m.

(** The path to the set that the map at [q] holds for [id]. *)
Definition setUnder (q : MapPath) (id : string) : SetPath :=
  match q with
  | AtField f => AtId f id
  | AtEntry g i => AtNs g i id
  end.

Global Instance ImportDetails_eq_dec : EqDecision ImportDetails.
Proof. solve_decision. Defined.

(** ** dependency-graph.ts: sequences of constructor calls *)

(** One call of a constructor: [createImports()];
    [addValue(d.f, id, value)] and [addNsValue(d.g, id, ns, value)] for the
    value [d] that the [k]-th call of [createImports] returned and one of its
    members [f] or [g]. *)
Inductive Construction :=
  | CreateImports
  | AddValue (k : nat) (f : IdField) (id value : string)
  | AddNsValue (k : nat) (g : NsField) (id ns value : string).

(** The store and the values created so far, after one more call. A call
    that names a value not yet created does nothing. *)
Definition construct (sv : Store * list loc) (c : Construction)
    : Store * list loc :=
  match c with
  | CreateImports =>
      ((createImports sv.1).2, sv.2 ++ [(createImports sv.1).1])
  | AddValue k f id value =>
      match sv.2 !! k with
      | Some d => (addValue (idField f (details sv.1 !!! d)) id value sv.1, sv.2)
      | None => sv
      end
  | AddNsValue k g id ns value =>
      match sv.2 !! k with
      | Some d =>
          (addNsValue (nsField g (details sv.1 !!! d)) id ns value sv.1, sv.2)
      | None => sv
      end
  end.

(** A sequence of calls, from the empty store. *)
Definition constructAll (calls : list Construction) : Store * list loc :=
  foldl construct (emptyStore, []) calls.
(** * Properties of glob-core.ts *)

(** ** String lemmas *)

Lemma append_cons (c : ascii) (s t : string) :
  String c s +:+ t = String c (s +:+ t).
Proof. reflexivity. Qed.

Lemma append_empty_l (t : string) : "" +:+ t = t.
Proof. reflexivity. Qed.


Lemma length_append (s t : string) :
  String.length (s +:+ t) = (String.length s + String.length t)%nat.
Proof.
  induction s as [|c s IH]; [done |]. rewrite append_cons. simpl. by rewrite IH.
Qed.

Lemma slice_from_append (s t : string) :
  Js.slice_from (String.length s) (s +:+ t) = t.
Proof.
  induction s as [|c s IH]; [by destruct t |]. by rewrite append_cons.
Qed.

Lemma slice_to_append (s t : string) :
  Js.slice_to (String.length s) (s +:+ t) = s.
Proof.
  induction s as [|c s IH]; [by destruct t |].
  rewrite append_cons. simpl. by rewrite IH.
Qed.

Lemma endsWith_append (s t : string) : Js.endsWith (s +:+ t) t = true.
Proof.
  unfold Js.endsWith. rewrite length_append.
  replace (String.length s + String.length t - String.length t)%nat
    with (String.length s) by lia.
  rewrite slice_from_append, String.eqb_refl, andb_true_r.
  apply Nat.leb_le. lia.
Qed.

Lemma slice_drop_last_append (s : string) (c : ascii) :
  Js.slice_drop_last (s +:+ String c "") = s.
Proof.
  unfold Js.slice_drop_last. rewrite length_append. simpl.
  replace (String.length s + 1 - 1)%nat with (String.length s) by lia.
  apply slice_to_append.
Qed.

(** On a string of at least two code units, [endsWith] does not look at the
    first one when the suffix has one code unit. *)
Lemma endsWith_cons (c d e : ascii) (s : string) :
  Js.endsWith (String c (String d s)) (String e "")
  = Js.endsWith (String d s) (String e "").
Proof.
  unfold Js.endsWith. simpl String.length.
  replace (S (S (String.length s)) - 1)%nat with (S (S (String.length s) - 1))
    by lia.
  done.
Qed.

Lemma endsWith_cons_false (c e : ascii) (s : string) :
  Js.endsWith (String c s) (String e "") = false ->
  Js.endsWith s (String e "") = false.
Proof.
  destruct s as [|d s]; [done |]. by rewrite endsWith_cons.
Qed.

(** ** Pattern normalisation *)

Example split_crlf :
  splitLines ("a" +:+ String "013" (String "010" "b") +:+ String "010" "")
  = ["a"; "b"; ""].
Proof. reflexivity. Qed.

Example parse_demo :
  parseGitignoreText literalFrom
    ("# c" +:+ String "010" "*.log # x" +:+ String "010" "" +:+ String "010" "!keep.log\#a")
    None
  = Some [mkRule false ["**/*.log"; "**/*.log/**"];
          mkRule true ["**/keep.log\#a"; "**/keep.log\#a/**"]].
Proof. reflexivity. Qed.

Example parse_bang :
  parseGitignoreText literalFrom "!" None = Some [mkRule true ["**/"; "**//**"]].
Proof. reflexivity. Qed.

Example parse_from :
  parseGitignoreText literalFrom
    ("/pkg/dist" +:+ String "010" "/other" +:+ String "010" "!/**/x" +:+ String "010" "node_modules")
    (Some "pkg/")
  = Some [mkRule false ["dist"; "dist/**"];
          mkRule true ["**/x"; "**/x/**"];
          mkRule false ["**/node_modules"; "**/node_modules/**"]].
Proof. reflexivity. Qed.

Lemma convert_unfold (p : string) :
  convertGitignoreToPicomatchIgnorePatterns p
  = let q := if Js.first_is p "!" then Js.slice_from 1 p else p in
    let q := if Js.endsWith q "/" then Js.slice_drop_last q else q in
    mkRule (Js.first_is p "!") [anchorPattern q; extendPattern (anchorPattern q)].
Proof. reflexivity. Qed.

Lemma first_is_append_slash (p : string) :
  Js.first_is (p +:+ "/") "!" = Js.first_is p "!".
Proof. by destruct p. Qed.

(** A trailing slash is stripped once: a pattern that does not itself end in
    a slash is normalised as if the slash appended to it were absent. *)
Lemma convert_trailing_slash (p : string) :
  Js.endsWith p "/" = false ->
  convertGitignoreToPicomatchIgnorePatterns (p +:+ "/")
  = convertGitignoreToPicomatchIgnorePatterns p.
Proof.
  intros Hp. rewrite !convert_unfold, first_is_append_slash.
  destruct (Js.first_is p "!") eqn:Hbang; cbv zeta.
  - destruct p as [|c p]; [done |]. rewrite append_cons. simpl Js.slice_from.
    apply endsWith_cons_false in Hp.
    by rewrite endsWith_append, slice_drop_last_append, Hp.
  - by rewrite endsWith_append, slice_drop_last_append, Hp.
Qed.

(** A leading slash anchors: it is dropped and nothing is put in its place. *)
Lemma convert_anchored (p : string) :
  p <> "" ->
  Js.endsWith p "/" = false ->
  convertGitignoreToPicomatchIgnorePatterns ("/" +:+ p)
  = mkRule false [p; extendPattern p].
Proof.
  intros Hne Hp. rewrite convert_unfold.
  destruct p as [|c p]; [done |].
  change ("/" +:+ String c p) with (String "/" (String c p)).
  cbn [Js.first_is Ascii.eqb Bool.eqb]. cbv zeta.
  rewrite endsWith_cons, Hp. reflexivity.
Qed.

(** C5. Depth-recursive normalisation: a pattern that carries no negation
    mark, no trailing slash, no leading [*/**/], [/] or [**/], and whose
    prefixed form does not end in [/*], is normalised to the non-negated pair
    of [**/p] and [**/p/**]; with a negation mark in front the same pair is
    flagged as negated. In particular ["*.log"] gives
    [{"**/*.log", "**/*.log/**"}] and ["!keep.log"] gives the negated
    [{"**/keep.log", "**/keep.log/**"}]. *)
Theorem normalize_unanchored (p : string) :
  Js.first_is p "!" = false ->
  Js.endsWith p "/" = false ->
  Js.startsWith p "*/**/" = false ->
  Js.startsWith p "/" = false ->
  Js.startsWith p "**/" = false ->
  Js.endsWith ("**/" +:+ p) "/*" = false ->
  convertGitignoreToPicomatchIgnorePatterns p
    = mkRule false ["**/" +:+ p; ("**/" +:+ p) +:+ "/**"]
  /\ convertGitignoreToPicomatchIgnorePatterns ("!" +:+ p)
    = mkRule true ["**/" +:+ p; ("**/" +:+ p) +:+ "/**"]
  /\ convertGitignoreToPicomatchIgnorePatterns "*.log"
    = mkRule false ["**/*.log"; "**/*.log/**"]
  /\ convertGitignoreToPicomatchIgnorePatterns "!keep.log"
    = mkRule true ["**/keep.log"; "**/keep.log/**"].
Proof.
  intros Hbang Hslash Hstar Hroot Hdeep Hext.
  assert (Hanchor : anchorPattern p = "**/" +:+ p).
  { unfold anchorPattern. by rewrite Hstar, Hroot, Hdeep. }
  split; [| split; [| split; reflexivity]].
  - rewrite convert_unfold, Hbang. cbv zeta. rewrite Hslash, Hanchor.
    unfold extendPattern. by rewrite Hext.
  - rewrite convert_unfold.
    change ("!" +:+ p) with (String "!" p).
    cbn [Js.first_is Ascii.eqb Bool.eqb Js.slice_from]. cbv zeta.
    rewrite Hslash, Hanchor. unfold extendPattern. by rewrite Hext.
Qed.

Lemma normalize_unanchored_witness :
  Js.endsWith ("**/" +:+ "*.log") "/*" = false
  /\ convertGitignoreToPicomatchIgnorePatterns ("!" +:+ "*.log")
     = mkRule true ["**/" +:+ "*.log"; ("**/" +:+ "*.log") +:+ "/**"].
Proof.
  split; [reflexivity |].
  apply (normalize_unanchored "*.log"); reflexivity.
Defined.

(** C4, as stated, fails: ["build/"] is not normalised to
    [{"build", "build/**"}]. *)
Lemma trailing_slash_not_anchored :
  convertGitignoreToPicomatchIgnorePatterns "build/"
  <> mkRule false ["build"; "build/**"].
Proof. discriminate. Qed.

(** C4, amended. A trailing slash is stripped and a leading slash anchors
    (it is dropped and no [**/] is put in front), but stripping the trailing
    slash does not anchor: ["build/"] gives [{"**/build", "**/build/**"}],
    while ["/root.txt"] gives [{"root.txt", "root.txt/**"}]. *)
Theorem normalize_slashes (p : string) :
  Js.endsWith p "/" = false ->
  convertGitignoreToPicomatchIgnorePatterns (p +:+ "/")
    = convertGitignoreToPicomatchIgnorePatterns p
  /\ (p <> "" ->
      convertGitignoreToPicomatchIgnorePatterns ("/" +:+ p)
      = mkRule false [p; if Js.endsWith p "/*" then p else p +:+ "/**"])
  /\ convertGitignoreToPicomatchIgnorePatterns "build/"
    = mkRule false ["**/build"; "**/build/**"]
  /\ convertGitignoreToPicomatchIgnorePatterns "/root.txt"
    = mkRule false ["root.txt"; "root.txt/**"].
Proof.
  intros Hp. split; [by apply convert_trailing_slash |].
  split; [intros Hne; by apply convert_anchored |].
  split; reflexivity.
Qed.

Lemma normalize_slashes_witness :
  Js.endsWith "root.txt" "/" = false
  /\ convertGitignoreToPicomatchIgnorePatterns ("root.txt" +:+ "/")
     = convertGitignoreToPicomatchIgnorePatterns "root.txt"
  /\ convertGitignoreToPicomatchIgnorePatterns ("/" +:+ "root.txt")
     = mkRule false ["root.txt"; "root.txt/**"].
Proof.
  destruct (normalize_slashes "root.txt" eq_refl) as (H1 & H2 & _).
  split; [reflexivity |]. split; [exact H1 |]. by apply H2.
Defined.

(** ** Parsing an ignore file *)


Lemma stripComment_no_hash (line : string) :
  forall escaped : bool,
    hashIndex escaped line = None -> stripComment escaped line = line.
Proof.
  induction line as [|c line IH]; intros escaped Hi; [done |].
  simpl in Hi. simpl stripComment.
  destruct (Ascii.eqb c "#" && negb escaped); [done |].
  destruct (hashIndex (Ascii.eqb c "\") line) eqn:Hj; [done |].
  by rewrite IH.
Qed.






(** ** The file enumerator and the ignore handler *)

Section GlobCoreProperties.

Variable dirname : string -> string.
Variable relative : string -> string -> string.
Variable ROOT_WORKSPACE_NAME : string.
Variable fg_glob : Patterns -> FastGlobOptions -> list string.
Variable picomatch : list string -> list string -> string -> bool.
Variable findAndParseGitignores : string -> Session -> ParsedGitignores * Session.

(** Any other input reaches the glob engine: when [globby] returns, the last
    effect of the session is the call of [fg.glob], whose answer is the
    result. *)
Lemma globby_calls_engine (fuel : nat) (patterns : Patterns)
    (options : GlobOptions) (s s' : Session) (result : list string) :
  isEmptyArray patterns = false ->
  globby dirname relative ROOT_WORKSPACE_NAME fg_glob fuel patterns options s
    = Some (result, s') ->
  exists name fastGlobOptions,
    trace s' = trace s ++ [DebugLog name "Glob options";
                           GlobCall patterns fastGlobOptions]
    /\ result = fg_glob patterns fastGlobOptions
    /\ cachedIgnores s' = cachedIgnores s.
Proof.
  intros Hne. unfold globby. rewrite Hne.
  destruct (if gitignore options then _ else _) as [ignore1|]; [|done].
  simpl. intros [= <- <-]. eexists _, _. split; [|done].
  simpl. by rewrite <- app_assoc.
Qed.

(** C8. Empty-input short-circuit: whatever the options, the session and the
    bound on the ancestor loop, [globby] on the empty array of patterns
    returns the empty result and leaves the session as it was: no effect is
    added to the trace, so the glob engine is not called. *)
Theorem globby_empty (fuel : nat) (options : GlobOptions) (s : Session) :
  globby dirname relative ROOT_WORKSPACE_NAME fg_glob fuel (PatternArray [])
    options s
  = Some ([], s).
Proof. reflexivity. Qed.

(** C10. Disabled-ignore edge case: every call of [getGitIgnoredHandler]
    starts from a cleared cache, so that it does exactly what it does on a
    session whose cache is empty; and with [gitignore] set to false the
    predicate it returns is false on every path, the cache is left empty and
    no effect is added to the trace: no ignore file is read. *)
Theorem ignore_handler_disabled (options : Options) (s : Session) :
  getGitIgnoredHandler relative picomatch findAndParseGitignores options s
  = getGitIgnoredHandler relative picomatch findAndParseGitignores options
      (mkSession ∅ (trace s))
  /\ (opt_gitignore options = false ->
      let r := getGitIgnoredHandler relative picomatch findAndParseGitignores
                 options s in
      (forall path : string, r.1 path = false)
      /\ cachedIgnores r.2 = ∅
      /\ trace r.2 = trace s).
Proof.
  split; [reflexivity |].
  intros Hoff. unfold getGitIgnoredHandler. rewrite Hoff. simpl. done.
Qed.

End GlobCoreProperties.

Example globby_reaches_engine :
  globby (fun d => d) sample_relative "." (fun _ _ => ["a.ts"]) 0
    (OnePattern "") (mkGlobOptions false "/r" "/r" None None None None)
    (mkSession ∅ [])
  = Some (["a.ts"],
          mkSession ∅
            [DebugLog "/r" "Glob options";
             GlobCall (OnePattern "")
               (mkFastGlobOptions false "/r" None [] None None)]).
Proof. reflexivity. Qed.

Lemma ignore_handler_disabled_witness :
  let s := mkSession {[ "/r" := mkGitignores ["**/old"] [] ]} [] in
  let r := getGitIgnoredHandler sample_relative sample_picomatch
             sample_findAndParseGitignores (mkOptions false "/r") s in
  opt_gitignore (mkOptions false "/r") = false
  /\ (forall path : string, r.1 path = false)
  /\ cachedIgnores r.2 = ∅
  /\ trace r.2 = [].
Proof.
  intros s r. split; [reflexivity |].
  apply (ignore_handler_disabled sample_relative sample_picomatch
           sample_findAndParseGitignores (mkOptions false "/r") s).
  reflexivity.
Defined.

(** With [gitignore] enabled the patterns cached by an earlier session are
    gone as well: only what this call finds is in the cache. *)
Example ignore_handler_enabled_clears :
  let s := mkSession {[ "/old" := mkGitignores ["**/old"] [] ]} [] in
  let r := getGitIgnoredHandler sample_relative sample_picomatch
             sample_findAndParseGitignores (mkOptions true "/r") s in
  cachedIgnores r.2 = {[ "/r" := mkGitignores ["**/dist"; "**/dist/**"] [] ]}
  /\ r.1 "/r/dist/a.js" = true.
Proof. split; reflexivity. Qed.

(** * Properties of dependency-graph.ts *)

(** ** The three-file project *)

Example order_ABC_A :
  importersOfX [fileA; fileB; fileC] "A.ts" = Some {[ "A.ts"; "B.ts" ]}.
Proof. vm_compute. reflexivity. Qed.

Example order_ABC_B :
  importersOfX [fileA; fileB; fileC] "B.ts" = Some {[ "B.ts" ]}.
Proof. vm_compute. reflexivity. Qed.

Example order_BAC_A :
  importersOfX [fileB; fileA; fileC] "A.ts" = Some {[ "A.ts" ]}.
Proof. vm_compute. reflexivity. Qed.

Example order_BAC_B :
  importersOfX [fileB; fileA; fileC] "B.ts" = Some {[ "A.ts"; "B.ts" ]}.
Proof. vm_compute. reflexivity. Qed.

Example order_ABC_C :
  aggregateOfX [fileA; fileB; fileC] = Some {[ "A.ts"; "B.ts" ]}.
Proof. vm_compute. reflexivity. Qed.

Lemma importers_differ :
  Some ({[ "A.ts"; "B.ts" ]} : gset string) <> Some {[ "A.ts" ]}.
Proof.
  intros He. apply (inj Some) in He.
  assert (Hin : "B.ts" ∈ ({[ "A.ts" ]} : gset string))
    by (rewrite <- He; set_solver).
  apply elem_of_singleton in Hin. discriminate Hin.
Qed.

(** C1, on the code: the final graph depends on the order of analysis. With
    [A.ts] first, the record that [A.ts] keeps of its own import of [C.ts]
    ends up naming [B.ts] as an importer of [x] as well; with [B.ts] first it
    names [A.ts] alone. The object stored at [imports.internal] of the first
    importer is the very object that becomes the aggregate [imported] of
    [C.ts], and later merges write into it. *)
Theorem graph_depends_on_order :
  importersOfX [fileA; fileB; fileC] "A.ts" = Some {[ "A.ts"; "B.ts" ]}
  /\ importersOfX [fileB; fileA; fileC] "A.ts" = Some {[ "A.ts" ]}
  /\ importersOfX [fileC; fileB; fileA] "A.ts" = Some {[ "A.ts" ]}
  /\ aggregateOfX [fileA; fileB; fileC] = aggregateOfX [fileB; fileA; fileC]
  /\ finalContent [fileA; fileB; fileC] <> finalContent [fileB; fileA; fileC]
  /\ finalContent [fileA; fileB; fileC] <> finalContent [fileC; fileB; fileA].
Proof.
  assert (H1 : importersOfX [fileA; fileB; fileC] "A.ts"
               = Some {[ "A.ts"; "B.ts" ]}) by (vm_compute; reflexivity).
  assert (H2 : importersOfX [fileB; fileA; fileC] "A.ts" = Some {[ "A.ts" ]})
    by (vm_compute; reflexivity).
  assert (H3 : importersOfX [fileC; fileB; fileA] "A.ts" = Some {[ "A.ts" ]})
    by (vm_compute; reflexivity).
  split; [exact H1 |]. split; [exact H2 |]. split; [exact H3 |].
  split; [vm_compute; reflexivity |].
  split; intros Heq; apply importers_differ; rewrite <- H1.
  - rewrite <- H2. unfold importersOfX. by rewrite Heq.
  - rewrite <- H3. unfold importersOfX. by rewrite Heq.
Qed.

(** C9, on the code: a node that is neither the source nor a target
    changes. Once [A.ts] is analysed, analysing [B.ts], whose import map has
    the single key [C.ts], leaves the graph entry of [A.ts] pointing to the
    same node, leaves that node's own members as they were, and changes what
    the node records for its import of [C.ts]. *)
Theorem update_changes_other_node :
  ("A.ts" ∉ importMapB.*1)
  /\ nodeA project <> nodeB project
  /\ afterA.2 !! "A.ts" = Some (nodeA project)
  /\ afterAB.2 !! "A.ts" = Some (nodeA project)
  /\ nodes afterAB.1 !! nodeA project = nodes afterA.1 !! nodeA project
  /\ recordedImportersOfX afterA.1 (nodeA project) = Some {[ "A.ts" ]}
  /\ recordedImportersOfX afterAB.1 (nodeA project)
     = Some {[ "A.ts"; "B.ts" ]}
  /\ graphContent afterA.1 afterA.2 !! "A.ts"
     <> graphContent afterAB.1 afterAB.2 !! "A.ts".
Proof.
  assert (Hbefore : recordedImportersOfX afterA.1 (nodeA project)
                    = Some {[ "A.ts" ]}) by (vm_compute; reflexivity).
  assert (Hafter : recordedImportersOfX afterAB.1 (nodeA project)
                   = Some {[ "A.ts"; "B.ts" ]}) by (vm_compute; reflexivity).
  assert (Hg1 : afterA.2 !! "A.ts" = Some (nodeA project))
    by (vm_compute; reflexivity).
  assert (Hg2 : afterAB.2 !! "A.ts" = Some (nodeA project))
    by (vm_compute; reflexivity).
  split; [intros H%list_elem_of_singleton; discriminate H |].
  split; [vm_compute; discriminate |].
  split; [exact Hg1 |]. split; [exact Hg2 |].
  split; [vm_compute; reflexivity |].
  split; [exact Hbefore |]. split; [exact Hafter |].
  unfold graphContent. rewrite !lookup_fmap, Hg1, Hg2.
  intros Heq. apply importers_differ.
  rewrite <- Hafter, <- Hbefore.
  unfold recordedImportersOfX.
  exact (f_equal (fun o : option NodeContent =>
                    node ← o; d ← n_internal node !! "C.ts";
                    c_imported d !! "x") (eq_sym Heq)).
Qed.

(** ** Nodes and their registration *)

Lemma newNode_fresh (node : FileNode) (st : Store) :
  nodes st !! (newNode node st).1 = None.
Proof. unfold newNode. simpl. apply not_elem_of_dom. apply is_fresh. Qed.

(** C2, as stated, fails: for a path the graph does not hold, the node is
    not registered, and the next call for the same path returns another
    node. *)
Lemma getOrCreateFileNode_twice :
  let '(n1, st1) := getOrCreateFileNode emptyStore ∅ "a.ts" in
  let '(n2, st2) := getOrCreateFileNode st1 ∅ "a.ts" in
  n1 <> n2.
Proof. vm_compute. discriminate. Qed.

(** C2, amended. For a path the graph holds, [getOrCreateFileNode] returns
    the node registered for it and creates nothing, so that repeated calls
    return the same node. For any other path it returns a new empty node that
    it does not register: the graph is only read, and a repeated call returns
    yet another node. Registering is left to the caller. *)
Theorem getOrCreateFileNode_spec (st : Store) (graph : DependencyGraph)
    (filePath : string) :
  match graph !! filePath with
  | Some n => getOrCreateFileNode st graph filePath = (n, st)
  | None =>
      let '(n, st') := getOrCreateFileNode st graph filePath in
      nodes st !! n = None
      /\ st' = with_nodes st (<[n := emptyFileNode]> (nodes st))
      /\ (getOrCreateFileNode st' graph filePath).1 <> n
  end.
Proof.
  unfold getOrCreateFileNode. destruct (graph !! filePath) as [n|]; [done |].
  unfold createFileNode. simpl. split; [apply (newNode_fresh emptyFileNode) |].
  split; [done |].
  intros Heq.
  pose proof (is_fresh (dom (<[fresh (dom (nodes st)) := emptyFileNode]>
                               (nodes st)))) as Hfresh.
  rewrite Heq in Hfresh. apply Hfresh. rewrite dom_insert. set_solver.
Qed.

Lemma foldl_preserves {A B C : Type} (f : A -> B -> A) (p : A -> C) :
  (forall a b, p (f a b) = p a) ->
  forall (l : list B) (a : A), p (foldl f a l) = p a.
Proof.
  intros Hf l. induction l as [|b l IH]; intros a; [done |].
  simpl. by rewrite IH, Hf.
Qed.

Lemma nodes_addValues (map : loc) (id : string) (values : loc) (st : Store) :
  nodes (addValues map id values st) = nodes st.
Proof. unfold addValues. by destruct (_ !! id). Qed.

Lemma nodes_addAllValues (target source : loc) (st : Store) :
  nodes (addAllValues target source st) = nodes st.
Proof.
  unfold addAllValues. apply (foldl_preserves _ nodes).
  intros a b. apply nodes_addValues.
Qed.

Lemma nodes_addNsValues (map : loc) (id : string) (value : loc) (st : Store) :
  nodes (addNsValues map id value st) = nodes st.
Proof.
  unfold addNsValues. destruct (_ !! id); [apply nodes_addAllValues | done].
Qed.

Lemma nodes_addAllNsValues (target source : loc) (st : Store) :
  nodes (addAllNsValues target source st) = nodes st.
Proof.
  unfold addAllNsValues. apply (foldl_preserves _ nodes).
  intros a b. apply nodes_addNsValues.
Qed.

(** The merge reads and writes sets and maps only. *)
Lemma nodes_updateImportDetails (a b : loc) (st : Store) :
  nodes (updateImportDetails a b st) = nodes st.
Proof.
  unfold updateImportDetails.
  by rewrite !nodes_addAllValues, !nodes_addAllNsValues, !nodes_addAllValues,
    nodes_addAllNsValues, nodes_addAllValues.
Qed.




(** ** What [updateImportMap] leaves alone *)

Lemma details_addValues (map : loc) (id : string) (values : loc) (st : Store) :
  details (addValues map id values st) = details st.
Proof. unfold addValues. by destruct (_ !! id). Qed.

Lemma details_addAllValues (target source : loc) (st : Store) :
  details (addAllValues target source st) = details st.
Proof.
  unfold addAllValues. apply (foldl_preserves _ details).
  intros a b. apply details_addValues.
Qed.

Lemma details_addNsValues (map : loc) (id : string) (value : loc) (st : Store) :
  details (addNsValues map id value st) = details st.
Proof.
  unfold addNsValues. destruct (_ !! id); [apply details_addAllValues | done].
Qed.

Lemma details_addAllNsValues (target source : loc) (st : Store) :
  details (addAllNsValues target source st) = details st.
Proof.
  unfold addAllNsValues. apply (foldl_preserves _ details).
  intros a b. apply details_addNsValues.
Qed.

Lemma details_updateImportDetails (a b : loc) (st : Store) :
  details (updateImportDetails a b st) = details st.
Proof.
  unfold updateImportDetails.
  by rewrite !details_addAllValues, !details_addAllNsValues,
    !details_addAllValues, details_addAllNsValues, details_addAllValues.
Qed.

Lemma sameOutsideImports_refl (n : FileNode) : sameOutsideImports n n.
Proof. by repeat split. Qed.

Lemma recordKept_refl (file : loc) (graph : DependencyGraph)
    (keys : list string) (m : loc) (n : FileNode) :
  recordKept file graph keys m n n.
Proof. split; [apply sameOutsideImports_refl | done]. Qed.

(** One iteration writes node records in two places only. *)
Lemma updateImportEntry_records (file : loc) (st : Store)
    (graph : DependencyGraph) (path : string) (d : loc) :
  let r := updateImportEntry file (st, graph) (path, d) in
  (exists n, r.2 = <[path := n]> graph
             /\ (graph !! path = Some n \/ nodes st !! n = None))
  /\ details r.1 = details st
  /\ (forall m node, nodes st !! m = Some node ->
        exists node', nodes r.1 !! m = Some node'
                      /\ recordKept file graph [path] m node node').
Proof.
  unfold updateImportEntry.
  match goal with
  | |- context [getOrCreateFileNode ?s graph path] => set (st1 := s)
  end.
  assert (H1 : details st1 = details st
               /\ forall m node, nodes st !! m = Some node ->
                    exists node', nodes st1 !! m = Some node'
                      /\ sameOutsideImports node node'
                      /\ (m <> file ->
                          imports_internal node' = imports_internal node)
                      /\ (forall p, p <> path ->
                          imports_internal node' !! p
                          = imports_internal node !! p)
                      /\ node_imported node' = node_imported node).
  { subst st1. destruct (imports_internal (nodes st !!! file) !! path).
    - rewrite details_updateImportDetails, nodes_updateImportDetails.
      split; [done |]. intros m node Hm. exists node.
      split; [done |]. split; [apply sameOutsideImports_refl | done].
    - cbn [details nodes with_nodes]. split; [done |]. intros m node Hm.
      destruct (decide (m = file)) as [-> | Hne].
      + rewrite lookup_insert_eq, (lookup_total_correct _ _ _ Hm).
        eexists. split; [done |]. cbn [with_internal imports_internal
          imports_external imports_unresolved exports node_imported
          duplicates scripts traceRefs].
        split; [by repeat split |]. split; [done |]. split; [| done].
        intros p Hp. by rewrite lookup_insert_ne.
      + rewrite lookup_insert_ne by done. exists node.
        split; [done |]. split; [apply sameOutsideImports_refl | done]. }
  clearbody st1. destruct H1 as [Hd1 H1].
  destruct (getOrCreateFileNode st1 graph path) as [n st2] eqn:Hget.
  assert (H2 : (graph !! path = Some n /\ st2 = st1)
               \/ (graph !! path = None /\ nodes st1 !! n = None
                   /\ st2 = with_nodes st1 (<[n := emptyFileNode]> (nodes st1)))).
  { unfold getOrCreateFileNode in Hget.
    destruct (graph !! path) as [n'|].
    - left. by injection Hget as -> ->.
    - right. unfold createFileNode, newNode in Hget. injection Hget as <- <-.
      split; [done |]. split; [| done]. apply not_elem_of_dom, is_fresh. }
  cbv zeta. cbn [fst snd].
  assert (Hfresh : graph !! path = Some n \/ nodes st !! n = None).
  { destruct H2 as [[? _] | (_ & Hn & _)]; [by left | right].
    destruct (nodes st !! n) as [node|] eqn:Hnode; [| done].
    destruct (H1 n node Hnode) as (node' & Hn' & _). congruence. }
  assert (H3 : details st2 = details st
               /\ forall m node, nodes st !! m = Some node ->
                    nodes st2 !! m = nodes st1 !! m).
  { destruct H2 as [[_ ->] | (_ & Hn & ->)]; [done |].
    cbn [details nodes with_nodes]. split; [done |]. intros m node Hm.
    apply lookup_insert_ne. intros <-.
    destruct (H1 n node Hm) as (node' & Hn' & _). congruence. }
  destruct H3 as [Hd2 H3].
  split; [by exists n |].
  assert (Hkeys : forall m, (forall p, p ∈ [path] -> graph !! p <> Some m) ->
                            m <> n \/ nodes st !! m = None).
  { intros m Hm. destruct (decide (m = n)) as [-> | ?]; [| by left].
    destruct Hfresh as [Hg | ?]; [| by right].
    destruct (Hm path); [by apply list_elem_of_singleton | done]. }
  assert (Hnot : forall p, p ∉ [path] -> p <> path).
  { intros p Hp ->. apply Hp. by apply list_elem_of_singleton. }
  destruct (node_imported (nodes st2 !!! n)) as [agg|] eqn:Hagg.
  - rewrite details_updateImportDetails, nodes_updateImportDetails.
    split; [done |]. intros m node Hm.
    destruct (H1 m node Hm) as (node' & Hm' & Hs & Hi & Hp & Himp).
    exists node'. rewrite (H3 m node Hm). split; [done |].
    split; [done |]. split; [done |]. split; [| done].
    intros p Hp'. by apply Hp, Hnot.
  - cbn [details nodes with_nodes]. split; [done |]. intros m node Hm.
    destruct (H1 m node Hm) as (node' & Hm' & Hs & Hi & Hp & Himp).
    destruct (decide (m = n)) as [-> | Hne].
    + rewrite lookup_insert_eq.
      assert (Hn2 : nodes st2 !!! n = node').
      { apply lookup_total_correct. by rewrite (H3 n node Hm). }
      rewrite Hn2. eexists. split; [done |].
      split; [exact Hs |]. split; [exact Hi |].
      split; [intros p Hp'; by apply Hp, Hnot |].
      intros Hm2. destruct (Hkeys n Hm2) as [? | ?]; [done | congruence].
    + rewrite lookup_insert_ne by done. rewrite (H3 m node Hm).
      exists node'. split; [done |]. split; [done |]. split; [done |].
      split; [| done]. intros p Hp'. by apply Hp, Hnot.
Qed.

(** The node records [updateImportMap] writes: the entries of
    [imports.internal] of the source for the keys of the import map, and
    [imported] of the nodes the graph had for these keys. Every other member
    of every record, and every graph entry for another path, is as it was.
    The [ImportDetails] objects themselves are another matter. *)
Lemma updateImportMap_records (file : loc) (importMap : list (string * loc))
    (graph : DependencyGraph) (st : Store) :
  let r := updateImportMap file importMap graph st in
  (forall p, p ∉ importMap.*1 -> r.2 !! p = graph !! p)
  /\ (forall p n, r.2 !! p = Some n ->
        graph !! p = Some n \/ nodes st !! n = None)
  /\ details r.1 = details st
  /\ (forall m node, nodes st !! m = Some node ->
        exists node', nodes r.1 !! m = Some node'
                      /\ recordKept file graph importMap.*1 m node node').
Proof.
  unfold updateImportMap. cbv zeta.
  induction importMap as [|[path d] importMap IH] using rev_ind.
  { cbn. split; [done |]. split; [by left |]. split; [done |].
    intros m node Hm. exists node. split; [done | apply recordKept_refl]. }
  rewrite foldl_app, fmap_app. cbn [foldl fmap list_fmap fst].
  destruct (foldl (updateImportEntry file) (st, graph) importMap)
    as [st1 graph1] eqn:Hfold.
  cbn [fst snd] in IH. destruct IH as (I1 & I2 & I3 & I4).
  pose proof (updateImportEntry_records file st1 graph1 path d) as Hstep.
  cbv zeta in Hstep. destruct Hstep as ((n & Hg & Hn) & Hd & Hrec).
  split; [| split; [| split]].
  - intros p Hp. apply not_elem_of_app in Hp as [Hp1 Hp2].
    rewrite Hg, lookup_insert_ne; [by apply I1 |].
    intros ->. apply Hp2. by apply list_elem_of_singleton.
  - intros p n' Hp. rewrite Hg in Hp.
    destruct (decide (path = p)) as [<- | Hne].
    + rewrite lookup_insert_eq in Hp. injection Hp as <-.
      destruct Hn as [Hn | Hn]; [by apply I2 |].
      right. destruct (nodes st !! n) as [node|] eqn:Hnode; [| done].
      destruct (I4 n node Hnode) as (node' & Hn' & _). congruence.
    + rewrite lookup_insert_ne in Hp by done. by apply I2.
  - by rewrite Hd.
  - intros m node Hm.
    destruct (I4 m node Hm) as (node1 & Hm1 & Hs1 & Hi1 & Hp1 & Himp1).
    destruct (Hrec m node1 Hm1) as (node2 & Hm2 & Hs2 & Hi2 & Hp2 & Himp2).
    exists node2. split; [done |]. split; [| split; [| split]].
    + destruct Hs1 as (?&?&?&?&?&?), Hs2 as (?&?&?&?&?&?).
      repeat split; congruence.
    + intros Hne. by rewrite Hi2, Hi1.
    + intros p Hp. apply not_elem_of_app in Hp as [Hpa Hpb].
      by rewrite Hp2, Hp1.
    + intros Hkeys. rewrite Himp2, Himp1; [done | |].
      * intros p Hp. apply Hkeys, elem_of_app. by left.
      * intros p Hp%list_elem_of_singleton Hgp. subst p.
        destruct (I2 path m Hgp) as [Hgm | ?]; [| congruence].
        apply (Hkeys path); [| done].
        apply elem_of_app. right. by apply list_elem_of_singleton.
Qed.

(** ** The merge of [ImportDetails]: what the loops do to the store *)


Lemma sets_setAddAll (t v l : loc) (st : Store) :
  sets (setAddAll t v st) !!! l
  = if decide (t = l) then sets st !!! t ∪ sets st !!! v else sets st !!! l.
Proof. unfold setAddAll. cbn [sets with_sets]. apply lookup_total_insert. Qed.

Lemma idmaps_idmapSet (map : loc) (id : string) (v m : loc) (st : Store) :
  idmaps (idmapSet map id v st) !!! m
  = if decide (map = m) then <[id := v]> (idmaps st !!! map)
    else idmaps st !!! m.
Proof. unfold idmapSet. cbn [idmaps with_idmaps]. apply lookup_total_insert. Qed.

(** The loop of [addAllValues] over the entries [es] that are still to be
    visited, when no set is held twice by the target map and [es]. *)
Lemma addValues_loop (t : loc) (es : list (string * loc)) :
  forall st : Store,
    NoDup es.*1 ->
    (forall k1 k2 l,
        (idmaps st !!! t) !! k1 = Some l \/ (k1, l) ∈ es ->
        (idmaps st !!! t) !! k2 = Some l \/ (k2, l) ∈ es ->
        k1 = k2) ->
    let st' := foldl (fun st e => addValues t e.1 e.2 st) st es in
    idmaps st' !!! t = idmaps st !!! t ∪ list_to_map es
    /\ (forall m, m <> t -> idmaps st' !!! m = idmaps st !!! m)
    /\ (forall k l, (idmaps st !!! t) !! k = Some l ->
          sets st' !!! l
          = sets st !!! l ∪ setOf st ((list_to_map es : gmap string loc) !! k))
    /\ (forall l, (forall k, (idmaps st !!! t) !! k <> Some l) ->
          sets st' !!! l = sets st !!! l)
    /\ nsmaps st' = nsmaps st /\ details st' = details st
    /\ nodes st' = nodes st.
Proof.
  induction es as [|[k v] es IH]; intros st Hnd HJ; cbn [foldl].
  { cbn [list_to_map foldr]. rewrite (right_id_L ∅ (∪)).
    repeat split; try done.
    intros k l _. rewrite lookup_empty. cbn. by rewrite (right_id_L ∅ (∪)). }
  cbn [fst snd]. rewrite fmap_cons in Hnd. apply NoDup_cons in Hnd as [Hk Hnd]. cbn [fst] in Hk.
  assert (Hes : (list_to_map es : gmap string loc) !! k = None).
  { by apply not_elem_of_list_to_map_1. }
  cbv zeta.
  destruct ((idmaps st !!! t) !! k) as [l0|] eqn:Hl0.
  - (* the key is known: the set at [l0] receives the set at [v] *)
    replace (addValues t k v st) with (setAddAll l0 v st)
      by (unfold addValues; by rewrite Hl0).
    specialize (IH (setAddAll l0 v st) Hnd).
    cbn [setAddAll idmaps with_sets] in IH.
    assert (HJ' : forall k1 k2 l,
               (idmaps st !!! t) !! k1 = Some l \/ (k1, l) ∈ es ->
               (idmaps st !!! t) !! k2 = Some l \/ (k2, l) ∈ es -> k1 = k2).
    { intros k1 k2 l H1 H2. apply (HJ k1 k2 l).
      - destruct H1 as [?|?]; [by left | right; by apply elem_of_cons; right].
      - destruct H2 as [?|?]; [by left | right; by apply elem_of_cons; right]. }
    destruct (IH HJ') as (I1 & I2 & I3 & I4 & I5 & I6 & I7). clear IH.
    cbn [nsmaps details nodes] in I5, I6, I7.
    refine (conj _ (conj I2 (conj _ (conj _ (conj I5 (conj I6 I7)))))).
    + rewrite I1. apply map_eq. intros k'.
      cbn [list_to_map foldr]. rewrite !lookup_union.
      destruct (decide (k' = k)) as [-> | Hne].
      * rewrite Hl0, lookup_insert_eq, Hes. done.
      * by rewrite lookup_insert_ne.
    + intros k' l Hl. rewrite (I3 k' l Hl), !sets_setAddAll.
      cbn [list_to_map foldr].
      destruct (decide (k' = k)) as [-> | Hne].
      * rewrite Hl0 in Hl. injection Hl as <-.
        rewrite lookup_insert_eq, Hes. cbn [setOf].
        rewrite decide_True by done. set_solver.
      * rewrite lookup_insert_ne by done.
        rewrite decide_False.
        2:{ intros <-. apply Hne. apply (HJ k' k l0); by left. }
        f_equal.
        destruct ((list_to_map es : gmap string loc) !! k') as [v'|] eqn:Hv';
          [| done].
        cbn [setOf sets setAddAll with_sets].
        rewrite lookup_total_insert_ne; [done |].
        intros <-. apply Hne. apply (HJ k' k l0); [| by left].
        right. apply elem_of_cons. right.
        by apply elem_of_list_to_map_2.
    + intros l Hl. rewrite (I4 l Hl), sets_setAddAll.
      rewrite decide_False; [done |]. intros <-. by apply (Hl k).
  - (* the key is new: the target map adopts the set at [v] *)
    replace (addValues t k v st) with (idmapSet t k v st)
      by (unfold addValues; by rewrite Hl0).
    specialize (IH (idmapSet t k v st) Hnd).
    rewrite idmaps_idmapSet, decide_True in IH by done.
    cbn [idmapSet sets with_idmaps nsmaps details nodes] in IH.
    assert (HJ' : forall k1 k2 l,
               (<[k:=v]> (idmaps st !!! t)) !! k1 = Some l \/ (k1, l) ∈ es ->
               (<[k:=v]> (idmaps st !!! t)) !! k2 = Some l \/ (k2, l) ∈ es ->
               k1 = k2).
    { intros k1 k2 l H1 H2. apply (HJ k1 k2 l).
      - destruct H1 as [H1|?]; [| right; by apply elem_of_cons; right].
        destruct (decide (k = k1)) as [<- | Hne].
        + rewrite lookup_insert_eq in H1. injection H1 as <-.
          right. apply elem_of_cons. by left.
        + rewrite lookup_insert_ne in H1 by done. by left.
      - destruct H2 as [H2|?]; [| right; by apply elem_of_cons; right].
        destruct (decide (k = k2)) as [<- | Hne].
        + rewrite lookup_insert_eq in H2. injection H2 as <-.
          right. apply elem_of_cons. by left.
        + rewrite lookup_insert_ne in H2 by done. by left. }
    destruct (IH HJ') as (I1 & I2 & I3 & I4 & I5 & I6 & I7). clear IH.
    refine (conj _ (conj _ (conj _ (conj _ (conj I5 (conj I6 I7)))))).
    + rewrite I1. apply map_eq. intros k'.
      cbn [list_to_map foldr]. rewrite !lookup_union.
      destruct (decide (k' = k)) as [-> | Hne].
      * rewrite Hl0, !lookup_insert_eq, Hes. done.
      * by rewrite !lookup_insert_ne.
    + intros m Hm. rewrite (I2 m Hm), idmaps_idmapSet.
      by rewrite decide_False.
    + intros k' l Hl.
      assert (Hne : k' <> k) by (intros ->; congruence).
      rewrite (I3 k' l); [| by rewrite lookup_insert_ne].
      cbn [list_to_map foldr]. by rewrite lookup_insert_ne.
    + intros l Hl. destruct (decide (l = v)) as [-> | Hne].
      * rewrite (I3 k v); [| by rewrite lookup_insert_eq].
        rewrite Hes. cbn [setOf]. set_solver.
      * apply I4. intros k'. destruct (decide (k = k')) as [<- | Hne'].
        -- rewrite lookup_insert_eq. congruence.
        -- rewrite lookup_insert_ne by done. apply Hl.
Qed.

(** [addAllValues], when no set is held twice by the two maps: the target
    map takes the keys it lacks from the source map, each set of the target
    map receives the set the source map has for the same key, and nothing
    else changes. *)
Lemma addAllValues_effect (t s : loc) (st : Store) :
  (forall k1 k2 l,
      (idmaps st !!! t) !! k1 = Some l \/ (idmaps st !!! s) !! k1 = Some l ->
      (idmaps st !!! t) !! k2 = Some l \/ (idmaps st !!! s) !! k2 = Some l ->
      k1 = k2) ->
  let st' := addAllValues t s st in
  idmaps st' !!! t = idmaps st !!! t ∪ idmaps st !!! s
  /\ (forall m, m <> t -> idmaps st' !!! m = idmaps st !!! m)
  /\ (forall k l, (idmaps st !!! t) !! k = Some l ->
        sets st' !!! l = sets st !!! l ∪ setOf st ((idmaps st !!! s) !! k))
  /\ (forall l, (forall k, (idmaps st !!! t) !! k <> Some l) ->
        sets st' !!! l = sets st !!! l)
  /\ nsmaps st' = nsmaps st /\ details st' = details st
  /\ nodes st' = nodes st.
Proof.
  intros HJ. unfold addAllValues, idmapEntries.
  pose proof (addValues_loop t (map_to_list (idmaps st !!! s)) st
                (NoDup_fst_map_to_list _)) as Hloop.
  rewrite list_to_map_to_list in Hloop. apply Hloop.
  intros k1 k2 l H1 H2. apply (HJ k1 k2 l).
  - destruct H1 as [?|?%elem_of_map_to_list]; [by left | by right].
  - destruct H2 as [?|?%elem_of_map_to_list]; [by left | by right].
Qed.

Lemma nsmaps_nsmapSet (map : loc) (id : string) (v n : loc) (st : Store) :
  nsmaps (nsmapSet map id v st) !!! n
  = if decide (map = n) then <[id := v]> (nsmaps st !!! map)
    else nsmaps st !!! n.
Proof. unfold nsmapSet. cbn [nsmaps with_nsmaps]. apply lookup_total_insert. Qed.

Lemma elem_of_range (m : gmap string loc) (l : loc) :
  l ∈ (map_to_list m).*2 <-> exists k, m !! k = Some l.
Proof.
  rewrite list_elem_of_fmap. split.
  - intros ([k l'] & -> & H%elem_of_map_to_list). by exists k.
  - intros [k H]. exists (k, l). split; [done |]. by apply elem_of_map_to_list.
Qed.

Lemma union_insert_fresh (m1 m2 : gmap string loc) (k : string) (v : loc) :
  m1 !! k = None -> m2 !! k = None ->
  <[k := v]> m1 ∪ m2 = m1 ∪ <[k := v]> m2.
Proof.
  intros H1 H2. apply map_eq. intros k'. rewrite !lookup_union.
  destruct (decide (k' = k)) as [-> | Hne].
  - by rewrite H1, !lookup_insert_eq, H2.
  - by rewrite !lookup_insert_ne.
Qed.

Lemma union_insert_known (m1 m2 : gmap string loc) (k : string) (v l : loc) :
  m1 !! k = Some l -> m1 ∪ m2 = m1 ∪ <[k := v]> m2.
Proof.
  intros H1. apply map_eq. intros k'. rewrite !lookup_union.
  destruct (decide (k' = k)) as [-> | Hne].
  - rewrite H1, lookup_insert_eq. by destruct (m2 !! k).
  - by rewrite lookup_insert_ne.
Qed.

(** The loop of [addAllNsValues] over the entries [es] that are still to be
    visited, when no inner map and no set is held twice by the target map
    and [es]. *)
Lemma addNsValues_loop (tn : loc) (es : list (string * loc)) :
  forall st : Store,
    NoDup es.*1 ->
    (forall k1 k2 m,
        (nsmaps st !!! tn) !! k1 = Some m \/ (k1, m) ∈ es ->
        (nsmaps st !!! tn) !! k2 = Some m \/ (k2, m) ∈ es -> k1 = k2) ->
    (forall id1 ns1 id2 ns2 m1 m2 l,
        (nsmaps st !!! tn) !! id1 = Some m1 \/ (id1, m1) ∈ es ->
        (idmaps st !!! m1) !! ns1 = Some l ->
        (nsmaps st !!! tn) !! id2 = Some m2 \/ (id2, m2) ∈ es ->
        (idmaps st !!! m2) !! ns2 = Some l ->
        id1 = id2 /\ ns1 = ns2) ->
    let st' := foldl (fun st e => addNsValues tn e.1 e.2 st) st es in
    nsmaps st' !!! tn = nsmaps st !!! tn ∪ list_to_map es
    /\ (forall n, n <> tn -> nsmaps st' !!! n = nsmaps st !!! n)
    /\ (forall id m, (nsmaps st !!! tn) !! id = Some m ->
          idmaps st' !!! m
          = idmaps st !!! m
            ∪ idmapOf st ((list_to_map es : gmap string loc) !! id))
    /\ (forall m, (forall id, (nsmaps st !!! tn) !! id <> Some m) ->
          idmaps st' !!! m = idmaps st !!! m)
    /\ (forall id ns m l,
          (nsmaps st !!! tn) !! id = Some m ->
          (idmaps st !!! m) !! ns = Some l ->
          sets st' !!! l
          = sets st !!! l
            ∪ setOf st
                (idmapOf st ((list_to_map es : gmap string loc) !! id) !! ns))
    /\ (forall l,
          (forall id ns m, (nsmaps st !!! tn) !! id = Some m ->
                           (idmaps st !!! m) !! ns <> Some l) ->
          sets st' !!! l = sets st !!! l)
    /\ details st' = details st /\ nodes st' = nodes st.
Proof.
  induction es as [|[id v] es IH]; intros st Hnd HJN HJS; cbn [foldl].
  { cbn [list_to_map foldr]. rewrite (right_id_L ∅ (∪)).
    repeat split; try done.
    - intros k m _. rewrite lookup_empty. cbn. by rewrite (right_id_L ∅ (∪)).
    - intros k ns m l _ _. rewrite lookup_empty. cbn.
      rewrite lookup_empty. cbn. by rewrite (right_id_L ∅ (∪)). }
  cbn [fst snd]. rewrite fmap_cons in Hnd.
  apply NoDup_cons in Hnd as [Hk Hnd]. cbn [fst] in Hk.
  assert (Hes : (list_to_map es : gmap string loc) !! id = None)
    by (by apply not_elem_of_list_to_map_1).
  cbv zeta. cbn [list_to_map foldr].
  set (TN := nsmaps st !!! tn) in *.
  destruct (TN !! id) as [inner|] eqn:Hinner.
  - (* the key is known: the inner map receives the entries of [v] *)
    replace (addNsValues tn id v st) with (addAllValues inner v st)
      by (unfold addNsValues; fold TN; by rewrite Hinner).
    destruct (addAllValues_effect inner v st) as (E1 & E2 & E3 & E4 & E5 & E6 & E7).
    { intros k1 k2 l H1 H2.
      assert (G1 : exists m1, (TN !! id = Some m1 \/ (id, m1) ∈ (id, v) :: es)
                              /\ (idmaps st !!! m1) !! k1 = Some l).
      { destruct H1 as [H1|H1]; [exists inner | exists v];
          (split; [| done]); [by left | right; apply elem_of_cons; by left]. }
      assert (G2 : exists m2, (TN !! id = Some m2 \/ (id, m2) ∈ (id, v) :: es)
                              /\ (idmaps st !!! m2) !! k2 = Some l).
      { destruct H2 as [H2|H2]; [exists inner | exists v];
          (split; [| done]); [by left | right; apply elem_of_cons; by left]. }
      destruct G1 as (m1 & G1 & G1'), G2 as (m2 & G2 & G2').
      by destruct (HJS id k1 id k2 m1 m2 l G1 G1' G2 G2'). }
    set (st1 := addAllValues inner v st) in *.
    assert (HTN1 : nsmaps st1 !!! tn = TN) by (by rewrite E5).
    (* what the inner maps hold after the step, they or [v] held before *)
    assert (Hback : forall id' m ns l,
               TN !! id' = Some m \/ (id', m) ∈ es ->
               (idmaps st1 !!! m) !! ns = Some l ->
               exists m', (TN !! id' = Some m' \/ (id', m') ∈ (id, v) :: es)
                          /\ (idmaps st !!! m') !! ns = Some l).
    { intros id' m ns l Hm Hl.
      assert (Hm' : TN !! id' = Some m \/ (id', m) ∈ (id, v) :: es).
      { destruct Hm as [?|?]; [by left | right; apply elem_of_cons; by right]. }
      destruct (decide (m = inner)) as [-> | Hne].
      - assert (id' = id) as ->.
        { apply (HJN id' id inner); [done | by left]. }
        rewrite E1 in Hl. apply lookup_union_Some_raw in Hl as [Hl | [_ Hl]].
        + exists inner. split; [by left | done].
        + exists v. split; [right; apply elem_of_cons; by left | done].
      - rewrite (E2 m Hne) in Hl. by exists m. }
    assert (HJN1 : forall k1 k2 m,
               (nsmaps st1 !!! tn) !! k1 = Some m \/ (k1, m) ∈ es ->
               (nsmaps st1 !!! tn) !! k2 = Some m \/ (k2, m) ∈ es -> k1 = k2).
    { rewrite HTN1. intros k1 k2 m H1 H2. apply (HJN k1 k2 m).
      - destruct H1 as [?|?]; [by left | right; apply elem_of_cons; by right].
      - destruct H2 as [?|?]; [by left | right; apply elem_of_cons; by right]. }
    assert (HJS1 : forall id1 ns1 id2 ns2 m1 m2 l,
               (nsmaps st1 !!! tn) !! id1 = Some m1 \/ (id1, m1) ∈ es ->
               (idmaps st1 !!! m1) !! ns1 = Some l ->
               (nsmaps st1 !!! tn) !! id2 = Some m2 \/ (id2, m2) ∈ es ->
               (idmaps st1 !!! m2) !! ns2 = Some l ->
               id1 = id2 /\ ns1 = ns2).
    { rewrite HTN1. intros id1 ns1 id2 ns2 m1 m2 l H1 H1' H2 H2'.
      destruct (Hback _ _ _ _ H1 H1') as (m1' & G1 & G1').
      destruct (Hback _ _ _ _ H2 H2') as (m2' & G2 & G2').
      exact (HJS id1 ns1 id2 ns2 m1' m2' l G1 G1' G2 G2'). }
    destruct (IH st1 Hnd HJN1 HJS1) as (I1 & I2 & I3 & I4 & I5 & I6 & I7 & I8).
    clear IH. rewrite HTN1 in I1, I3, I4, I5, I6.
    assert (Hother : forall id' m, id' <> id ->
               TN !! id' = Some m \/ (id', m) ∈ es -> m <> inner).
    { intros id' m Hne Hm ->. apply Hne. apply (HJN id' id inner); [| by left].
      destruct Hm as [?|?]; [by left | right; apply elem_of_cons; by right]. }
    assert (Hsets : forall id' m ns l, id' <> id ->
               TN !! id' = Some m \/ (id', m) ∈ es ->
               (idmaps st !!! m) !! ns = Some l ->
               sets st1 !!! l = sets st !!! l).
    { intros id' m ns l Hne Hm Hl. apply E4. intros k Hk'.
      apply Hne.
      refine (proj1 (HJS id' ns id k m inner l _ Hl _ Hk')); [| by left].
      destruct Hm as [?|?]; [by left | right; apply elem_of_cons; by right]. }
    refine (conj _ (conj _ (conj _ (conj _ (conj _ (conj _ (conj _ _))))))).
    + rewrite I1. by apply union_insert_known with inner.
    + intros n Hn. by rewrite (I2 n Hn), E5.
    + intros id' m Hm. rewrite (I3 id' m Hm).
      destruct (decide (id' = id)) as [-> | Hne].
      * rewrite Hinner in Hm. injection Hm as <-.
        rewrite Hes, lookup_insert_eq, E1. cbn [idmapOf].
        by rewrite (right_id_L ∅ (∪)).
      * rewrite lookup_insert_ne by done.
        rewrite (E2 m) by (apply (Hother id'); [done | by left]).
        f_equal.
        destruct ((list_to_map es : gmap string loc) !! id') as [m'|] eqn:Hm';
          [| done].
        cbn [idmapOf]. apply E2. apply (Hother id'); [done |].
        right. by apply elem_of_list_to_map_2.
    + intros m Hm. rewrite (I4 m Hm). apply E2. intros ->. by apply (Hm id).
    + intros id' ns m l Hm Hl.
      assert (Hl1 : (idmaps st1 !!! m) !! ns = Some l).
      { destruct (decide (m = inner)) as [-> | Hne].
        - rewrite E1. by apply lookup_union_Some_l.
        - by rewrite (E2 m Hne). }
      rewrite (I5 id' ns m l Hm Hl1).
      destruct (decide (id' = id)) as [-> | Hne].
      * rewrite Hinner in Hm. injection Hm as <-.
        rewrite Hes, lookup_insert_eq. cbn [idmapOf].
        rewrite lookup_empty. cbn [setOf]. rewrite (right_id_L ∅ (∪)).
        by apply E3.
      * rewrite lookup_insert_ne by done.
        rewrite (Hsets id' m ns l Hne (or_introl Hm) Hl). f_equal.
        destruct ((list_to_map es : gmap string loc) !! id') as [m'|] eqn:Hm';
          [| done].
        cbn [idmapOf].
        assert (Hm'in : (id', m') ∈ es) by (by apply elem_of_list_to_map_2).
        rewrite (E2 m') by (apply (Hother id'); [done | by right]).
        destruct ((idmaps st !!! m') !! ns) as [l'|] eqn:Hl'; [| done].
        cbn [setOf]. by apply (Hsets id' m' ns l' Hne (or_intror Hm'in)).
    + intros l Hl.
      assert (Hst1 : sets st1 !!! l = sets st !!! l).
      { apply E4. intros k. by apply (Hl id k inner). }
      destruct (decide (l ∈ (map_to_list (idmaps st1 !!! inner)).*2))
        as [Hin | Hout].
      * apply elem_of_range in Hin as [ns Hns].
        rewrite (I5 id ns inner l Hinner Hns), Hes. cbn [idmapOf].
        rewrite lookup_empty. cbn [setOf]. by rewrite (right_id_L ∅ (∪)).
      * rewrite <- Hst1. apply I6. intros id' ns m Hm Hl'.
        destruct (decide (m = inner)) as [-> | Hne].
        -- apply Hout. apply elem_of_range. by exists ns.
        -- rewrite (E2 m Hne) in Hl'. by apply (Hl id' ns m).
    + by rewrite I7.
    + by rewrite I8.
  - (* the key is new: the target map adopts the inner map [v] *)
    replace (addNsValues tn id v st) with (nsmapSet tn id v st)
      by (unfold addNsValues; fold TN; by rewrite Hinner).
    set (st1 := nsmapSet tn id v st) in *.
    assert (HTN1 : nsmaps st1 !!! tn = <[id := v]> TN).
    { unfold st1. by rewrite nsmaps_nsmapSet, decide_True. }
    assert (Hfwd : forall k m,
               (<[id := v]> TN) !! k = Some m \/ (k, m) ∈ es ->
               TN !! k = Some m \/ (k, m) ∈ (id, v) :: es).
    { intros k m [H|H]; [| right; apply elem_of_cons; by right].
      destruct (decide (id = k)) as [<- | Hne].
      - rewrite lookup_insert_eq in H. injection H as <-.
        right. apply elem_of_cons. by left.
      - rewrite lookup_insert_ne in H by done. by left. }
    assert (HJN1 : forall k1 k2 m,
               (nsmaps st1 !!! tn) !! k1 = Some m \/ (k1, m) ∈ es ->
               (nsmaps st1 !!! tn) !! k2 = Some m \/ (k2, m) ∈ es -> k1 = k2).
    { rewrite HTN1. intros k1 k2 m H1 H2.
      apply (HJN k1 k2 m); by apply Hfwd. }
    assert (HJS1 : forall id1 ns1 id2 ns2 m1 m2 l,
               (nsmaps st1 !!! tn) !! id1 = Some m1 \/ (id1, m1) ∈ es ->
               (idmaps st1 !!! m1) !! ns1 = Some l ->
               (nsmaps st1 !!! tn) !! id2 = Some m2 \/ (id2, m2) ∈ es ->
               (idmaps st1 !!! m2) !! ns2 = Some l ->
               id1 = id2 /\ ns1 = ns2).
    { rewrite HTN1. intros id1 ns1 id2 ns2 m1 m2 l H1 H1' H2 H2'.
      apply (HJS id1 ns1 id2 ns2 m1 m2 l); [by apply Hfwd | done
                                            | by apply Hfwd | done]. }
    destruct (IH st1 Hnd HJN1 HJS1) as (I1 & I2 & I3 & I4 & I5 & I6 & I7 & I8).
    clear IH. rewrite HTN1 in I1, I3, I4, I5, I6.
    change (idmaps st1) with (idmaps st) in *.
    change (sets st1) with (sets st) in *.
    change (idmapOf st1) with (idmapOf st) in *.
    change (setOf st1) with (setOf st) in *.
    refine (conj _ (conj _ (conj _ (conj _ (conj _ (conj _ (conj I7 I8))))))).
    + rewrite I1. by apply union_insert_fresh.
    + intros n Hn. rewrite (I2 n Hn). unfold st1.
      by rewrite nsmaps_nsmapSet, decide_False.
    + intros id' m Hm.
      assert (Hne : id' <> id) by (intros ->; congruence).
      rewrite (I3 id' m) by (by rewrite lookup_insert_ne).
      by rewrite lookup_insert_ne.
    + intros m Hm. destruct (decide (m = v)) as [-> | Hne].
      * rewrite (I3 id v) by (by rewrite lookup_insert_eq).
        rewrite Hes. cbn [idmapOf]. by rewrite (right_id_L ∅ (∪)).
      * apply I4. intros id'. destruct (decide (id = id')) as [<- | Hne'].
        -- rewrite lookup_insert_eq. congruence.
        -- rewrite lookup_insert_ne by done. apply Hm.
    + intros id' ns m l Hm Hl.
      assert (Hne : id' <> id) by (intros ->; congruence).
      rewrite (I5 id' ns m l) by (by rewrite ?lookup_insert_ne).
      by rewrite lookup_insert_ne.
    + intros l Hl.
      destruct (decide (l ∈ (map_to_list (idmaps st !!! v)).*2))
        as [Hin | Hout].
      * apply elem_of_range in Hin as [ns Hns].
        rewrite (I5 id ns v l) by (by rewrite ?lookup_insert_eq).
        rewrite Hes. cbn [idmapOf]. rewrite lookup_empty. cbn [setOf].
        by rewrite (right_id_L ∅ (∪)).
      * apply I6. intros id' ns m Hm Hl'.
        destruct (decide (id = id')) as [<- | Hne].
        -- rewrite lookup_insert_eq in Hm. injection Hm as <-.
           apply Hout. apply elem_of_range. by exists ns.
        -- rewrite lookup_insert_ne in Hm by done. by apply (Hl id' ns m).
Qed.
Lemma updateImportDetails_mergeInto (a b : loc) (st : Store) :
  updateImportDetails a b st
  = mergeInto (details st !!! a) (details st !!! b) st.
Proof. reflexivity. Qed.

(** [addAllNsValues], when no inner map and no set is held twice by the two
    maps. *)
Lemma addAllNsValues_effect (tn sn : loc) (st : Store) :
  (forall k1 k2 m,
      (nsmaps st !!! tn) !! k1 = Some m \/ (nsmaps st !!! sn) !! k1 = Some m ->
      (nsmaps st !!! tn) !! k2 = Some m \/ (nsmaps st !!! sn) !! k2 = Some m ->
      k1 = k2) ->
  (forall id1 ns1 id2 ns2 m1 m2 l,
      (nsmaps st !!! tn) !! id1 = Some m1
      \/ (nsmaps st !!! sn) !! id1 = Some m1 ->
      (idmaps st !!! m1) !! ns1 = Some l ->
      (nsmaps st !!! tn) !! id2 = Some m2
      \/ (nsmaps st !!! sn) !! id2 = Some m2 ->
      (idmaps st !!! m2) !! ns2 = Some l ->
      id1 = id2 /\ ns1 = ns2) ->
  let st' := addAllNsValues tn sn st in
  nsmaps st' !!! tn = nsmaps st !!! tn ∪ nsmaps st !!! sn
  /\ (forall n, n <> tn -> nsmaps st' !!! n = nsmaps st !!! n)
  /\ (forall id m, (nsmaps st !!! tn) !! id = Some m ->
        idmaps st' !!! m
        = idmaps st !!! m ∪ idmapOf st ((nsmaps st !!! sn) !! id))
  /\ (forall m, (forall id, (nsmaps st !!! tn) !! id <> Some m) ->
        idmaps st' !!! m = idmaps st !!! m)
  /\ (forall id ns m l,
        (nsmaps st !!! tn) !! id = Some m ->
        (idmaps st !!! m) !! ns = Some l ->
        sets st' !!! l
        = sets st !!! l
          ∪ setOf st (idmapOf st ((nsmaps st !!! sn) !! id) !! ns))
  /\ (forall l,
        (forall id ns m, (nsmaps st !!! tn) !! id = Some m ->
                         (idmaps st !!! m) !! ns <> Some l) ->
        sets st' !!! l = sets st !!! l)
  /\ details st' = details st /\ nodes st' = nodes st.
Proof.
  intros HJN HJS. unfold addAllNsValues, nsmapEntries.
  pose proof (addNsValues_loop tn (map_to_list (nsmaps st !!! sn)) st
                (NoDup_fst_map_to_list _)) as Hloop.
  rewrite list_to_map_to_list in Hloop. apply Hloop.
  - intros k1 k2 m H1 H2. apply (HJN k1 k2 m).
    + destruct H1 as [?|?%elem_of_map_to_list]; [by left | by right].
    + destruct H2 as [?|?%elem_of_map_to_list]; [by left | by right].
  - intros id1 ns1 id2 ns2 m1 m2 l H1 H1' H2 H2'.
    apply (HJS id1 ns1 id2 ns2 m1 m2 l); [| done | | done].
    + destruct H1 as [?|?%elem_of_map_to_list]; [by left | by right].
    + destruct H2 as [?|?%elem_of_map_to_list]; [by left | by right].
Qed.

(** ** The merge of [ImportDetails]: one member at a time *)

Lemma both_l (a b : ImportDetails) : a ∈ [a; b].
Proof. apply elem_of_cons. by left. Qed.

Lemma both_r (a b : ImportDetails) : b ∈ [a; b].
Proof. apply elem_of_cons. right. apply elem_of_cons. by left. Qed.

Lemma setRoot_refs (p : SetPath) : setRoot p = RRefs -> p = AtRefs.
Proof. by destruct p. Qed.

Lemma setRoot_id (p : SetPath) (f : IdField) :
  setRoot p = RId f -> exists k, p = AtId f k.
Proof. destruct p; try done. intros [= ->]. by eexists. Qed.

Lemma setRoot_ns (p : SetPath) (g : NsField) :
  setRoot p = RNs g -> exists id ns, p = AtNs g id ns.
Proof. destruct p; try done. intros [= ->]. by eexists _, _. Qed.

Lemma mapRoot_id (q : MapPath) (f : IdField) :
  mapRoot q = RId f -> q = AtField f.
Proof. destruct q; try done. by intros [= ->]. Qed.

Lemma mapRoot_ns (q : MapPath) (g : NsField) :
  mapRoot q = RNs g -> exists id, q = AtEntry g id.
Proof. destruct q; try done. intros [= ->]. by eexists. Qed.

Lemma elem_of_one (r r' : Root) : r' ∈ [r] -> r' = r.
Proof. by intros ?%list_elem_of_singleton. Qed.

Lemma setAt_ns_inv (st : Store) (d : ImportDetails) (g : NsField)
    (id ns : string) (l : loc) :
  setAt st d (AtNs g id ns) = Some l <->
  exists m, mapAt st d (AtEntry g id) = Some m
            /\ (idmaps st !!! m) !! ns = Some l.
Proof.
  cbn [setAt mapAt]. split.
  - destruct (_ !! id) as [m|]; [| done]. cbn. intros H. by exists m.
  - intros (m & -> & H). done.
Qed.

(** [for (const id of importItems.refs) importedModule.refs.add(id)]. *)
Lemma phase_refs (a b : ImportDetails) (st : Store) :
  effect a b [RRefs] st (setAddAll (refs a) (refs b) st).
Proof.
  split; try done.
  - intros g Hg%elem_of_one. done.
  - intros q m Hq%elem_of_one. by destruct q.
  - intros p l Hp%elem_of_one%setRoot_refs Hl. subst p.
    cbn [setAt] in Hl. injection Hl as <-. cbn [setAt setOf].
    by rewrite sets_setAddAll, decide_True.
  - intros l Hl. rewrite sets_setAddAll, decide_False; [done |].
    intros <-. apply (Hl AtRefs); [apply list_elem_of_singleton |]; done.
Qed.

(** The loop over an identifier-keyed member. *)
Lemma phase_id (a b : ImportDetails) (f : IdField) (st : Store) :
  positional st [a; b] ->
  effect a b [RId f] st (addAllValues (idField f a) (idField f b) st).
Proof.
  intros (_ & _ & Pset).
  destruct (addAllValues_effect (idField f a) (idField f b) st)
    as (E1 & E2 & E3 & E4 & E5 & E6 & E7).
  { intros k1 k2 l H1 H2.
    assert (G1 : exists d, d ∈ [a; b] /\ setAt st d (AtId f k1) = Some l).
    { destruct H1; [exists a | exists b];
        (split; [| done]); [apply both_l | apply both_r]. }
    assert (G2 : exists d, d ∈ [a; b] /\ setAt st d (AtId f k2) = Some l).
    { destruct H2; [exists a | exists b];
        (split; [| done]); [apply both_l | apply both_r]. }
    destruct G1 as (d1 & G1 & G1'), G2 as (d2 & G2 & G2').
    by injection (Pset d1 d2 _ _ l G1 G2 G1' G2'). }
  split; try done.
  - intros g Hg%elem_of_one. done.
  - intros n _. by rewrite E5.
  - intros q m Hq%elem_of_one%mapRoot_id Hm. subst q.
    cbn [mapAt] in Hm. injection Hm as <-. by rewrite E1.
  - intros m Hm. apply E2. intros ->.
    by apply (Hm (AtField f)); [apply list_elem_of_singleton |].
  - intros p l [k ->]%elem_of_one%setRoot_id Hl. by apply E3.
  - intros l Hl. apply E4. intros k Hk.
    by apply (Hl (AtId f k)); [apply list_elem_of_singleton |].
Qed.

(** The loop over an alias-keyed member. *)
Lemma phase_ns (a b : ImportDetails) (g : NsField) (st : Store) :
  positional st [a; b] ->
  effect a b [RNs g] st (addAllNsValues (nsField g a) (nsField g b) st).
Proof.
  intros (_ & Pmap & Pset).
  assert (Hwho : forall id m,
             (nsmaps st !!! nsField g a) !! id = Some m
             \/ (nsmaps st !!! nsField g b) !! id = Some m ->
             exists d, d ∈ [a; b] /\ mapAt st d (AtEntry g id) = Some m).
  { intros id m [H|H]; [exists a | exists b];
      (split; [| done]); [apply both_l | apply both_r]. }
  destruct (addAllNsValues_effect (nsField g a) (nsField g b) st)
    as (E1 & E2 & E3 & E4 & E5 & E6 & E7 & E8).
  { intros k1 k2 m H1 H2.
    destruct (Hwho _ _ H1) as (d1 & G1 & G1'), (Hwho _ _ H2) as (d2 & G2 & G2').
    by injection (Pmap d1 d2 _ _ m G1 G2 G1' G2'). }
  { intros id1 ns1 id2 ns2 m1 m2 l H1 H1' H2 H2'.
    destruct (Hwho _ _ H1) as (d1 & G1 & G1'), (Hwho _ _ H2) as (d2 & G2 & G2').
    assert (S1 : setAt st d1 (AtNs g id1 ns1) = Some l)
      by (apply setAt_ns_inv; by exists m1).
    assert (S2 : setAt st d2 (AtNs g id2 ns2) = Some l)
      by (apply setAt_ns_inv; by exists m2).
    by injection (Pset d1 d2 _ _ l G1 G2 S1 S2). }
  split; try done.
  - intros g' Hg%elem_of_one. injection Hg as ->. done.
  - intros n Hn. apply E2. intros ->.
    by apply (Hn g); [apply list_elem_of_singleton |].
  - intros q m [id ->]%elem_of_one%mapRoot_ns Hm. by apply E3.
  - intros m Hm. apply E4. intros id Hid.
    by apply (Hm (AtEntry g id)); [apply list_elem_of_singleton |].
  - intros p l [id [ns ->]]%elem_of_one%setRoot_ns Hl.
    apply setAt_ns_inv in Hl as (m & Hm & Hl).
    rewrite (E5 id ns m l Hm Hl). f_equal. cbn [setAt mapAt].
    by destruct ((nsmaps st !!! nsField g b) !! id).
  - intros l Hl. apply E6. intros id ns m Hm Hl'.
    apply (Hl (AtNs g id ns)); [by apply list_elem_of_singleton |].
    apply setAt_ns_inv. by exists m.
Qed.
(** ** The merge of [ImportDetails]: putting the members together *)

Section Effect.

Variables (a b : ImportDetails) (roots : list Root) (st st1 : Store).
Hypothesis Hpos : positional st [a; b].
Hypothesis Heff : effect a b roots st st1.

(** Below a member that is not concerned, nothing has changed. *)
Lemma keep_nsmap (d : ImportDetails) (g : NsField) :
  d ∈ [a; b] -> RNs g ∉ roots ->
  nsmaps st1 !!! nsField g d = nsmaps st !!! nsField g d.
Proof.
  intros Hd Hg. apply (eff_ns_miss _ _ _ _ _ Heff). intros g' Hg' Heq.
  destruct Hpos as (Pns & _ & _).
  rewrite (Pns a d g' g (both_l a b) Hd Heq) in Hg'. done.
Qed.

Lemma keep_mapAt (d : ImportDetails) (q : MapPath) :
  d ∈ [a; b] -> mapRoot q ∉ roots -> mapAt st1 d q = mapAt st d q.
Proof.
  intros Hd Hq. destruct q as [f | g id]; [done |].
  cbn [mapAt]. by rewrite keep_nsmap.
Qed.

Lemma keep_idmap (d : ImportDetails) (q : MapPath) (m : loc) :
  d ∈ [a; b] -> mapRoot q ∉ roots -> mapAt st d q = Some m ->
  idmaps st1 !!! m = idmaps st !!! m.
Proof.
  intros Hd Hq Hm. apply (eff_map_miss _ _ _ _ _ Heff). intros q' Hq' Hm'.
  destruct Hpos as (_ & Pmap & _).
  rewrite (Pmap a d q' q m (both_l a b) Hd Hm' Hm) in Hq'. done.
Qed.

Lemma keep_setAt (d : ImportDetails) (p : SetPath) :
  d ∈ [a; b] -> setRoot p ∉ roots -> setAt st1 d p = setAt st d p.
Proof.
  intros Hd Hp. destruct p as [| f k | g id ns]; [done | |].
  - cbn [setAt]. by rewrite (keep_idmap d (AtField f) (idField f d)).
  - cbn [setAt]. rewrite keep_nsmap by done.
    destruct ((nsmaps st !!! nsField g d) !! id) as [m|] eqn:Hm; [| done].
    cbn. by rewrite (keep_idmap d (AtEntry g id) m).
Qed.

Lemma keep_set (d : ImportDetails) (p : SetPath) (l : loc) :
  d ∈ [a; b] -> setRoot p ∉ roots -> setAt st d p = Some l ->
  sets st1 !!! l = sets st !!! l.
Proof.
  intros Hd Hp Hl. apply (eff_set_miss _ _ _ _ _ Heff). intros p' Hp' Hl'.
  destruct Hpos as (_ & _ & Pset).
  rewrite (Pset a d p' p l (both_l a b) Hd Hl' Hl) in Hp'. done.
Qed.

(** What a path of [a] or [b] leads to after the merge, the same path of
    [a] or [b] led to before. *)
Lemma mapAt_back (d : ImportDetails) (q : MapPath) (m : loc) :
  d ∈ [a; b] -> mapAt st1 d q = Some m ->
  exists d', d' ∈ [a; b] /\ mapAt st d' q = Some m.
Proof.
  intros Hd Hm. destruct q as [f | g id]; [by exists d |].
  cbn [mapAt] in Hm.
  destruct (decide (RNs g ∈ roots /\ nsField g d = nsField g a))
    as [[Hg Heq] | Hno].
  - rewrite Heq, (eff_ns_hit _ _ _ _ _ Heff g Hg) in Hm.
    apply lookup_union_Some_raw in Hm as [Hm | [_ Hm]].
    + exists a. split; [apply both_l | done].
    + exists b. split; [apply both_r | done].
  - exists d. split; [done |]. cbn [mapAt]. rewrite <- Hm. symmetry.
    f_equal. apply (eff_ns_miss _ _ _ _ _ Heff). intros g' Hg' Heq.
    destruct Hpos as (Pns & _ & _).
    pose proof (Pns a d g' g (both_l a b) Hd Heq) as ->. by apply Hno.
Qed.

Lemma idmap_back (d : ImportDetails) (q : MapPath) (m : loc) (k : string)
    (l : loc) :
  d ∈ [a; b] -> mapAt st d q = Some m -> (idmaps st1 !!! m) !! k = Some l ->
  exists d' m', d' ∈ [a; b] /\ mapAt st d' q = Some m'
                /\ (idmaps st !!! m') !! k = Some l.
Proof.
  intros Hd Hm Hl.
  destruct (decide (mapRoot q ∈ roots /\ mapAt st a q = Some m))
    as [[Hq Ha] | Hno].
  - rewrite (eff_map_hit _ _ _ _ _ Heff q m Hq Ha) in Hl.
    apply lookup_union_Some_raw in Hl as [Hl | [_ Hl]].
    + exists a, m. split; [apply both_l | done].
    + destruct (mapAt st b q) as [m'|] eqn:Hb; [| done].
      exists b, m'. split; [apply both_r | done].
  - exists d, m. split; [done |]. split; [done |]. rewrite <- Hl. symmetry.
    f_equal. apply (eff_map_miss _ _ _ _ _ Heff). intros q' Hq' Hm'.
    destruct Hpos as (_ & Pmap & _).
    pose proof (Pmap a d q' q m (both_l a b) Hd Hm' Hm) as ->. by apply Hno.
Qed.

Lemma setAt_back (d : ImportDetails) (p : SetPath) (l : loc) :
  d ∈ [a; b] -> setAt st1 d p = Some l ->
  exists d', d' ∈ [a; b] /\ setAt st d' p = Some l.
Proof.
  intros Hd Hl. destruct p as [| f k | g id ns]; [by exists d | |].
  - cbn [setAt] in Hl.
    destruct (idmap_back d (AtField f) (idField f d) k l Hd eq_refl Hl)
      as (d' & m' & Hd' & Hm' & Hl').
    cbn [mapAt] in Hm'. injection Hm' as <-. by exists d'.
  - apply setAt_ns_inv in Hl as (m & Hm & Hl).
    destruct (mapAt_back d (AtEntry g id) m Hd Hm) as (d1 & Hd1 & Hm1).
    destruct (idmap_back d1 (AtEntry g id) m ns l Hd1 Hm1 Hl)
      as (d' & m' & Hd' & Hm' & Hl').
    exists d'. split; [done |]. apply setAt_ns_inv. by exists m'.
Qed.

(** The merge keeps every object at its place. *)
Lemma effect_positional : positional st1 [a; b].
Proof.
  destruct Hpos as (Pns & Pmap & Pset). split; [done |]. split.
  - intros d1 d2 q1 q2 m Hd1 Hd2 H1 H2.
    destruct (mapAt_back d1 q1 m Hd1 H1) as (e1 & He1 & G1).
    destruct (mapAt_back d2 q2 m Hd2 H2) as (e2 & He2 & G2).
    exact (Pmap e1 e2 q1 q2 m He1 He2 G1 G2).
  - intros d1 d2 p1 p2 l Hd1 Hd2 H1 H2.
    destruct (setAt_back d1 p1 l Hd1 H1) as (e1 & He1 & G1).
    destruct (setAt_back d2 p2 l Hd2 H2) as (e2 & He2 & G2).
    exact (Pset e1 e2 p1 p2 l He1 He2 G1 G2).
Qed.

(** One more member: the effects of two steps add up. *)
Lemma effect_compose (r : Root) (st2 : Store) :
  r ∉ roots -> effect a b [r] st1 st2 -> effect a b (r :: roots) st st2.
Proof.
  intros Hr Hstep.
  destruct Hpos as (Pns & Pmap & Pset).
  assert (Hin : forall r', r' ∈ r :: roots -> r' = r \/ (r' ∈ roots /\ r' <> r)).
  { intros r' [-> | H]%elem_of_cons; [by left |].
    right. split; [done |]. by intros ->. }
  assert (Hone : forall r', r' ∈ [r] -> r' ∉ roots).
  { by intros r' ->%list_elem_of_singleton. }
  split.
  - by rewrite (eff_details _ _ _ _ _ Hstep), (eff_details _ _ _ _ _ Heff).
  - by rewrite (eff_nodes _ _ _ _ _ Hstep), (eff_nodes _ _ _ _ _ Heff).
  - intros g [Hg | [Hg Hne]]%Hin.
    + rewrite (eff_ns_hit _ _ _ _ _ Hstep g)
        by (rewrite Hg; by apply list_elem_of_singleton).
      rewrite !keep_nsmap; [done | apply both_r | | apply both_l |];
        by rewrite Hg.
    + rewrite (eff_ns_miss _ _ _ _ _ Hstep).
      * by apply (eff_ns_hit _ _ _ _ _ Heff).
      * intros g' Hg'%list_elem_of_singleton Heq. apply Hne.
        by rewrite <- (Pns a a g' g (both_l a b) (both_l a b) Heq).
  - intros n Hn. rewrite (eff_ns_miss _ _ _ _ _ Hstep).
    + apply (eff_ns_miss _ _ _ _ _ Heff). intros g Hg.
      apply Hn, elem_of_cons. by right.
    + intros g Hg%list_elem_of_singleton. apply Hn, elem_of_cons. by left.
  - intros q m [Hq | [Hq Hne]]%Hin Hm.
    + assert (Hq' : mapRoot q ∉ roots) by (by rewrite Hq).
      rewrite (eff_map_hit _ _ _ _ _ Hstep q m);
        [| rewrite Hq; by apply list_elem_of_singleton
         | by rewrite keep_mapAt by (done || apply both_l)].
      rewrite (keep_idmap a q m (both_l a b) Hq' Hm).
      rewrite (keep_mapAt b q (both_r a b) Hq'). f_equal.
      destruct (mapAt st b q) as [m'|] eqn:Hb; [| done]. cbn [idmapOf].
      exact (keep_idmap b q m' (both_r a b) Hq' Hb).
    + rewrite (eff_map_miss _ _ _ _ _ Hstep).
      * by apply (eff_map_hit _ _ _ _ _ Heff).
      * intros q' Hq'%list_elem_of_singleton Hm'.
        assert (Hq'' : mapRoot q' ∉ roots) by (by rewrite Hq').
        rewrite (keep_mapAt a q' (both_l a b) Hq'') in Hm'.
        apply Hne. rewrite <- Hq'.
        by rewrite (Pmap a a q' q m (both_l a b) (both_l a b) Hm' Hm).
  - intros m Hm. rewrite (eff_map_miss _ _ _ _ _ Hstep).
    + apply (eff_map_miss _ _ _ _ _ Heff). intros q Hq.
      apply Hm, elem_of_cons. by right.
    + intros q Hq%list_elem_of_singleton.
      rewrite keep_mapAt by (apply both_l || by rewrite Hq).
      apply Hm, elem_of_cons. by left.
  - intros p l [Hp | [Hp Hne]]%Hin Hl.
    + assert (Hp' : setRoot p ∉ roots) by (by rewrite Hp).
      rewrite (eff_set_hit _ _ _ _ _ Hstep p l);
        [| rewrite Hp; by apply list_elem_of_singleton
         | by rewrite keep_setAt by (done || apply both_l)].
      rewrite (keep_set a p l (both_l a b) Hp' Hl).
      rewrite (keep_setAt b p (both_r a b) Hp'). f_equal.
      destruct (setAt st b p) as [l'|] eqn:Hb; [| done]. cbn [setOf].
      exact (keep_set b p l' (both_r a b) Hp' Hb).
    + rewrite (eff_set_miss _ _ _ _ _ Hstep).
      * by apply (eff_set_hit _ _ _ _ _ Heff).
      * intros p' Hp'%list_elem_of_singleton Hl'.
        assert (Hp'' : setRoot p' ∉ roots) by (by rewrite Hp').
        rewrite (keep_setAt a p' (both_l a b) Hp'') in Hl'.
        apply Hne. rewrite <- Hp'.
        by rewrite (Pset a a p' p l (both_l a b) (both_l a b) Hl' Hl).
  - intros l Hl. rewrite (eff_set_miss _ _ _ _ _ Hstep).
    + apply (eff_set_miss _ _ _ _ _ Heff). intros p Hp.
      apply Hl, elem_of_cons. by right.
    + intros p Hp%list_elem_of_singleton.
      rewrite keep_setAt by (apply both_l || by rewrite Hp).
      apply Hl, elem_of_cons. by left.
Qed.

End Effect.
Lemma allRoots_all (r : Root) : r ∈ allRoots.
Proof.
  unfold allRoots. destruct r as [| [] | []];
    in_list.
Qed.

(** [updateImportDetails], when every object sits at one place: each object
    of the first value receives what the second value holds along the same
    path. *)
Lemma mergeInto_effect (a b : ImportDetails) (st : Store) :
  positional st [a; b] -> effect a b allRoots st (mergeInto a b st).
Proof.
  intros P0. unfold mergeInto, allRoots.
  pose proof (phase_refs a b st) as E1.
  set (st1 := setAddAll (refs a) (refs b) st) in *.
  pose proof (effect_positional a b _ st st1 P0 E1) as P1.
  pose proof (effect_compose a b _ st st1 P0 E1 (RId FImported) _
                ltac:(by apply (bool_decide_unpack _))
                (phase_id a b FImported st1 P1)) as E2.
  cbn [idField] in E2.
  set (st2 := addAllValues (imported a) (imported b) st1) in *.
  pose proof (effect_positional a b _ st st2 P0 E2) as P2.
  pose proof (effect_compose a b _ st st2 P0 E2 (RNs FImportedAs) _
                ltac:(by apply (bool_decide_unpack _))
                (phase_ns a b FImportedAs st2 P2)) as E3.
  cbn [nsField] in E3.
  set (st3 := addAllNsValues (importedAs a) (importedAs b) st2) in *.
  pose proof (effect_positional a b _ st st3 P0 E3) as P3.
  pose proof (effect_compose a b _ st st3 P0 E3 (RId FImportedNs) _
                ltac:(by apply (bool_decide_unpack _))
                (phase_id a b FImportedNs st3 P3)) as E4.
  cbn [idField] in E4.
  set (st4 := addAllValues (importedNs a) (importedNs b) st3) in *.
  pose proof (effect_positional a b _ st st4 P0 E4) as P4.
  pose proof (effect_compose a b _ st st4 P0 E4 (RId FReExported) _
                ltac:(by apply (bool_decide_unpack _))
                (phase_id a b FReExported st4 P4)) as E5.
  cbn [idField] in E5.
  set (st5 := addAllValues (reExported a) (reExported b) st4) in *.
  pose proof (effect_positional a b _ st st5 P0 E5) as P5.
  pose proof (effect_compose a b _ st st5 P0 E5 (RNs FReExportedAs) _
                ltac:(by apply (bool_decide_unpack _))
                (phase_ns a b FReExportedAs st5 P5)) as E6.
  cbn [nsField] in E6.
  set (st6 := addAllNsValues (reExportedAs a) (reExportedAs b) st5) in *.
  pose proof (effect_positional a b _ st st6 P0 E6) as P6.
  exact (effect_compose a b _ st st6 P0 E6 (RId FReExportedNs) _
           ltac:(by apply (bool_decide_unpack _))
           (phase_id a b FReExportedNs st6 P6)).
Qed.

(** ** The merge of [ImportDetails]: the content it leaves *)

(** The content of a map whose entries are those of [X], then those of [Y],
    when each set of [X] has received the set [Y] has for the same key. *)
Lemma merged_idmap_content (st st' : Store) (X Y : gmap string loc) (m : loc) :
  idmaps st' !!! m = X ∪ Y ->
  (forall k l, X !! k = Some l ->
     sets st' !!! l = sets st !!! l ∪ setOf st (Y !! k)) ->
  (forall k l, X !! k = None -> Y !! k = Some l ->
     sets st' !!! l = sets st !!! l) ->
  idmapContent st' m = mergeIdMap (setContent st <$> X) (setContent st <$> Y).
Proof.
  intros Hm Hhit Hmiss. unfold idmapContent, mergeIdMap. rewrite Hm.
  apply map_eq. intros k.
  rewrite lookup_union_with, !lookup_fmap, lookup_union.
  destruct (X !! k) as [l|] eqn:HX, (Y !! k) as [l'|] eqn:HY; cbn;
    unfold setContent.
  - rewrite (Hhit k l HX), HY. done.
  - rewrite (Hhit k l HX), HY. cbn. by rewrite (right_id_L ∅ (∪)).
  - by rewrite (Hmiss k l' HX HY).
  - done.
Qed.

Section Content.

Variables (a b : ImportDetails) (st st1 : Store).
Hypothesis Hpos : positional st [a; b].
Hypothesis Heff : effect a b allRoots st st1.

Lemma content_refs :
  setContent st1 (refs a) = setContent st (refs a) ∪ setContent st (refs b).
Proof.
  unfold setContent.
  exact (eff_set_hit _ _ _ _ _ Heff AtRefs (refs a) (allRoots_all _) eq_refl).
Qed.

(** A set that only [b] holds is as it was. *)
Lemma adopted_set (p : SetPath) (l : loc) :
  setAt st a p = None -> setAt st b p = Some l ->
  sets st1 !!! l = sets st !!! l.
Proof.
  intros Ha Hb. apply (eff_set_miss _ _ _ _ _ Heff). intros p' _ Hl.
  destruct Hpos as (_ & _ & Pset).
  rewrite (Pset a b p' p l (both_l a b) (both_r a b) Hl Hb) in Hl. congruence.
Qed.

Lemma adopted_map (q : MapPath) (m : loc) :
  mapAt st a q = None -> mapAt st b q = Some m ->
  idmaps st1 !!! m = idmaps st !!! m.
Proof.
  intros Ha Hb. apply (eff_map_miss _ _ _ _ _ Heff). intros q' _ Hm.
  destruct Hpos as (_ & Pmap & _).
  rewrite (Pmap a b q' q m (both_l a b) (both_r a b) Hm Hb) in Hm. congruence.
Qed.

Lemma content_id (f : IdField) :
  idmapContent st1 (idField f a)
  = mergeIdMap (idmapContent st (idField f a)) (idmapContent st (idField f b)).
Proof.
  apply merged_idmap_content.
  - exact (eff_map_hit _ _ _ _ _ Heff (AtField f) _ (allRoots_all _) eq_refl).
  - intros k l Hl.
    exact (eff_set_hit _ _ _ _ _ Heff (AtId f k) l (allRoots_all _) Hl).
  - intros k l Ha Hb. exact (adopted_set (AtId f k) l Ha Hb).
Qed.

Lemma content_ns (g : NsField) :
  nsmapContent st1 (nsField g a)
  = mergeNsMap (nsmapContent st (nsField g a)) (nsmapContent st (nsField g b)).
Proof.
  unfold nsmapContent, mergeNsMap.
  rewrite (eff_ns_hit _ _ _ _ _ Heff g (allRoots_all _)).
  apply map_eq. intros id.
  rewrite lookup_union_with, !lookup_fmap, lookup_union.
  destruct ((nsmaps st !!! nsField g a) !! id) as [m|] eqn:Ha.
  - (* an inner map of [a]: it has received the inner map of [b], if any *)
    assert (Hinner : idmapContent st1 m
              = mergeIdMap (idmapContent st m)
                  (setContent st
                     <$> idmapOf st ((nsmaps st !!! nsField g b) !! id))).
    { apply merged_idmap_content.
      - exact (eff_map_hit _ _ _ _ _ Heff (AtEntry g id) m (allRoots_all _) Ha).
      - intros ns l Hl.
        rewrite (eff_set_hit _ _ _ _ _ Heff (AtNs g id ns) l (allRoots_all _))
          by (apply setAt_ns_inv; by exists m).
        f_equal. cbn [setAt].
        by destruct ((nsmaps st !!! nsField g b) !! id).
      - intros ns l Hnone Hl.
        destruct ((nsmaps st !!! nsField g b) !! id) as [m'|] eqn:Hb;
          [| done].
        apply (adopted_set (AtNs g id ns) l).
        + cbn [setAt]. by rewrite Ha.
        + cbn [setAt]. by rewrite Hb. }
    destruct ((nsmaps st !!! nsField g b) !! id) as [m'|] eqn:Hb; cbn.
    + by rewrite Hinner.
    + rewrite Hinner. cbn [idmapOf]. f_equal. unfold mergeIdMap.
      rewrite fmap_empty. apply (right_id_L ∅ (union_with _)).
  - (* an inner map of [b] alone: adopted as it is *)
    destruct ((nsmaps st !!! nsField g b) !! id) as [m'|] eqn:Hb; cbn;
      [| done].
    f_equal. unfold idmapContent.
    rewrite (adopted_map (AtEntry g id) m' Ha Hb).
    apply map_fmap_ext. intros ns l Hl. unfold setContent.
    apply (adopted_set (AtNs g id ns) l).
    + cbn [setAt]. by rewrite Ha.
    + cbn [setAt]. rewrite Hb. done.
Qed.

(** The content of the first value after the merge is the merge of the two
    contents. *)
Lemma effect_content :
  contentOf st1 a = mergeContent (contentOf st a) (contentOf st b).
Proof.
  unfold contentOf, mergeContent.
  cbn [c_refs c_imported c_importedAs c_importedNs c_reExported
       c_reExportedAs c_reExportedNs].
  pose proof content_refs as H0.
  pose proof (content_id FImported) as H1.
  pose proof (content_id FImportedNs) as H2.
  pose proof (content_id FReExported) as H3.
  pose proof (content_id FReExportedNs) as H4.
  pose proof (content_ns FImportedAs) as H5.
  pose proof (content_ns FReExportedAs) as H6.
  cbn [idField nsField] in H1, H2, H3, H4, H5, H6.
  by rewrite H0, H1, H2, H3, H4, H5, H6.
Qed.

End Content.
(** ** The merge of [ImportDetails]: a value that stands apart *)

Section Apart.

Variables (a b z : ImportDetails) (roots : list Root) (st st1 : Store).
Hypothesis Heff : effect a b roots st st1.
Hypothesis Hapart : apart st a z.

Lemma apart_nsmap (g : NsField) :
  nsmaps st1 !!! nsField g z = nsmaps st !!! nsField g z.
Proof.
  apply (eff_ns_miss _ _ _ _ _ Heff). intros g' _.
  destruct Hapart as (Hns & _ & _). apply Hns.
Qed.


Lemma apart_idmap (q : MapPath) (m : loc) :
  mapAt st z q = Some m -> idmaps st1 !!! m = idmaps st !!! m.
Proof.
  intros Hm. apply (eff_map_miss _ _ _ _ _ Heff). intros q' _ Hm'.
  destruct Hapart as (_ & Hmap & _). by apply (Hmap q' q m).
Qed.


Lemma apart_set (p : SetPath) (l : loc) :
  setAt st z p = Some l -> sets st1 !!! l = sets st !!! l.
Proof.
  intros Hl. apply (eff_set_miss _ _ _ _ _ Heff). intros p' _ Hl'.
  destruct Hapart as (_ & _ & Hset). by apply (Hset p' p l).
Qed.

Lemma apart_idmapContent (q : MapPath) (m : loc) :
  mapAt st z q = Some m ->
  (forall k l, (idmaps st !!! m) !! k = Some l ->
     exists p, setAt st z p = Some l) ->
  idmapContent st1 m = idmapContent st m.
Proof.
  intros Hm Hsets. unfold idmapContent. rewrite (apart_idmap q m Hm).
  apply map_fmap_ext. intros k l Hl. unfold setContent.
  destruct (Hsets k l Hl) as [p Hp]. by apply (apart_set p l).
Qed.

(** A value that shares no object with the target of a merge is not
    changed by it. *)
Lemma apart_content : contentOf st1 z = contentOf st z.
Proof.
  assert (Hid : forall f, idmapContent st1 (idField f z)
                          = idmapContent st (idField f z)).
  { intros f. apply (apart_idmapContent (AtField f)); [done |].
    intros k l Hl. by exists (AtId f k). }
  assert (Hns : forall g, nsmapContent st1 (nsField g z)
                          = nsmapContent st (nsField g z)).
  { intros g. unfold nsmapContent. rewrite apart_nsmap.
    apply map_fmap_ext. intros id m Hm.
    apply (apart_idmapContent (AtEntry g id)); [done |].
    intros ns l Hl. exists (AtNs g id ns). apply setAt_ns_inv. by exists m. }
  unfold contentOf.
  pose proof (Hid FImported) as H1. pose proof (Hid FImportedNs) as H2.
  pose proof (Hid FReExported) as H3. pose proof (Hid FReExportedNs) as H4.
  pose proof (Hns FImportedAs) as H5. pose proof (Hns FReExportedAs) as H6.
  cbn [idField nsField] in H1, H2, H3, H4, H5, H6.
  rewrite H1, H2, H3, H4, H5, H6. f_equal. unfold setContent.
  by apply (apart_set AtRefs).
Qed.

Hypothesis Hpos : positional st [a; b].
Hypothesis Hposz : positional st [z].
Hypothesis Hapart' : apart st b z.


End Apart.


(** ** Separate values *)

Lemma nsField_object (g : NsField) (d : ImportDetails) :
  (g, nsField g d) ∈ nsObjects d.
Proof.
  unfold nsObjects. destruct g;
    in_list.
Qed.

Lemma idFields_all (f : IdField) : f ∈ idFields.
Proof.
  unfold idFields. destruct f;
    in_list.
Qed.

Lemma nsFields_all (g : NsField) : g ∈ nsFields.
Proof.
  unfold nsFields. destruct g;
    in_list.
Qed.

Lemma mapAt_object (st : Store) (d : ImportDetails) (q : MapPath) (m : loc) :
  mapAt st d q = Some m -> (q, m) ∈ mapObjects st d.
Proof.
  intros Hm. unfold mapObjects. apply elem_of_app.
  destruct q as [f | g id]; cbn [mapAt] in Hm.
  - left. injection Hm as <-. apply list_elem_of_fmap.
    exists f. split; [done | apply idFields_all].
  - right. apply list_elem_of_bind. exists g. split; [| apply nsFields_all].
    apply list_elem_of_fmap. exists (id, m). split; [done |].
    by apply elem_of_map_to_list.
Qed.

Lemma setAt_object (st : Store) (d : ImportDetails) (p : SetPath) (l : loc) :
  setAt st d p = Some l -> (p, l) ∈ setObjects st d.
Proof.
  intros Hl. unfold setObjects. destruct p as [| f k | g id ns].
  - cbn [setAt] in Hl. injection Hl as <-. apply list_elem_of_here.
  - apply list_elem_of_further, elem_of_app. left.
    apply list_elem_of_bind. exists f. split; [| apply idFields_all].
    apply list_elem_of_fmap. exists (k, l). split; [done |].
    by apply elem_of_map_to_list.
  - apply setAt_ns_inv in Hl as (m & Hm & Hl).
    apply list_elem_of_further, elem_of_app. right.
    apply list_elem_of_bind. exists g. split; [| apply nsFields_all].
    apply list_elem_of_bind. exists (id, m).
    split; [| by apply elem_of_map_to_list].
    apply list_elem_of_fmap. exists (ns, l). split; [done |].
    by apply elem_of_map_to_list.
Qed.

(** In a list without two entries for one object, an object has one path. *)
Lemma one_path {P : Type} (xs : list (P * loc)) (p1 p2 : P) (l : loc) :
  NoDup xs.*2 -> (p1, l) ∈ xs -> (p2, l) ∈ xs -> p1 = p2.
Proof.
  induction xs as [|[p l'] xs IH]; intros Hnd H1 H2.
  { by apply elem_of_nil in H1. }
  rewrite fmap_cons in Hnd. apply NoDup_cons in Hnd as [Hl' Hnd].
  cbn [snd] in Hl'.
  assert (Hin : forall p0, (p0, l) ∈ xs -> l ∈ xs.*2).
  { intros p0 H. apply list_elem_of_fmap. by exists (p0, l). }
  apply elem_of_cons in H1 as [H1 | H1], H2 as [H2 | H2].
  - congruence.
  - injection H1 as -> ->. destruct Hl'. by apply (Hin p2).
  - injection H2 as -> ->. destruct Hl'. by apply (Hin p1).
  - by apply IH.
Qed.

Lemma no_common {P : Type} (xs ys : list (P * loc)) (p1 p2 : P) (l : loc) :
  NoDup (xs ++ ys).*2 -> (p1, l) ∈ xs -> (p2, l) ∈ ys -> False.
Proof.
  rewrite fmap_app. intros (_ & Hno & _)%NoDup_app H1 H2.
  apply (Hno l); apply list_elem_of_fmap; [by exists (p1, l) | by exists (p2, l)].
Qed.

(** Separate values hold every object at one place. *)
Lemma separate_positional (st : Store) (ds : list ImportDetails) :
  separate st ds -> positional st ds.
Proof.
  intros (Hns & Hmap & Hset). split; [| split].
  - intros d1 d2 g1 g2 H1 H2 Heq.
    apply (one_path (ds ≫= nsObjects) g1 g2 (nsField g1 d1) Hns).
    + apply list_elem_of_bind. exists d1. split; [apply nsField_object | done].
    + rewrite Heq. apply list_elem_of_bind. exists d2.
      split; [apply nsField_object | done].
  - intros d1 d2 q1 q2 m H1 H2 G1 G2.
    apply (one_path (ds ≫= mapObjects st) q1 q2 m Hmap).
    + apply list_elem_of_bind. exists d1. split; [by apply mapAt_object | done].
    + apply list_elem_of_bind. exists d2. split; [by apply mapAt_object | done].
  - intros d1 d2 p1 p2 l H1 H2 G1 G2.
    apply (one_path (ds ≫= setObjects st) p1 p2 l Hset).
    + apply list_elem_of_bind. exists d1. split; [by apply setAt_object | done].
    + apply list_elem_of_bind. exists d2. split; [by apply setAt_object | done].
Qed.


(** The first of several separate values has no object in common with any
    of the others. *)
Lemma separate_head_apart (st : Store) (x y : ImportDetails)
    (ds : list ImportDetails) :
  separate st (x :: ds) -> y ∈ ds -> apart st x y.
Proof.
  unfold separate. rewrite !bind_cons.
  intros (Hns & Hmap & Hset) Hy. split; [| split].
  - intros g1 g2 Heq.
    apply (no_common _ _ g1 g2 (nsField g1 x) Hns); [apply nsField_object |].
    rewrite Heq. apply list_elem_of_bind. exists y.
    split; [apply nsField_object | done].
  - intros q1 q2 m G1 G2.
    apply (no_common _ _ q1 q2 m Hmap); [by apply mapAt_object |].
    apply list_elem_of_bind. exists y. split; [by apply mapAt_object | done].
  - intros p1 p2 l G1 G2.
    apply (no_common _ _ p1 p2 l Hset); [by apply setAt_object |].
    apply list_elem_of_bind. exists y. split; [by apply setAt_object | done].
Qed.

(** ** The union laws of the merge, on contents *)

Lemma mergeIdMap_comm (x y : gmap string (gset string)) :
  mergeIdMap x y = mergeIdMap y x.
Proof.
  unfold mergeIdMap. apply union_with_comm. intros k s t _ _.
  by rewrite (comm_L (∪)).
Qed.



Lemma mergeNsMap_comm (x y : gmap string (gmap string (gset string))) :
  mergeNsMap x y = mergeNsMap y x.
Proof.
  unfold mergeNsMap. apply union_with_comm. intros k s t _ _.
  by rewrite mergeIdMap_comm.
Qed.



Lemma mergeContent_comm (x y : DetailsContent) :
  mergeContent x y = mergeContent y x.
Proof.
  unfold mergeContent. f_equal;
    first [ apply (comm_L (∪)) | apply mergeIdMap_comm | apply mergeNsMap_comm ].
Qed.






(** ** Merging a value into itself *)













(** ** The union laws of the merge, on the store *)

(** Merging in place computes the merge of the contents. *)
Lemma merge_refines (st : Store) (a b : loc) :
  positional st [details st !!! a; details st !!! b] ->
  detailsContent (updateImportDetails a b st) a
  = mergeContent (detailsContent st a) (detailsContent st b).
Proof.
  intros P. rewrite updateImportDetails_mergeInto.
  pose proof (mergeInto_effect _ _ st P) as E.
  unfold detailsContent. rewrite (eff_details _ _ _ _ _ E).
  by apply effect_content.
Qed.


(** * Further properties of glob-core.ts *)

(** ** Pattern normalisation *)

Lemma convert_plain (p : string) :
  Js.first_is p "!" = false ->
  Js.endsWith p "/" = false ->
  convertGitignoreToPicomatchIgnorePatterns p
  = mkRule false [anchorPattern p; extendPattern (anchorPattern p)].
Proof. intros Hb Hs. rewrite convert_unfold, Hb. cbv zeta. by rewrite Hs. Qed.

(** X1. A leading [!] only sets the flag: the negated pattern [!p] is
    normalised to the patterns that [p] is normalised to, with [negated]
    set, and [p] itself, which starts with no [!], gives a rule that is not
    negated. *)
Theorem negation_flips_flag (p : string) :
  Js.first_is p "!" = false ->
  convertGitignoreToPicomatchIgnorePatterns ("!" +:+ p)
  = mkRule true (patterns (convertGitignoreToPicomatchIgnorePatterns p))
  /\ negated (convertGitignoreToPicomatchIgnorePatterns p) = false.
Proof.
  intros Hb. rewrite !convert_unfold, Hb.
  change ("!" +:+ p) with (String "!" p).
  cbn [Js.first_is Ascii.eqb Bool.eqb Js.slice_from]. done.
Qed.

Lemma negation_flips_flag_witness :
  Js.first_is "/dist/" "!" = false
  /\ convertGitignoreToPicomatchIgnorePatterns "!/dist/"
     = mkRule true ["dist"; "dist/**"].
Proof.
  split; [reflexivity |].
  exact (proj1 (negation_flips_flag "/dist/" eq_refl)).
Defined.

Lemma endsWith_prefixed (pre p s : string) :
  p <> "" -> String.length s = 1%nat ->
  Js.endsWith (pre +:+ p) s = Js.endsWith p s.
Proof.
  intros Hne Hs. induction pre as [|c pre IH]; [done |].
  rewrite append_cons.
  destruct s as [|e [|? ?]]; try done.
  destruct (pre +:+ p) as [|d r] eqn:Hr.
  - destruct pre; [simpl in Hr; done | done].
  - by rewrite endsWith_cons.
Qed.

(** X2. An unanchored pattern has three spellings, [p], [**/p] and [*/**/p],
    and they are normalised to one and the same rule. *)
Theorem unanchored_spellings (p : string) :
  p <> "" ->
  Js.first_is p "!" = false ->
  Js.endsWith p "/" = false ->
  Js.startsWith p "*/**/" = false ->
  Js.startsWith p "/" = false ->
  Js.startsWith p "**/" = false ->
  convertGitignoreToPicomatchIgnorePatterns ("**/" +:+ p)
    = convertGitignoreToPicomatchIgnorePatterns p
  /\ convertGitignoreToPicomatchIgnorePatterns ("*/**/" +:+ p)
    = convertGitignoreToPicomatchIgnorePatterns p
  /\ convertGitignoreToPicomatchIgnorePatterns p
    = mkRule false ["**/" +:+ p; extendPattern ("**/" +:+ p)].
Proof.
  intros Hne Hb Hs H1 H2 H3.
  assert (Hp : convertGitignoreToPicomatchIgnorePatterns p
               = mkRule false ["**/" +:+ p; extendPattern ("**/" +:+ p)]).
  { rewrite (convert_plain p Hb Hs). unfold anchorPattern.
    by rewrite H1, H2, H3. }
  split; [| split; [| exact Hp]]; rewrite Hp.
  - rewrite convert_plain; [| done | by rewrite endsWith_prefixed].
    unfold anchorPattern. by destruct p.
  - rewrite convert_plain; [| done | by rewrite endsWith_prefixed].
    unfold anchorPattern.
    replace (Js.startsWith ("*/**/" +:+ p) "*/**/") with true
      by (by destruct p).
    change (Js.slice_from 5 ("*/**/" +:+ p)) with p.
    by rewrite H2, H3.
Qed.

Lemma unanchored_spellings_witness :
  convertGitignoreToPicomatchIgnorePatterns "**/dist"
    = convertGitignoreToPicomatchIgnorePatterns "dist"
  /\ convertGitignoreToPicomatchIgnorePatterns "*/**/dist"
    = convertGitignoreToPicomatchIgnorePatterns "dist"
  /\ convertGitignoreToPicomatchIgnorePatterns "dist"
    = mkRule false ["**/dist"; "**/dist/**"].
Proof.
  apply (unanchored_spellings "dist"); [discriminate | reflexivity ..].
Defined.

(** ** Parsing an ignore file *)

Lemma convert_two_patterns (p : string) :
  exists q e,
    patterns (convertGitignoreToPicomatchIgnorePatterns p) = [q; e]
    /\ (e = q \/ e = q +:+ "/**")
    /\ (Js.endsWith e "/*" = true \/ Js.endsWith e "/**" = true).
Proof.
  rewrite convert_unfold. cbv zeta. eexists _, _. split; [reflexivity |].
  unfold extendPattern.
  destruct (Js.endsWith (anchorPattern _) "/*") eqn:He.
  - split; [by left | by left].
  - split; [by right | right; apply endsWith_append].
Qed.

(** X3. Every rule that parsing an ignore file gives holds exactly two patterns:
    a pattern, and an extended pattern that is the pattern itself or the
    pattern followed by [/**], and that ends in [/*] or in [/**]. *)
Theorem parsed_rules_have_two_patterns
    (compileFrom : string -> option (string -> option string))
    (readFileSync : string -> option string) (filePath : string)
    (from : option string) (rules : list Rule) (rule : Rule) :
  parseGitignoreFile compileFrom readFileSync filePath from = Some rules ->
  rule ∈ rules ->
  exists pattern extraPattern,
    patterns rule = [pattern; extraPattern]
    /\ (extraPattern = pattern \/ extraPattern = pattern +:+ "/**")
    /\ (Js.endsWith extraPattern "/*" = true
        \/ Js.endsWith extraPattern "/**" = true).
Proof.
  unfold parseGitignoreFile, parseGitignoreText. intros Hparse Hin.
  destruct (readFileSync filePath) as [file|]; [| done]. cbn in Hparse.
  destruct (makeMatchFrom compileFrom from) as [matchFrom|]; [| done].
  cbn in Hparse. injection Hparse as <-.
  apply list_elem_of_fmap in Hin as (p & -> & _).
  apply convert_two_patterns.
Qed.

Lemma parsed_rules_have_two_patterns_witness :
  exists pattern extraPattern,
    patterns (mkRule false ["**/a/*"; "**/a/*"]) = [pattern; extraPattern]
    /\ (extraPattern = pattern \/ extraPattern = pattern +:+ "/**")
    /\ (Js.endsWith extraPattern "/*" = true
        \/ Js.endsWith extraPattern "/**" = true).
Proof.
  apply (parsed_rules_have_two_patterns literalFrom
           (fun _ => Some ("a/*" +:+ String "010" "!b"))
           ".gitignore" None
           [mkRule false ["**/a/*"; "**/a/*"];
            mkRule true ["**/b"; "**/b/**"]]).
  - reflexivity.
  - in_list.
Defined.

(** X4. [parseGitignoreFile] throws in two cases only: the file cannot be read,
    or [from] is a non-empty string from which no regular expression can be
    built. Without [from], and with the empty [from], every file that can be
    read is parsed. *)
Theorem parse_failure (compileFrom : string -> option (string -> option string))
    (readFileSync : string -> option string) (filePath : string)
    (from : option string) :
  parseGitignoreFile compileFrom readFileSync filePath from = None
  <-> readFileSync filePath = None
      \/ exists f, from = Some f /\ f <> "" /\ compileFrom f = None.
Proof.
  unfold parseGitignoreFile, parseGitignoreText, makeMatchFrom.
  destruct (readFileSync filePath) as [file|]; cbn.
  - destruct from as [f|]; cbn.
    + destruct f as [|c f]; cbn.
      * split; [done |]. intros [? | (f & [= <-] & ? & _)]; done.
      * destruct (compileFrom (String c f)) eqn:Hc; cbn.
        -- split; [done |].
           intros [? | (f' & [= <-] & _ & Hn)]; [done |]. congruence.
        -- split; [| done]. intros _. right. by exists (String c f).
    + split; [done |]. intros [? | (f & ? & _)]; done.
  - split; [by left | done].
Qed.

(** A string is one line when splitting leaves it whole. *)
Lemma one_line_cons (c : ascii) (l : string) :
  splitLines (String c l) = [String c l] ->
  Ascii.eqb c "010" = false /\ splitLines l = [l]
  /\ splitLines (String c l) = push_char c (splitLines l).
Proof.
  simpl. destruct (Ascii.eqb c "010") eqn:Hc.
  { destruct l; simpl; [done |]. intros [= ?]. }
  assert (Hpush : forall xs, push_char c xs = [String c l] -> xs <> [] ->
                    xs = [l]).
  { intros [|x xs]; [done |]. simpl. by intros [= -> ->]. }
  assert (Hne : forall s, splitLines s <> []).
  { intros [|d s]; [done |]. simpl.
    destruct (Ascii.eqb d "010"); [done |].
    destruct s as [|d2 s]; [done |].
    destruct (Ascii.eqb d "013" && Ascii.eqb d2 "010"); [done |].
    by destruct (splitLines (String d2 s)). }
  destruct l as [|c2 l]; [done |].
  destruct (Ascii.eqb c "013" && Ascii.eqb c2 "010") eqn:Hcr.
  { intros [= ?]. }
  intros H. split; [done |]. split; [| done].
  apply Hpush; [exact H | apply Hne].
Qed.

Lemma splitLines_crlf (l rest : string) :
  splitLines l = [l] ->
  splitLines (l +:+ String "013" (String "010" rest)) = l :: splitLines rest.
Proof.
  induction l as [|c l IH]; [done |].
  intros (Hc & Hl & _)%one_line_cons. specialize (IH Hl).
  rewrite append_cons.
  change (splitLines (String c ?s))
    with (if Ascii.eqb c "010" then EmptyString :: splitLines s
          else match s with
               | String c2 s'' =>
                   if Ascii.eqb c "013" && Ascii.eqb c2 "010"
                   then EmptyString :: splitLines s''
                   else push_char c (splitLines s)
               | EmptyString => push_char c (splitLines s)
               end).
  rewrite Hc.
  destruct l as [|c2 l].
  - rewrite append_empty_l.
    destruct (Ascii.eqb c "013" && Ascii.eqb "013" "010") eqn:E;
      [by rewrite andb_false_r in E |].
    rewrite append_empty_l in IH. by rewrite IH.
  - rewrite append_cons in *.
    destruct (Ascii.eqb c "013" && Ascii.eqb c2 "010") eqn:E.
    + apply andb_prop in E as [_ E].
      apply one_line_cons in Hl as (Hc2 & _). congruence.
    + by rewrite IH.
Qed.

Lemma splitLines_lf (l rest : string) :
  splitLines l = [l] ->
  Js.endsWith l (String "013" "") = false ->
  splitLines (l +:+ String "010" rest) = l :: splitLines rest.
Proof.
  induction l as [|c l IH]; [done |].
  intros (Hc & Hl & _)%one_line_cons Hend.
  rewrite append_cons.
  change (splitLines (String c ?s))
    with (if Ascii.eqb c "010" then EmptyString :: splitLines s
          else match s with
               | String c2 s'' =>
                   if Ascii.eqb c "013" && Ascii.eqb c2 "010"
                   then EmptyString :: splitLines s''
                   else push_char c (splitLines s)
               | EmptyString => push_char c (splitLines s)
               end).
  rewrite Hc.
  destruct l as [|c2 l].
  - rewrite append_empty_l.
    assert (Ascii.eqb c "013" = false) as ->.
    { unfold Js.endsWith in Hend. simpl in Hend.
      destruct (Ascii.eqb_spec c "013") as [-> |]; done. }
    simpl. done.
  - rewrite endsWith_cons in Hend. specialize (IH Hl Hend).
    rewrite append_cons in *.
    destruct (Ascii.eqb c "013" && Ascii.eqb c2 "010") eqn:E.
    + apply andb_prop in E as [_ E].
      apply one_line_cons in Hl as (Hc2 & _). congruence.
    + by rewrite IH.
Qed.

Lemma splitLines_concat (sep : string) (ls : list string) :
  (forall l rest,
      l ∈ ls -> splitLines (l +:+ sep +:+ rest) = l :: splitLines rest) ->
  Forall (fun l => splitLines l = [l]) ls ->
  ls <> [] ->
  splitLines (String.concat sep ls) = ls.
Proof.
  intros Hsep Hls Hne. induction ls as [|l ls IH]; [done |].
  apply Forall_cons in Hls as [Hl Hls].
  destruct ls as [|l2 ls]; [done |].
  change (String.concat sep (l :: l2 :: ls))
    with (l +:+ sep +:+ String.concat sep (l2 :: ls)).
  rewrite Hsep by left. f_equal. apply IH; [| done | done].
  intros l' rest Hin. apply Hsep. by right.
Qed.

Lemma splitLines_whole (l : string) :
  "010"%char ∉ list_ascii_of_string l -> splitLines l = [l].
Proof.
  induction l as [|c l IH]; [done |].
  cbn [list_ascii_of_string]. intros [Hc Hl]%not_elem_of_cons.
  specialize (IH Hl).
  assert (Ascii.eqb c "010" = false) as Hc'.
  { destruct (Ascii.eqb_spec c "010"); congruence. }
  destruct l as [|c2 l].
  - cbn [splitLines]. by rewrite Hc'.
  - cbn [list_ascii_of_string] in Hl. apply not_elem_of_cons in Hl as [Hc2 _].
    assert (Ascii.eqb c2 "010" = false) as Hc2'.
    { destruct (Ascii.eqb_spec c2 "010"); congruence. }
    change (splitLines (String c (String c2 l)))
      with (if Ascii.eqb c "010"
            then EmptyString :: splitLines (String c2 l)
            else if Ascii.eqb c "013" && Ascii.eqb c2 "010"
                 then EmptyString :: splitLines l
                 else push_char c (splitLines (String c2 l))).
    by rewrite Hc', Hc2', andb_false_r, IH.
Qed.

(** X5. Splitting undoes joining: lines that hold no line feed, joined by CR
    LF, are split into these very lines; joined by LF alone they are too,
    provided that no line ends in a carriage return. Hence an ignore file is
    parsed to the same rules with either line ending. *)
Theorem split_undoes_join (compileFrom : string -> option (string -> option string))
    (from : option string) (lines : list string) :
  lines <> [] ->
  Forall (fun l => "010"%char ∉ list_ascii_of_string l) lines ->
  splitLines (String.concat (String "013" (String "010" "")) lines) = lines
  /\ (Forall (fun l => Js.endsWith l (String "013" "") = false) lines ->
      splitLines (String.concat (String "010" "") lines) = lines
      /\ parseGitignoreText compileFrom
           (String.concat (String "013" (String "010" "")) lines) from
         = parseGitignoreText compileFrom
             (String.concat (String "010" "") lines) from).
Proof.
  intros Hne Hlf0.
  assert (Hls : Forall (fun l => splitLines l = [l]) lines).
  { eapply Forall_impl; [exact Hlf0 |]. intros l. apply splitLines_whole. }
  assert (Hcrlf : splitLines
                    (String.concat (String "013" (String "010" "")) lines)
                  = lines).
  { apply splitLines_concat; [| done | done].
    intros l rest Hin. rewrite Forall_forall in Hls.
    apply (splitLines_crlf l rest). by apply Hls. }
  split; [exact Hcrlf |]. intros Hcr.
  assert (Hlf : splitLines (String.concat (String "010" "") lines) = lines).
  { apply splitLines_concat; [| done | done].
    intros l rest Hin. rewrite Forall_forall in Hls, Hcr.
    apply (splitLines_lf l rest); [by apply Hls | by apply Hcr]. }
  split; [exact Hlf |].
  unfold parseGitignoreText. by rewrite Hcrlf, Hlf.
Qed.

Lemma split_undoes_join_witness :
  splitLines
    (String.concat (String "013" (String "010" "")) ["dist"; ""; "!keep # x"])
  = ["dist"; ""; "!keep # x"].
Proof.
  refine (proj1 (split_undoes_join literalFrom None ["dist"; ""; "!keep # x"]
                   _ _)).
  - discriminate.
  - repeat (apply Forall_cons; split;
            [apply (bool_decide_unpack _); vm_compute; reflexivity |]).
    apply Forall_nil_2.
Defined.


Lemma startsWith_first (p q : string) (c : ascii) :
  Js.first_is p c = false -> Js.startsWith p (String c q) = false.
Proof.
  unfold Js.startsWith. destruct p as [|d p]; [done |]. simpl.
  destruct (ascii_dec c d) as [-> |]; [| done]. by rewrite Ascii.eqb_refl.
Qed.





(** ** The file enumerator *)

Section GlobbyProperties.

Variable dirname : string -> string.
Variable relative : string -> string -> string.
Variable ROOT_WORKSPACE_NAME : string.
Variable fg_glob : Patterns -> FastGlobOptions -> list string.

Lemma dirsBelow_succ (n : nat) (dir : string) :
  dirsBelow dirname (S n) dir = dir :: dirsBelow dirname n (dirname dir).
Proof.
  unfold dirsBelow. cbn [seq map Nat.iter]. f_equal.
  rewrite <- seq_shift, map_map. apply map_ext. intros k.
  apply Nat.iter_succ_r.
Qed.

Lemma ancestorIgnores_reaches (cache : gmap string Gitignores) (cwd : string)
    (n : nat) :
  forall (dir : string) (ignore : list string) (fuel : nat),
    Nat.iter n dirname dir = cwd ->
    (forall j, (j < n)%nat -> Nat.iter j dirname dir <> cwd) ->
    (n <= fuel)%nat ->
    ancestorIgnores dirname fuel cache cwd dir ignore
    = Some (ignore ++ flat_map (dirPatterns cache) (dirsBelow dirname n dir)).
Proof.
  induction n as [|n IH]; intros dir ignore fuel Hn Hmin Hfuel.
  - simpl in Hn. subst cwd.
    destruct fuel; simpl; rewrite String.eqb_refl, app_nil_r; done.
  - destruct fuel as [|fuel]; [lia |].
    assert (Hdir : String.eqb dir cwd = false).
    { apply String.eqb_neq. apply (Hmin 0%nat). lia. }
    cbn [ancestorIgnores]. rewrite Hdir.
    rewrite (IH (dirname dir)).
    + rewrite dirsBelow_succ. cbn [flat_map]. unfold dirPatterns at 2.
      destruct (cache !! dir); simpl; by rewrite <- ?app_assoc.
    + by rewrite Nat.iter_succ_r in Hn.
    + intros j Hj. rewrite <- Nat.iter_succ_r. apply Hmin. lia.
    + lia.
Qed.

Lemma ancestorIgnores_never (cache : gmap string Gitignores) (cwd : string)
    (fuel : nat) :
  forall (dir : string) (ignore : list string),
    (forall j, (j <= fuel)%nat -> Nat.iter j dirname dir <> cwd) ->
    ancestorIgnores dirname fuel cache cwd dir ignore = None.
Proof.
  induction fuel as [|fuel IH]; intros dir ignore Hnever.
  - simpl. assert (String.eqb dir cwd = false) as ->; [| done].
    apply String.eqb_neq. apply (Hnever 0%nat). lia.
  - cbn [ancestorIgnores].
    assert (String.eqb dir cwd = false) as ->.
    { apply String.eqb_neq. apply (Hnever 0%nat). lia. }
    apply IH. intros j Hj. rewrite <- Nat.iter_succ_r. apply Hnever. lia.
Qed.

Lemma ancestorIgnores_none (cache : gmap string Gitignores) (cwd : string)
    (fuel : nat) :
  forall (dir : string) (ignore : list string),
    ancestorIgnores dirname fuel cache cwd dir ignore = None ->
    forall j, (j <= fuel)%nat -> Nat.iter j dirname dir <> cwd.
Proof.
  induction fuel as [|fuel IH]; intros dir ignore.
  - simpl. destruct (String.eqb_spec dir cwd) as [-> |]; [done |].
    intros _ j Hj. by replace j with 0%nat by lia.
  - cbn [ancestorIgnores]. destruct (String.eqb_spec dir cwd) as [-> |]; [done |].
    intros Hloop [|j] Hj; [done |].
    rewrite Nat.iter_succ_r. apply (IH _ _ Hloop). lia.
Qed.

(** X7. With [gitignore] off, [globby] needs no bound and reads no cache: the
    glob engine is called with an empty [ignore] list, whatever the [ignore]
    option of the caller holds, and its answer is the result. *)
Theorem globby_without_gitignore (fuel : nat) (patterns : Patterns)
    (options : GlobOptions) (s : Session) :
  isEmptyArray patterns = false ->
  gitignore options = false ->
  globby dirname relative ROOT_WORKSPACE_NAME fg_glob fuel patterns options s
  = Some (fg_glob patterns (fastGlobOptionsOf options []),
          globbed relative ROOT_WORKSPACE_NAME patterns options [] s).
Proof.
  intros Hne Hoff. unfold globby, globbed, fastGlobOptionsOf.
  rewrite Hne, Hoff. reflexivity.
Qed.

(** X8. With [gitignore] on, [globby] walks from [dir] up to [cwd]. When [cwd] is
    [n] levels above [dir], [n] iterations are enough, and the glob engine is
    called with the caller's [ignore] list, followed by the patterns cached
    for [dir], for its parent and so on up to the directory just below
    [cwd], and at last by the ignore patterns cached for [cwd]: the unignore
    patterns of [cwd] are not passed on. The cache is left as it was. *)
Theorem globby_ignore_list (fuel n : nat) (patterns : Patterns)
    (options : GlobOptions) (s : Session) :
  isEmptyArray patterns = false ->
  gitignore options = true ->
  Nat.iter n dirname (dir options) = cwd options ->
  (forall j, (j < n)%nat -> Nat.iter j dirname (dir options) <> cwd options) ->
  (n <= fuel)%nat ->
  let passed :=
    default [] (ignore options)
    ++ flat_map (dirPatterns (cachedIgnores s))
         (dirsBelow dirname n (dir options))
    ++ cwdPatterns (cachedIgnores s) (cwd options) in
  globby dirname relative ROOT_WORKSPACE_NAME fg_glob fuel patterns options s
  = Some (fg_glob patterns (fastGlobOptionsOf options passed),
          globbed relative ROOT_WORKSPACE_NAME patterns options passed s)
  /\ cachedIgnores
       (globbed relative ROOT_WORKSPACE_NAME patterns options passed s)
     = cachedIgnores s.
Proof.
  intros Hne Hon Hn Hmin Hfuel passed. split; [| done].
  unfold globby, globbed, fastGlobOptionsOf. rewrite Hne, Hon.
  rewrite (ancestorIgnores_reaches _ _ n) by done. cbn.
  unfold cwdPatterns in passed.
  replace (match cachedIgnores s !! cwd options with
           | Some i => _ | None => _ end) with passed; [done |].
  unfold passed.
  destruct (ignore options), (cachedIgnores s !! cwd options); simpl;
    by rewrite ?app_nil_r, ?app_assoc.
Qed.

(** X9. [globby] does not come back when [dir] is not [cwd] or a directory below
    it: with [gitignore] on and patterns to look for, the loop ends within
    [fuel] iterations exactly when [cwd] is among [dir] and the first [fuel]
    directories above it. *)
Theorem globby_loop_ends (fuel : nat) (patterns : Patterns)
    (options : GlobOptions) (s : Session) :
  isEmptyArray patterns = false ->
  gitignore options = true ->
  globby dirname relative ROOT_WORKSPACE_NAME fg_glob fuel patterns options s
    = None
  <-> forall j, (j <= fuel)%nat ->
        Nat.iter j dirname (dir options) <> cwd options.
Proof.
  intros Hne Hon. unfold globby. rewrite Hne, Hon. split.
  - destruct (ancestorIgnores _ _ _ _ _ _) as [r|] eqn:Hloop; [done |].
    intros _. by apply (ancestorIgnores_none _ _ _ _ _ Hloop).
  - intros Hnever. by rewrite ancestorIgnores_never.
Qed.

End GlobbyProperties.

Lemma globby_without_gitignore_witness :
  let options := mkGlobOptions false "/r" "/r/sub" None (Some ["x"]) None None in
  let s := mkSession {[ "/r" := mkGitignores ["**/dist"] [] ]} [] in
  globby (fun d => d) sample_relative "." (fun _ _ => ["a.ts"]) 0
    (OnePattern "*.ts") options s
  = Some (["a.ts"],
          globbed sample_relative "." (OnePattern "*.ts") options [] s).
Proof.
  intros options s.
  apply (globby_without_gitignore (fun d => d) sample_relative "."
           (fun _ _ => ["a.ts"]) 0 (OnePattern "*.ts") options s);
    reflexivity.
Defined.

Lemma globby_ignore_list_witness :
  let options := mkGlobOptions true "/" "/a" None (Some ["x"]) None None in
  let s :=
    mkSession {[ "/a" := mkGitignores ["a/**/tmp"] ["a/keep"];
                 "/" := mkGitignores ["**/dist"] ["**/dist/keep"] ]} [] in
  globby (Js.slice_to 1) sample_relative "." (fun _ _ => ["a.ts"]) 1
    (OnePattern "*.ts") options s
  = Some (["a.ts"],
          globbed sample_relative "." (OnePattern "*.ts") options
            ["x"; "a/**/tmp"; "!a/keep"; "**/dist"] s).
Proof.
  intros options s.
  refine (proj1 (globby_ignore_list (Js.slice_to 1) sample_relative "."
                   (fun _ _ => ["a.ts"]) 1 1 (OnePattern "*.ts") options s
                   _ _ _ _ _)).
  - reflexivity.
  - reflexivity.
  - reflexivity.
  - intros j Hj. replace j with 0%nat by lia. discriminate.
  - lia.
Defined.

Lemma globby_loop_ends_witness :
  globby (fun d => d) sample_relative "." (fun _ _ => ["a.ts"]) 5
    (OnePattern "*.ts")
    (mkGlobOptions true "/r" "/other" None None None None) (mkSession ∅ [])
  = None.
Proof.
  refine (proj2 (globby_loop_ends (fun d => d) sample_relative "."
                   (fun _ _ => ["a.ts"]) 5 (OnePattern "*.ts")
                   (mkGlobOptions true "/r" "/other" None None None None)
                   (mkSession ∅ []) _ _) _).
  - reflexivity.
  - reflexivity.
  - intros j _. induction j as [|j IH]; [discriminate | exact IH].
Defined.

(** ** Finding the ignore files *)

Lemma JsSet_add_prefix (x : string) (s : list string) :
  s `prefix_of` JsSet.add x s.
Proof.
  unfold JsSet.add. destruct (JsSet.has x s); [done |]. by apply prefix_app_r.
Qed.

Lemma elem_of_JsSet_add (x y : string) (s : list string) :
  y ∈ JsSet.add x s <-> y = x \/ y ∈ s.
Proof.
  unfold JsSet.add, JsSet.has. case_bool_decide as Hx.
  - split; [by right |]. by intros [-> |].
  - rewrite elem_of_app, list_elem_of_singleton. tauto.
Qed.

Lemma elem_of_JsSet_of_list (x : string) (l : list string) :
  x ∈ JsSet.of_list l <-> x ∈ l.
Proof.
  unfold JsSet.of_list.
  assert (H : forall acc, x ∈ foldl (fun s y => JsSet.add y s) acc l
                          <-> x ∈ acc \/ x ∈ l).
  { induction l as [|y l IH]; intros acc; simpl.
    - rewrite elem_of_nil. tauto.
    - rewrite IH, elem_of_JsSet_add, elem_of_cons. tauto. }
  rewrite H, elem_of_nil. tauto.
Qed.

Lemma prefix_subseteq (l k : list string) : l `prefix_of` k -> l ⊆ k.
Proof. intros [m ->] x Hx. apply elem_of_app. by left. Qed.

Lemma grows_refl (st : Finder) : grows st st.
Proof. by repeat split. Qed.

Lemma grows_trans (st1 st2 st3 : Finder) :
  grows st1 st2 -> grows st2 st3 -> grows st1 st3.
Proof.
  intros (A1 & A2 & A3 & A4 & A5) (B1 & B2 & B3 & B4 & B5).
  repeat split; by etrans.
Qed.

Section FinderProperties.

Variable compileFrom : string -> option (string -> option string).
Variable readFileSync : string -> option string.
Variable isFile : string -> bool.
Variable dirname : string -> string.
Variable join : string -> string -> string.
Variable relative : string -> string -> string.
Variable toPosix : string -> string.
Variable picomatch : list string -> list string -> string -> bool.
Variable GLOBAL_IGNORE_PATTERNS : list string.
Variable walk : string -> Walk.

Local Abbreviation init := (init GLOBAL_IGNORE_PATTERNS).
Local Abbreviation addRule := (addRule join).
Local Abbreviation addFile :=
  (addFile compileFrom readFileSync dirname join relative toPosix picomatch
     GLOBAL_IGNORE_PATTERNS).

(** *** The ancestor loop *)




(** *** One rule, one file *)

Lemma addRule_keeps (base : string) (sc : FileScan) (rule : Rule) :
  let sc' := addRule base sc rule in
  grows (scan_finder sc) (scan_finder sc')
  /\ f_session (scan_finder sc') = f_session (scan_finder sc)
  /\ f_matchers (scan_finder sc') = f_matchers (scan_finder sc)
  /\ f_gitignoreFiles (scan_finder sc') = f_gitignoreFiles (scan_finder sc)
  /\ dirIgnores sc `prefix_of` dirIgnores sc'
  /\ (dirIgnores sc ⊆ f_ignores (scan_finder sc) ->
      dirIgnores sc' ⊆ f_ignores (scan_finder sc'))
  /\ (dirUnignores sc ⊆ f_unignores (scan_finder sc) ->
      dirUnignores sc' ⊆ f_unignores (scan_finder sc')).
Proof.
  assert (Hadd2 : forall x y l, l `prefix_of` JsSet.add y (JsSet.add x l)).
  { intros x y l. etrans; apply JsSet_add_prefix. }
  assert (Hsub2 : forall x y l k, l ⊆ k ->
            JsSet.add y (JsSet.add x l) ⊆ JsSet.add y (JsSet.add x k)).
  { intros x y l k Hlk z. rewrite !elem_of_JsSet_add.
    intros [-> | [-> | Hz]]; auto. }
  assert (Hpush : forall x y l k, l ⊆ k ->
            JsSet.add y (JsSet.add x l) ⊆ k ++ [x; y]).
  { intros x y l k Hlk z. rewrite !elem_of_JsSet_add, elem_of_app.
    intros [-> | [-> | Hz]]; [right | right | left; auto]; in_list. }
  unfold addRule. destruct sc as [st di du]. cbn [scan_finder dirIgnores dirUnignores].
  destruct (patterns rule) as [|pattern [|extraPattern rest]] eqn:Hpat;
    cbv zeta; try (by repeat split; try apply grows_refl).
  destruct (negated rule), (String.eqb base "" || Js.startsWith base "..");
    match goal with
    | |- context [if negb ?c then _ else _] => destruct c
    end;
    cbn [negb scan_finder dirIgnores dirUnignores];
    try (by repeat split; try apply grows_refl);
    (split; [repeat split; cbn; try done;
             try (by apply prefix_app_r); try apply Hadd2 |]);
    cbn; repeat split; try done; try apply Hadd2; try apply Hsub2.
  - intros Hdu z. rewrite !elem_of_JsSet_add, elem_of_app.
    intros [-> | [-> | Hz]]; [right | right | left; auto]; in_list.
  - intros Hdu. by apply Hpush.
Qed.

Lemma addRules_keep (base : string) (rules : list Rule) :
  forall sc : FileScan,
    let sc' := foldl (addRule base) sc rules in
    grows (scan_finder sc) (scan_finder sc')
    /\ f_session (scan_finder sc') = f_session (scan_finder sc)
    /\ f_matchers (scan_finder sc') = f_matchers (scan_finder sc)
    /\ f_gitignoreFiles (scan_finder sc') = f_gitignoreFiles (scan_finder sc)
    /\ dirIgnores sc `prefix_of` dirIgnores sc'
    /\ (dirIgnores sc ⊆ f_ignores (scan_finder sc) ->
        dirIgnores sc' ⊆ f_ignores (scan_finder sc'))
    /\ (dirUnignores sc ⊆ f_unignores (scan_finder sc) ->
        dirUnignores sc' ⊆ f_unignores (scan_finder sc')).
Proof.
  induction rules as [|rule rules IH]; intros sc; cbn [foldl].
  - by repeat split; try apply grows_refl.
  - destruct (addRule_keeps base sc rule) as (A1 & A2 & A3 & A4 & A5 & A6 & A7).
    destruct (IH (addRule base sc rule)) as (B1 & B2 & B3 & B4 & B5 & B6 & B7).
    cbv zeta in *.
    split; [by eapply grows_trans |].
    split; [congruence |]. split; [congruence |]. split; [congruence |].
    split; [by etrans |]. split; auto.
Qed.

(** What [addFile] does, when it comes back. *)
Lemma addFile_keeps (cwd filePath : string) (st st' : Finder)
    (old : gmap string Gitignores) :
  addFile cwd filePath st = Some st' ->
  grows st st'
  /\ f_gitignoreFiles st' = f_gitignoreFiles st ++ [relative cwd filePath]
  /\ (init ⊆ f_ignores st ->
      cachedWithin relative init cwd old st ->
      cachedWithin relative init cwd old st').
Proof.
  unfold addFile.
  destruct (parseGitignoreFile _ _ _ _) as [rules|]; [| done].
  cbn [mbind option_bind]. cbv zeta.
  match goal with
  | |- context [foldl (addRule ?b) ?sc0 rules] =>
      destruct (addRules_keep b rules sc0) as (G & S1 & S2 & S3 & P & I1 & I2);
      set (sc := foldl (addRule b) sc0 rules) in *
  end.
  cbv zeta in *. cbn [scan_finder dirIgnores dirUnignores] in *.
  intros [= <-].
  split; [| split].
  - destruct G as (G1 & G2 & G3 & G4 & G5).
    unfold grows, addMatchers, with_session, cacheSet. cbn in *.
    repeat split; try done.
    + etrans; [| exact G3]. by apply prefix_app_r.
    + etrans; [exact G4 |]. by apply prefix_app_r.
    + etrans; [| exact G5]. by apply prefix_app_r.
  - cbn. by rewrite S3.
  - intros Hinit Hold dir entry.
    unfold addMatchers, with_session, cacheSet. cbn.
    destruct (decide (dir = dirname (toPosix filePath))) as [-> | Hdir].
    + rewrite lookup_insert_eq. intros [= <-]. right. cbn.
      split; [| split].
      * apply I1. intros z Hz. rewrite elem_of_JsSet_of_list in Hz.
        destruct (String.eqb (relative cwd (dirname (toPosix filePath))) "");
          [exact (Hinit z Hz) | by apply elem_of_nil in Hz].
      * apply I2. cbn. by intros z Hz%elem_of_nil.
      * intros Hbase. rewrite Hbase in P. cbn [String.eqb] in P.
        intros z Hz. apply (prefix_subseteq _ _ P).
        by rewrite elem_of_JsSet_of_list.
    + rewrite lookup_insert_ne by done. rewrite S1. cbn.
      intros [Hin | (H1 & H2 & H3)]%Hold; [by left | right].
      destruct G as (G1 & G2 & _). cbn in G1, G2.
      split; [| split; [| done]].
      * etrans; [exact H1 |]. by apply prefix_subseteq.
      * etrans; [exact H2 |]. by apply prefix_subseteq.
Qed.


(** The patterns of a nested ignore file are recorded below its directory. *)
Lemma addRules_prefixed (base : string) (all : list Rule) (rules : list Rule) :
  String.eqb base "" || Js.startsWith base ".." = false ->
  rules ⊆ all ->
  forall sc : FileScan,
    let recorded (neg : bool) (p : string) :=
      exists rule q, rule ∈ all /\ negated rule = neg /\ q ∈ patterns rule
                     /\ p = join base q in
    (forall p, p ∈ dirIgnores sc -> recorded false p) ->
    (forall p, p ∈ dirUnignores sc -> recorded true p) ->
    (forall p, p ∈ dirIgnores (foldl (addRule base) sc rules) ->
       recorded false p)
    /\ (forall p, p ∈ dirUnignores (foldl (addRule base) sc rules) ->
          recorded true p).
Proof.
  intros Hbase. induction rules as [|rule rules IH]; intros Hsub sc recorded;
    cbn [foldl]; [done |].
  intros HI HU.
  assert (Hrule : rule ∈ all) by (apply Hsub; left).
  apply IH; [intros r Hr; apply Hsub; by right | |].
  - intros p. unfold addRule. rewrite Hbase.
    destruct (patterns rule) as [|pattern [|extraPattern rest]] eqn:Hpat;
      [by apply HI | by apply HI |].
    destruct (negated rule) eqn:Hneg;
      match goal with
      | |- context [if negb ?c then _ else _] => destruct c
      end; cbn [negb dirIgnores]; try (by apply HI).
    rewrite !elem_of_JsSet_add. intros [-> | [-> | Hp]]; [| | by apply HI].
    + exists rule, extraPattern. rewrite Hpat. repeat split; [done.. | in_list].
    + exists rule, pattern. rewrite Hpat. repeat split; [done.. | in_list].
  - intros p. unfold addRule. rewrite Hbase.
    destruct (patterns rule) as [|pattern [|extraPattern rest]] eqn:Hpat;
      [by apply HU | by apply HU |].
    destruct (negated rule) eqn:Hneg;
      match goal with
      | |- context [if negb ?c then _ else _] => destruct c
      end; cbn [negb dirUnignores]; try (by apply HU).
    rewrite !elem_of_JsSet_add. intros [-> | [-> | Hp]]; [| | by apply HU].
    + exists rule, extraPattern. rewrite Hpat. repeat split; [done.. | in_list].
    + exists rule, pattern. rewrite Hpat. repeat split; [done.. | in_list].
Qed.

(** X11. The rules of an ignore file in a directory below [cwd] are recorded
    below that directory. When [addFile] caches patterns for a directory
    whose path [base] relative to [cwd] is neither empty nor starts with
    [..], the file is parsed without [from], and every ignore pattern cached
    for the directory is [join(base, q)] for a pattern [q] of a rule of the
    file that is not negated; every unignore pattern cached is [join(base,
    q)] for a pattern [q] of a negated rule. *)
Theorem nested_rules_are_prefixed (cwd filePath : string) (st st' : Finder) :
  let dir := dirname (toPosix filePath) in
  let base := relative cwd dir in
  addFile cwd filePath st = Some st' ->
  base <> "" ->
  Js.startsWith base ".." = false ->
  exists rules entry,
    parseGitignoreFile compileFrom readFileSync filePath None = Some rules
    /\ cachedIgnores (f_session st') !! dir = Some entry
    /\ (forall p, p ∈ ignores entry ->
          exists rule q, rule ∈ rules /\ negated rule = false
                         /\ q ∈ patterns rule /\ p = join base q)
    /\ (forall p, p ∈ unignores entry ->
          exists rule q, rule ∈ rules /\ negated rule = true
                         /\ q ∈ patterns rule /\ p = join base q).
Proof.
  intros dir base. unfold addFile. fold dir. fold base.
  intros Hadd Hne Hup. rewrite Hup in Hadd.
  destruct (parseGitignoreFile _ _ _ None) as [rules|] eqn:Hparse; [| done].
  cbn [mbind option_bind] in Hadd. cbv zeta in Hadd.
  assert (Hbase : String.eqb base "" || Js.startsWith base ".." = false).
  { rewrite Hup, orb_false_r. by apply String.eqb_neq. }
  assert (Hempty : String.eqb base "" = false) by (by apply String.eqb_neq).
  rewrite Hempty in Hadd.
  match type of Hadd with
  | context [foldl (addRule base) ?sc0 rules] =>
      destruct (addRules_prefixed base rules rules Hbase (reflexivity _) sc0)
        as (HI & HU);
      [by intros p Hp%elem_of_nil | by intros p Hp%elem_of_nil |];
      set (sc := foldl (addRule base) sc0 rules) in *
  end.
  injection Hadd as <-.
  exists rules, (mkGitignores (dirIgnores sc) (dirUnignores sc)).
  split; [done |]. split; [| split; [exact HI | exact HU]].
  unfold addMatchers, with_session, cacheSet. cbn.
  by rewrite lookup_insert_eq.
Qed.

(** *** The whole search *)

Lemma addFiles_keep (cwd : string) (old : gmap string Gitignores)
    (filePaths : list string) :
  forall st st' : Finder,
    addFiles compileFrom readFileSync dirname join relative toPosix picomatch
      GLOBAL_IGNORE_PATTERNS cwd filePaths st = Some st' ->
    grows st st'
    /\ f_gitignoreFiles st'
       = f_gitignoreFiles st ++ map (relative cwd) filePaths
    /\ (init ⊆ f_ignores st ->
        cachedWithin relative init cwd old st ->
        cachedWithin relative init cwd old st').
Proof.
  induction filePaths as [|filePath rest IH]; intros st st'; cbn [addFiles].
  - intros [= <-]. split; [apply grows_refl |].
    split; [by rewrite app_nil_r | done].
  - destruct (addFile cwd filePath st) as [st1|] eqn:Hadd; [| done].
    cbn [mbind option_bind]. intros Hrest.
    destruct (addFile_keeps _ _ _ _ old Hadd) as (G1 & F1 & C1).
    destruct (IH _ _ Hrest) as (G2 & F2 & C2).
    split; [by eapply grows_trans |]. split.
    + rewrite F2, F1. cbn [map]. by rewrite <- app_assoc.
    + intros Hinit Hold. apply C2; [| by apply C1].
      etrans; [exact Hinit |]. apply prefix_subseteq, G1.
Qed.

Lemma runWalk_keeps (cwd : string) (old : gmap string Gitignores) (w : Walk) :
  forall st st' : Finder,
    runWalk compileFrom readFileSync dirname join relative toPosix picomatch
      GLOBAL_IGNORE_PATTERNS cwd w st = Some st' ->
    grows st st'
    /\ (exists walked,
          f_gitignoreFiles st'
          = f_gitignoreFiles st ++ map (relative cwd) walked)
    /\ (init ⊆ f_ignores st ->
        cachedWithin relative init cwd old st ->
        cachedWithin relative init cwd old st').
Proof.
  induction w as [|entry next IH|entry next IH]; intros st st'; cbn [runWalk].
  - intros [= <-]. split; [apply grows_refl |].
    split; [exists []; by rewrite app_nil_r | done].
  - unfold entryFilter.
    destruct (entry_isFile entry && String.eqb (entry_name entry) ".gitignore").
    + destruct (addFile cwd (entry_path entry) st) as [st1|] eqn:Hadd; [| done].
      cbn [mbind option_bind fst snd]. intros Hrest.
      destruct (addFile_keeps _ _ _ _ old Hadd) as (G1 & F1 & C1).
      destruct (IH _ _ _ Hrest) as (G2 & (walked & F2) & C2).
      split; [by eapply grows_trans |]. split.
      * exists (entry_path entry :: walked).
        rewrite F2, F1. cbn [map]. by rewrite <- app_assoc.
      * intros Hinit Hold. apply C2; [| by apply C1].
        etrans; [exact Hinit |]. apply prefix_subseteq, G1.
    + cbn [mbind option_bind fst snd]. apply IH.
  - apply IH.
Qed.

Lemma ancestorLoop_keeps (fuel : nat) :
  forall (dir : string) (acc paths : list string) (s s' : Session),
    ancestorLoop isFile dirname join fuel dir acc s = Some (paths, s') ->
    cachedIgnores s' = cachedIgnores s /\ trace s `prefix_of` trace s'.
Proof.
  induction fuel as [|fuel IH]; intros dir acc paths s s'; cbn [ancestorLoop].
  - destruct (Js.truthy dir); [done |]. by intros [= _ <-].
  - destruct (Js.truthy dir); [| by intros [= _ <-]].
    destruct (String.eqb dir (dirname dir) || String.eqb (dirname dir) ".").
    + intros [= _ <-]. split; [done |]. by apply prefix_app_r.
    + intros (Hc & Ht)%IH. split; [exact Hc |].
      etrans; [| exact Ht]. by apply prefix_app_r.
Qed.

Lemma init_in_newFinder (s : Session) :
  init ⊆ f_ignores (newFinder picomatch GLOBAL_IGNORE_PATTERNS s).
Proof. intros z Hz. by apply elem_of_JsSet_of_list. Qed.

(** What [findAndParseGitignores] has done when the walk is over. *)
Lemma findGitignores_keeps (fuel : nat) (cwd : string) (s : Session)
    (st : Finder) :
  findGitignores compileFrom readFileSync isFile dirname join relative toPosix
    picomatch GLOBAL_IGNORE_PATTERNS walk fuel cwd s = Some st ->
  exists ancestors s1 walked,
    findAncestorGitignoreFiles isFile dirname join fuel cwd s
      = Some (ancestors, s1)
    /\ grows (newFinder picomatch GLOBAL_IGNORE_PATTERNS s) st
    /\ f_gitignoreFiles st
       = map (relative cwd)
           (ancestors
            ++ (if isFile ".git/info/exclude" then [".git/info/exclude"]
                else [])
            ++ walked)
    /\ cachedWithin relative init cwd (cachedIgnores s) st.
Proof.
  unfold findGitignores.
  destruct (findAncestorGitignoreFiles _ _ _ _ _ _) as [[ancestors s1]|]
    eqn:Hanc; [| done].
  cbn [mbind option_bind fst snd].
  destruct (addFiles _ _ _ _ _ _ _ _ _ _ _) as [st1|] eqn:Hfiles; [| done].
  cbn [mbind option_bind].
  set (st2 := with_session st1 _).
  destruct (if isFile ".git/info/exclude" then _ else Some st2) as [st3|]
    eqn:Hexclude; [| done].
  cbn [mbind option_bind]. intros Hwalk.
  exists ancestors, s1.
  pose proof (init_in_newFinder s) as Hinit.
  set (st0 := newFinder picomatch GLOBAL_IGNORE_PATTERNS s) in *.
  destruct (ancestorLoop_keeps _ _ _ _ _ _ Hanc) as (Hc1 & Ht1).
  assert (G0 : grows st0 (with_session st0 s1)).
  { by repeat split. }
  assert (C0 : cachedWithin relative init cwd (cachedIgnores s)
                 (with_session st0 s1)).
  { intros dir entry. cbn. rewrite Hc1. by left. }
  destruct (addFiles_keep _ (cachedIgnores s) _ _ _ Hfiles) as (G1 & F1 & C1).
  assert (G2 : grows st1 st2).
  { repeat split; try done. cbn. by apply prefix_app_r. }
  assert (C2 : cachedWithin relative init cwd (cachedIgnores s) st2).
  { apply C1; [exact Hinit | exact C0]. }
  assert (G02 : grows st0 st2).
  { eapply grows_trans; [exact G0 |]. by eapply grows_trans. }
  assert (Hstep : grows st2 st3
            /\ f_gitignoreFiles st3
               = f_gitignoreFiles st2
                 ++ map (relative cwd)
                      (if isFile ".git/info/exclude"
                       then [".git/info/exclude"] else [])
            /\ cachedWithin relative init cwd (cachedIgnores s) st3).
  { destruct (isFile ".git/info/exclude").
    - destruct (addFile_keeps _ _ _ _ (cachedIgnores s) Hexclude)
        as (G3 & F3 & C3).
      split; [exact G3 |]. split; [exact F3 |].
      apply C3; [| exact C2].
      etrans; [exact Hinit |]. apply prefix_subseteq, G02.
    - injection Hexclude as <-. split; [apply grows_refl |].
      split; [by rewrite app_nil_r | exact C2]. }
  destruct Hstep as (G3 & F3 & C3).
  assert (G03 : grows st0 st3) by (by eapply grows_trans).
  destruct (runWalk_keeps _ (cachedIgnores s) _ _ _ Hwalk)
    as (G4 & (walked & F4) & C4).
  exists walked. split; [done |].
  split; [by eapply grows_trans |]. split.
  - rewrite F4, F3. cbn [f_gitignoreFiles with_session st2].
    rewrite F1. cbn. by rewrite !map_app, <- !app_assoc.
  - apply C4; [| exact C3].
    etrans; [exact Hinit |]. apply prefix_subseteq, G03.
Qed.

(** X12. The patterns of [init], [.git] and the global ones, are always ignored:
    the ignore patterns that [findAndParseGitignores] returns start with
    them, whatever the ignore files hold; no negated rule takes one away. *)
Theorem init_always_ignored (fuel : nat) (cwd : string) (s s' : Session)
    (result : ParsedGitignores) :
  findAndParseGitignores compileFrom readFileSync isFile dirname join relative
    toPosix picomatch GLOBAL_IGNORE_PATTERNS walk fuel cwd s
    = Some (result, s') ->
  JsSet.of_list init `prefix_of` all_ignores result
  /\ forall pattern, pattern ∈ init -> pattern ∈ all_ignores result.
Proof.
  unfold findAndParseGitignores.
  destruct (findGitignores _ _ _ _ _ _ _ _ _ _ _ _ _) as [st|] eqn:Hfind;
    [| done].
  cbn [mbind option_bind]. intros [= <- <-]. cbn [all_ignores].
  destruct (findGitignores_keeps _ _ _ _ Hfind)
    as (_ & _ & _ & _ & (G & _) & _ & _).
  split; [exact G |].
  intros pattern Hp. apply (prefix_subseteq _ _ G).
  by apply elem_of_JsSet_of_list.
Qed.

(** X13. What a call of [findAndParseGitignores] caches for a directory is part
    of what it returns: every cache entry the call leaves is one that was
    there before, or its ignore patterns are among the ignore patterns of the
    result and its unignore patterns among the unignore patterns of the
    result; an entry written for [cwd] itself holds the patterns of [init]. *)
Theorem cache_within_result (fuel : nat) (cwd : string) (s s' : Session)
    (result : ParsedGitignores) (dir : string) (entry : Gitignores) :
  findAndParseGitignores compileFrom readFileSync isFile dirname join relative
    toPosix picomatch GLOBAL_IGNORE_PATTERNS walk fuel cwd s
    = Some (result, s') ->
  cachedIgnores s' !! dir = Some entry ->
  cachedIgnores s !! dir = Some entry
  \/ (ignores entry ⊆ all_ignores result
      /\ unignores entry ⊆ all_unignores result
      /\ (relative cwd dir = "" -> init ⊆ ignores entry)).
Proof.
  unfold findAndParseGitignores.
  destruct (findGitignores _ _ _ _ _ _ _ _ _ _ _ _ _) as [st|] eqn:Hfind;
    [| done].
  cbn [mbind option_bind]. intros [= <- <-].
  cbn [all_ignores all_unignores emit cachedIgnores].
  destruct (findGitignores_keeps _ _ _ _ Hfind) as (_ & _ & _ & _ & _ & _ & C).
  apply C.
Qed.

(** X14. The files that [findAndParseGitignores] reports are, in this order: the
    ignore files above [cwd] that [findAncestorGitignoreFiles] returns;
    [.git/info/exclude] if it is a file; and ignore files met by the walk.
    Each is reported as its path relative to [cwd]. *)
Theorem reported_files (fuel : nat) (cwd : string) (s s' : Session)
    (result : ParsedGitignores) :
  findAndParseGitignores compileFrom readFileSync isFile dirname join relative
    toPosix picomatch GLOBAL_IGNORE_PATTERNS walk fuel cwd s
    = Some (result, s') ->
  exists ancestors s1 walked,
    findAncestorGitignoreFiles isFile dirname join fuel cwd s
      = Some (ancestors, s1)
    /\ gitignoreFiles result
       = map (relative cwd)
           (ancestors
            ++ (if isFile ".git/info/exclude" then [".git/info/exclude"]
                else [])
            ++ walked).
Proof.
  unfold findAndParseGitignores.
  destruct (findGitignores _ _ _ _ _ _ _ _ _ _ _ _ _) as [st|] eqn:Hfind;
    [| done].
  cbn [mbind option_bind]. intros [= <- <-]. cbn [gitignoreFiles].
  destruct (findGitignores_keeps _ _ _ _ Hfind)
    as (ancestors & s1 & walked & Hanc & _ & F & _).
  by exists ancestors, s1, walked.
Qed.

Lemma grows_matcher (st st' : Finder) (str : string) :
  grows st st' -> matcher st str = true -> matcher st' str = true.
Proof.
  intros (_ & _ & _ & [more Hmore] & _). unfold matcher.
  rewrite Hmore, existsb_app. by intros ->.
Qed.

(** X15. A directory that [deepFilter] refuses stays refused for the rest of the
    walk: the matchers are only added to, and a matcher is compiled with the
    unignore patterns known when it is made, so that no ignore file found
    later opens the directory again. *)
Theorem refusal_is_final (cwd : string) (w : Walk) (st st' : Finder)
    (entry : Entry) :
  runWalk compileFrom readFileSync dirname join relative toPosix picomatch
    GLOBAL_IGNORE_PATTERNS cwd w st = Some st' ->
  deepFilter relative cwd entry st = false ->
  deepFilter relative cwd entry st' = false.
Proof.
  intros Hwalk. destruct (runWalk_keeps _ ∅ _ _ _ Hwalk) as (G & _).
  unfold deepFilter. rewrite !negb_false_iff. by apply grows_matcher.
Qed.

(** *** The search and the enumerator *)

Variable ROOT_WORKSPACE_NAME : string.
Variable fg_glob : Patterns -> FastGlobOptions -> list string.

(** X16. What the search caches for a directory, the enumerator passes on. After
    [findAndParseGitignores] has run for the directory [here] from an empty
    cache and has left a cache entry for [here], [globby] for [here] itself
    needs no iteration of its loop, and calls the glob engine with the
    caller's [ignore] list followed by the ignore patterns of that entry.
    These hold the patterns of [init] and are among the ignore patterns that
    the search returned. *)
Theorem cached_patterns_reach_engine (fuel fuel' : nat) (here : string)
    (s0 s : Session) (result : ParsedGitignores) (entry : Gitignores)
    (patterns : Patterns) (options : GlobOptions) :
  findAndParseGitignores compileFrom readFileSync isFile dirname join relative
    toPosix picomatch GLOBAL_IGNORE_PATTERNS walk fuel here s0
    = Some (result, s) ->
  cachedIgnores s0 = ∅ ->
  relative here here = "" ->
  cachedIgnores s !! here = Some entry ->
  isEmptyArray patterns = false ->
  gitignore options = true ->
  cwd options = here ->
  dir options = here ->
  let passed := default [] (ignore options) ++ ignores entry in
  globby dirname relative ROOT_WORKSPACE_NAME fg_glob fuel' patterns options s
  = Some (fg_glob patterns (fastGlobOptionsOf options passed),
          globbed relative ROOT_WORKSPACE_NAME patterns options passed s)
  /\ init ⊆ passed
  /\ ignores entry ⊆ all_ignores result.
Proof.
  unfold findAndParseGitignores.
  destruct (findGitignores _ _ _ _ _ _ _ _ _ _ _ _ _) as [st|] eqn:Hfind;
    [| done].
  cbn [mbind option_bind].
  intros [= <- <-] Hempty Hrel Hentry Hne Hon Hcwd Hdir.
  set (passed := default [] (ignore options) ++ ignores entry).
  cbn [all_ignores emit cachedIgnores] in *.
  destruct (findGitignores_keeps _ _ _ _ Hfind) as (_ & _ & _ & _ & _ & _ & C).
  destruct (C _ _ Hentry) as [Hold | (Hin & _ & Hinit)].
  { by rewrite Hempty, lookup_empty in Hold. }
  split; [| split; [| exact Hin]].
  - unfold globby, globbed, fastGlobOptionsOf.
    rewrite Hne, Hon, Hdir, Hcwd.
    assert (Hloop : forall ignore0,
              ancestorIgnores dirname fuel' (cachedIgnores (f_session st))
                here here ignore0 = Some ignore0).
    { intros ignore0. destruct fuel'; simpl; by rewrite String.eqb_refl. }
    rewrite Hloop. cbn [mbind option_bind emit cachedIgnores].
    rewrite Hentry. unfold passed. by destruct (ignore options).
  - intros z Hz. apply elem_of_app. right. by apply Hinit.
Qed.

End FinderProperties.


Example ancestor_files_run :
  findAncestorGitignoreFiles (fun p => String.eqb p "/.gitignore")
    (Js.slice_to 1) (fun d f => d +:+ f) 5 "/repo" (mkSession ∅ [])
  = Some (["/.gitignore"], mkSession ∅ [FsAccess "/.gitignore"]).
Proof. reflexivity. Qed.

Example repo_search_result :
  repo_search
  = Some (mkParsedGitignores [".gitignore"; "pkg/.gitignore"]
            [".git"; "**/dist"; "**/dist/**"; "pkg/out"; "pkg/out/**"]
            ["**/keep.me"; "**/keep.me/**"],
          mkSession
            {[ "/r" := mkGitignores [".git"; "**/dist"; "**/dist/**"]
                         ["**/keep.me"; "**/keep.me/**"];
               "/r/pkg" := mkGitignores ["pkg/out"; "pkg/out/**"] [] ]}
            [FsAccess "/.gitignore"; FsAccess ".git/info/exclude";
             FsAccess "/r/.gitignore"; FsAccess "/r/pkg/.gitignore";
             DebugLog "*" "Parsed gitignore files"]).
Proof. vm_compute. reflexivity. Qed.

Lemma init_always_ignored_witness :
  ".git" ∈ [".git"; "**/dist"; "**/dist/**"; "pkg/out"; "pkg/out/**"].
Proof.
  refine (proj2 (init_always_ignored literalFrom repo_readFileSync repo_isFile
                   repo_dirname repo_join repo_relative (fun path => path)
                   repo_picomatch [] repo_walk 5 "/r" (mkSession ∅ [])
                   (mkSession
                      {[ "/r" := mkGitignores [".git"; "**/dist"; "**/dist/**"]
                                   ["**/keep.me"; "**/keep.me/**"];
                         "/r/pkg" := mkGitignores ["pkg/out"; "pkg/out/**"] [] ]}
                      [FsAccess "/.gitignore"; FsAccess ".git/info/exclude";
                       FsAccess "/r/.gitignore"; FsAccess "/r/pkg/.gitignore";
                       DebugLog "*" "Parsed gitignore files"])
                   (mkParsedGitignores [".gitignore"; "pkg/.gitignore"]
                      [".git"; "**/dist"; "**/dist/**"; "pkg/out"; "pkg/out/**"]
                      ["**/keep.me"; "**/keep.me/**"])
                   _) ".git" _).
  - vm_compute. reflexivity.
  - in_list.
Defined.

Lemma cache_within_result_witness :
  (∅ : gmap string Gitignores) !! "/r/pkg"
  = Some (mkGitignores ["pkg/out"; "pkg/out/**"] [])
  \/ (["pkg/out"; "pkg/out/**"]
        ⊆ [".git"; "**/dist"; "**/dist/**"; "pkg/out"; "pkg/out/**"]
      /\ [] ⊆ ["**/keep.me"; "**/keep.me/**"]
      /\ (repo_relative "/r" "/r/pkg" = "" ->
          init [] ⊆ ["pkg/out"; "pkg/out/**"])).
Proof.
  refine (cache_within_result literalFrom repo_readFileSync repo_isFile
            repo_dirname repo_join repo_relative (fun path => path)
            repo_picomatch [] repo_walk 5 "/r" (mkSession ∅ [])
            (mkSession
               {[ "/r" := mkGitignores [".git"; "**/dist"; "**/dist/**"]
                            ["**/keep.me"; "**/keep.me/**"];
                  "/r/pkg" := mkGitignores ["pkg/out"; "pkg/out/**"] [] ]}
               [FsAccess "/.gitignore"; FsAccess ".git/info/exclude";
                FsAccess "/r/.gitignore"; FsAccess "/r/pkg/.gitignore";
                DebugLog "*" "Parsed gitignore files"])
            (mkParsedGitignores [".gitignore"; "pkg/.gitignore"]
               [".git"; "**/dist"; "**/dist/**"; "pkg/out"; "pkg/out/**"]
               ["**/keep.me"; "**/keep.me/**"])
            "/r/pkg" (mkGitignores ["pkg/out"; "pkg/out/**"] []) _ _).
  - vm_compute. reflexivity.
  - vm_compute. reflexivity.
Defined.

Lemma reported_files_witness :
  exists ancestors s1 walked,
    findAncestorGitignoreFiles repo_isFile repo_dirname repo_join 5 "/r"
      (mkSession ∅ [])
    = Some (ancestors, s1)
    /\ [".gitignore"; "pkg/.gitignore"]
       = map (repo_relative "/r")
           (ancestors
            ++ (if repo_isFile ".git/info/exclude" then [".git/info/exclude"]
                else [])
            ++ walked).
Proof.
  refine (reported_files literalFrom repo_readFileSync repo_isFile
            repo_dirname repo_join repo_relative (fun path => path)
            repo_picomatch [] repo_walk 5 "/r" (mkSession ∅ [])
            (mkSession
               {[ "/r" := mkGitignores [".git"; "**/dist"; "**/dist/**"]
                            ["**/keep.me"; "**/keep.me/**"];
                  "/r/pkg" := mkGitignores ["pkg/out"; "pkg/out/**"] [] ]}
               [FsAccess "/.gitignore"; FsAccess ".git/info/exclude";
                FsAccess "/r/.gitignore"; FsAccess "/r/pkg/.gitignore";
                DebugLog "*" "Parsed gitignore files"])
            (mkParsedGitignores [".gitignore"; "pkg/.gitignore"]
               [".git"; "**/dist"; "**/dist/**"; "pkg/out"; "pkg/out/**"]
               ["**/keep.me"; "**/keep.me/**"])
            _).
  vm_compute. reflexivity.
Defined.

Lemma refusal_is_final_witness :
  from_option
    (fun st' =>
       deepFilter repo_relative "/r" (mkEntry "/r/.git" ".git" false) st'
       = false)
    False
    (runWalk literalFrom repo_readFileSync repo_dirname repo_join
       repo_relative (fun path => path) repo_picomatch [] "/r"
       (repo_walk "/r") (newFinder repo_picomatch [] (mkSession ∅ []))).
Proof.
  destruct (runWalk literalFrom repo_readFileSync repo_dirname repo_join
              repo_relative (fun path => path) repo_picomatch [] "/r"
              (repo_walk "/r") (newFinder repo_picomatch [] (mkSession ∅ [])))
    as [st'|] eqn:Hwalk; cbn [from_option].
  - apply (refusal_is_final literalFrom repo_readFileSync repo_dirname
             repo_join repo_relative (fun path => path) repo_picomatch []
             "/r" (repo_walk "/r")
             (newFinder repo_picomatch [] (mkSession ∅ [])) st'
             (mkEntry "/r/.git" ".git" false) Hwalk).
    reflexivity.
  - vm_compute in Hwalk. discriminate Hwalk.
Defined.

Lemma cached_patterns_reach_engine_witness :
  let s :=
    mkSession
      {[ "/r" := mkGitignores [".git"; "**/dist"; "**/dist/**"]
                   ["**/keep.me"; "**/keep.me/**"];
         "/r/pkg" := mkGitignores ["pkg/out"; "pkg/out/**"] [] ]}
      [FsAccess "/.gitignore"; FsAccess ".git/info/exclude";
       FsAccess "/r/.gitignore"; FsAccess "/r/pkg/.gitignore";
       DebugLog "*" "Parsed gitignore files"] in
  let options := mkGlobOptions true "/r" "/r" None (Some ["x"]) None None in
  let passed := ["x"; ".git"; "**/dist"; "**/dist/**"] in
  globby repo_dirname repo_relative "." (fun _ _ => ["a.ts"]) 0
    (OnePattern "*.ts") options s
  = Some (["a.ts"],
          globbed repo_relative "." (OnePattern "*.ts") options passed s).
Proof.
  intros s options passed.
  refine (proj1 (cached_patterns_reach_engine literalFrom repo_readFileSync
                   repo_isFile repo_dirname repo_join repo_relative
                   (fun path => path) repo_picomatch [] repo_walk "."
                   (fun _ _ => ["a.ts"]) 5 0 "/r" (mkSession ∅ []) s
                   (mkParsedGitignores [".gitignore"; "pkg/.gitignore"]
                      [".git"; "**/dist"; "**/dist/**"; "pkg/out"; "pkg/out/**"]
                      ["**/keep.me"; "**/keep.me/**"])
                   (mkGitignores [".git"; "**/dist"; "**/dist/**"]
                      ["**/keep.me"; "**/keep.me/**"])
                   (OnePattern "*.ts") options _ _ _ _ _ _ _ _)).
  - vm_compute. reflexivity.
  - reflexivity.
  - reflexivity.
  - vm_compute. reflexivity.
  - reflexivity.
  - reflexivity.
  - reflexivity.
  - reflexivity.
Defined.

Lemma nested_rules_are_prefixed_witness :
  exists rules entry,
    parseGitignoreFile literalFrom repo_readFileSync "/r/pkg/.gitignore" None
    = Some rules
    /\ cachedIgnores
         (f_session
            (addMatchers
               [repo_picomatch ["pkg/out"] []; repo_picomatch ["pkg/out/**"] []]
               (mkFinder [".git"; "pkg/out"; "pkg/out/**"] [] ["pkg/.gitignore"]
                  [repo_picomatch [".git"] []]
                  (mkSession
                     {[ "/r/pkg" := mkGitignores ["pkg/out"; "pkg/out/**"] [] ]}
                     [FsAccess "/r/pkg/.gitignore"]))))
       !! "/r/pkg"
       = Some entry
    /\ (forall p, p ∈ ignores entry ->
          exists rule q, rule ∈ rules /\ negated rule = false
                         /\ q ∈ patterns rule /\ p = repo_join "pkg" q)
    /\ (forall p, p ∈ unignores entry ->
          exists rule q, rule ∈ rules /\ negated rule = true
                         /\ q ∈ patterns rule /\ p = repo_join "pkg" q).
Proof.
  apply (nested_rules_are_prefixed literalFrom repo_readFileSync repo_dirname
           repo_join repo_relative (fun path => path) repo_picomatch []
           "/r" "/r/pkg/.gitignore"
           (newFinder repo_picomatch [] (mkSession ∅ []))).
  - reflexivity.
  - discriminate.
  - reflexivity.
Defined.

(** * Further properties of dependency-graph.ts *)

(** ** Edges of the graph *)

(** X17. [updateImportMap] by node records: the graph entries for paths that are
    no key of the import map are as they were; no [ImportDetails] record is
    changed; and of a node record the store held, nothing is changed but the
    entries of [imports.internal] for the keys, in the source alone, and
    [imported], in the nodes that the graph had for the keys. *)
Theorem node_records_kept (file : loc) (importMap : list (string * loc))
    (graph : DependencyGraph) (st : Store) :
  let r := updateImportMap file importMap graph st in
  (forall p, p ∉ importMap.*1 -> r.2 !! p = graph !! p)
  /\ details r.1 = details st
  /\ (forall m node, nodes st !! m = Some node ->
        exists node',
          nodes r.1 !! m = Some node'
          /\ imports_external node' = imports_external node
          /\ imports_unresolved node' = imports_unresolved node
          /\ exports node' = exports node
          /\ duplicates node' = duplicates node
          /\ scripts node' = scripts node
          /\ traceRefs node' = traceRefs node
          /\ (m <> file -> imports_internal node' = imports_internal node)
          /\ (forall p, p ∉ importMap.*1 ->
                imports_internal node' !! p = imports_internal node !! p)
          /\ ((forall p, p ∈ importMap.*1 -> graph !! p <> Some m) ->
              node_imported node' = node_imported node)).
Proof.
  intros r.
  destruct (updateImportMap_records file importMap graph st)
    as (Hgraph & _ & Hdetails & Hnodes).
  split; [exact Hgraph |]. split; [exact Hdetails |].
  intros m node Hm.
  destruct (Hnodes m node Hm)
    as (node' & Hm' & (E1 & E2 & E3 & E4 & E5 & E6) & Hint & Hkeys & Himp).
  exists node'. repeat (split; [done |]). done.
Qed.

Lemma updateImportEntry_registered (file n : loc) (st : Store)
    (graph : DependencyGraph) (path : string) (d : loc) :
  imports_internal (nodes st !!! file) !! path = None ->
  graph !! path = Some n ->
  let st1 :=
    with_nodes st
      (<[file := with_internal (nodes st !!! file)
                   (<[path := d]> (imports_internal (nodes st !!! file)))]>
         (nodes st)) in
  updateImportEntry file (st, graph) (path, d)
  = (match node_imported (nodes st1 !!! n) with
     | None =>
         with_nodes st1
           (<[n := with_imported (nodes st1 !!! n) (Some d)]> (nodes st1))
     | Some aggregate => updateImportDetails aggregate d st1
     end, <[path := n]> graph).
Proof.
  intros Hint Hn. unfold updateImportEntry, getOrCreateFileNode.
  rewrite Hint, Hn. reflexivity.
Qed.

Lemma imported_after_internal (file n : loc) (M : gmap loc FileNode)
    (path : string) (d : loc) :
  node_imported
    (<[file := with_internal (M !!! file)
                 (<[path := d]> (imports_internal (M !!! file)))]> M !!! n)
  = node_imported (M !!! n).
Proof.
  destruct (decide (n = file)) as [-> | Hne].
  - by rewrite lookup_total_insert_eq.
  - by rewrite lookup_total_insert_ne.
Qed.

(** X18. The first importer shares its record with the target. When a file
    imports from a target for the first time, and the target has not been
    imported before, [updateImportMap] stores one and the same
    [ImportDetails] object, the one it was given, as the source's
    [imports.internal] entry for the target and as the target's [imported];
    no set or map is touched. *)
Theorem first_importer_is_shared (file : loc) (path : string) (d : loc)
    (graph : DependencyGraph) (st : Store) :
  imports_internal (nodes st !!! file) !! path = None ->
  (forall n, graph !! path = Some n -> node_imported (nodes st !!! n) = None) ->
  let r := updateImportMap file [(path, d)] graph st in
  exists n,
    r.2 = <[path := n]> graph
    /\ imports_internal (nodes r.1 !!! file) !! path = Some d
    /\ node_imported (nodes r.1 !!! n) = Some d
    /\ sets r.1 = sets st /\ idmaps r.1 = idmaps st
    /\ nsmaps r.1 = nsmaps st /\ details r.1 = details st.
Proof.
  intros Hint Himp. unfold updateImportMap. cbn [foldl].
  destruct (graph !! path) as [n|] eqn:Hn.
  - rewrite (updateImportEntry_registered file n) by done.
    cbn [nodes with_nodes]. rewrite imported_after_internal, (Himp n) by done.
    exists n. cbn [fst snd nodes with_nodes sets idmaps nsmaps details].
    split; [done |]. rewrite lookup_total_insert_eq.
    split; [| done].
    destruct (decide (file = n)) as [-> | Hne].
    + rewrite !lookup_total_insert_eq. cbn. by rewrite lookup_insert_eq.
    + rewrite lookup_total_insert_ne, lookup_total_insert_eq by done.
      cbn. by rewrite lookup_insert_eq.
  - unfold updateImportEntry, getOrCreateFileNode. rewrite Hint, Hn.
    unfold createFileNode, newNode. cbn [nodes with_nodes fst snd].
    set (nodes1 := <[file := _]> (nodes st)).
    set (n := fresh (dom nodes1)).
    assert (Hfresh : n <> file).
    { intros Heq. apply (is_fresh (dom nodes1)). fold n. rewrite Heq.
      unfold nodes1. rewrite dom_insert. set_solver. }
    rewrite lookup_total_insert_eq. cbn [node_imported emptyFileNode].
    exists n. cbn [fst snd nodes with_nodes sets idmaps nsmaps details].
    split; [done |]. split; [| by rewrite lookup_total_insert_eq].
    rewrite !lookup_total_insert_ne by done. unfold nodes1.
    rewrite lookup_total_insert_eq. cbn. by rewrite lookup_insert_eq.
Qed.

Lemma first_importer_is_shared_witness :
  let r := updateImportMap (nodeA project) importMapA (graph0 project)
             (store0 project) in
  exists n,
    r.2 = <["C.ts" := n]> (graph0 project)
    /\ imports_internal (nodes r.1 !!! nodeA project) !! "C.ts"
       = Some (detailsA project)
    /\ node_imported (nodes r.1 !!! n) = Some (detailsA project)
    /\ sets r.1 = sets (store0 project) /\ idmaps r.1 = idmaps (store0 project)
    /\ nsmaps r.1 = nsmaps (store0 project)
    /\ details r.1 = details (store0 project).
Proof.
  apply (first_importer_is_shared (nodeA project) "C.ts" (detailsA project)
           (graph0 project) (store0 project)).
  - vm_compute. reflexivity.
  - intros n Hn. vm_compute in Hn. injection Hn as <-. vm_compute. reflexivity.
Defined.

(** One iteration of [updateImportMap] for a target that the source has not
    imported from before and that has not been imported before. *)
Lemma first_import_step (file : loc) (path : string) (d : loc)
    (graph : DependencyGraph) (st : Store) :
  imports_internal (nodes st !!! file) !! path = None ->
  (forall n, graph !! path = Some n -> node_imported (nodes st !!! n) = None) ->
  exists n N,
    updateImportEntry file (st, graph) (path, d)
    = (with_nodes st N, <[path := n]> graph)
    /\ imports_internal (N !!! file) !! path = Some d
    /\ node_imported (N !!! n) = Some d
    /\ (forall m, m <> file ->
          imports_internal (N !!! m) = imports_internal (nodes st !!! m)).
Proof.
  intros Hint Himp.
  set (N0 := <[file := with_internal (nodes st !!! file)
                         (<[path := d]> (imports_internal (nodes st !!! file)))]>
               (nodes st)).
  assert (Hfile : imports_internal (N0 !!! file) !! path = Some d).
  { unfold N0. rewrite lookup_total_insert_eq. cbn. by rewrite lookup_insert_eq. }
  assert (Hrest : forall m, m <> file -> N0 !!! m = nodes st !!! m).
  { intros m Hm. unfold N0. by rewrite lookup_total_insert_ne. }
  destruct (graph !! path) as [n|] eqn:Hn.
  - exists n, (<[n := with_imported (N0 !!! n) (Some d)]> N0).
    rewrite (updateImportEntry_registered file n) by done.
    cbn [nodes with_nodes].
    rewrite (imported_after_internal file n (nodes st) path d), (Himp n)
      by done.
    fold N0.
    split; [done |]. split; [| split].
    + destruct (decide (file = n)) as [<- | Hne].
      * by rewrite lookup_total_insert_eq.
      * by rewrite lookup_total_insert_ne.
    + by rewrite lookup_total_insert_eq.
    + intros m Hm. destruct (decide (m = n)) as [-> | Hne].
      * rewrite lookup_total_insert_eq. cbn. by rewrite Hrest.
      * by rewrite lookup_total_insert_ne, Hrest.
  - unfold updateImportEntry, getOrCreateFileNode. rewrite Hint, Hn.
    unfold createFileNode, newNode. cbn [nodes with_nodes fst snd]. fold N0.
    set (n := fresh (dom N0)).
    assert (Hfresh : n <> file).
    { intros Heq. apply (is_fresh (dom N0)). fold n. rewrite Heq.
      unfold N0. rewrite dom_insert. set_solver. }
    assert (Hnew : nodes st !!! n = emptyFileNode).
    { rewrite lookup_total_alt.
      assert (nodes st !! n = None) as ->; [| done].
      apply not_elem_of_dom. intros Hin. apply (is_fresh (dom N0)). fold n.
      unfold N0. rewrite dom_insert. set_solver. }
    rewrite lookup_total_insert_eq. cbn [node_imported emptyFileNode].
    exists n, (<[n := with_imported emptyFileNode (Some d)]>
                 (<[n := emptyFileNode]> N0)).
    split; [done |]. split; [| split].
    + by rewrite !lookup_total_insert_ne.
    + by rewrite lookup_total_insert_eq.
    + intros m Hm. destruct (decide (m = n)) as [-> | Hne].
      * rewrite lookup_total_insert_eq, Hnew. done.
      * by rewrite !lookup_total_insert_ne, Hrest.
Qed.

(** Merging leaves the content of its source as it was, when the two values
    are separate. *)
Lemma merge_keeps_source (st : Store) (a b : loc) :
  separate st [details st !!! a; details st !!! b] ->
  detailsContent (updateImportDetails a b st) b = detailsContent st b.
Proof.
  intros Hsep.
  pose proof (separate_positional _ _ Hsep) as P.
  assert (AB : apart st (details st !!! a) (details st !!! b)).
  { apply (separate_head_apart _ _ _ _ Hsep). set_solver. }
  pose proof (mergeInto_effect _ _ st P) as E.
  rewrite updateImportDetails_mergeInto. unfold detailsContent.
  rewrite (eff_details _ _ _ _ _ E).
  exact (apart_content _ _ _ allRoots st _ E AB).
Qed.

Lemma separate_swap (st : Store) (x y : ImportDetails) :
  separate st [x; y] -> separate st [y; x].
Proof.
  unfold separate. by rewrite (Permutation_swap y x []).
Qed.

(** X19. Two files import from one target, for the first time each, and the
    target has not been imported before. Once [updateImportMap] has run for
    both, the target's [imported] holds the merge of the two records, in
    whichever order the files were analysed. The file analysed first holds
    that merge too, as its own record of the import, for it shares the
    object; the file analysed second holds what it was given. *)
Theorem two_importers (first second : loc) (path : string) (a b : loc)
    (graph : DependencyGraph) (st : Store) :
  first <> second ->
  imports_internal (nodes st !!! first) !! path = None ->
  imports_internal (nodes st !!! second) !! path = None ->
  (forall n, graph !! path = Some n -> node_imported (nodes st !!! n) = None) ->
  separate st [details st !!! a; details st !!! b] ->
  let r1 := updateImportMap first [(path, a)] graph st in
  let r2 := updateImportMap second [(path, b)] r1.2 r1.1 in
  let q1 := updateImportMap second [(path, b)] graph st in
  let q2 := updateImportMap first [(path, a)] q1.2 q1.1 in
  let merged := mergeContent (detailsContent st a) (detailsContent st b) in
  (exists n, r2.2 !! path = Some n
             /\ n_imported (nodeContent r2.1 n) = Some merged)
  /\ (exists n, q2.2 !! path = Some n
                /\ n_imported (nodeContent q2.1 n) = Some merged)
  /\ n_internal (nodeContent r2.1 first) !! path = Some merged
  /\ n_internal (nodeContent r2.1 second) !! path
     = Some (detailsContent st b).
Proof.
  intros Hne HintA HintB Himp Hsep.
  assert (Hrun : forall (x y : loc) (u v : loc),
            x <> y ->
            imports_internal (nodes st !!! x) !! path = None ->
            imports_internal (nodes st !!! y) !! path = None ->
            separate st [details st !!! u; details st !!! v] ->
            let r1 := updateImportMap x [(path, u)] graph st in
            let r2 := updateImportMap y [(path, v)] r1.2 r1.1 in
            exists n,
              r2.2 !! path = Some n
              /\ n_imported (nodeContent r2.1 n)
                 = Some (mergeContent (detailsContent st u) (detailsContent st v))
              /\ n_internal (nodeContent r2.1 x) !! path
                 = Some (mergeContent (detailsContent st u) (detailsContent st v))
              /\ n_internal (nodeContent r2.1 y) !! path
                 = Some (detailsContent st v)).
  { clear dependent first second a b. intros x y u v Hne Hx Hy Hsep.
    unfold updateImportMap. cbn [foldl].
    destruct (first_import_step x path u graph st Hx Himp)
      as (n & N & -> & HxN & HnN & Hother).
    cbn [fst snd].
    rewrite (updateImportEntry_registered y n);
      [| cbn [nodes with_nodes]; by rewrite Hother | by rewrite lookup_insert_eq].
    cbn [nodes with_nodes].
    rewrite (imported_after_internal y n N path v), HnN.
    set (N2 := <[y := _]> N).
    set (S2 := with_nodes (with_nodes st N) N2).
    cbn [fst snd].
    pose proof (separate_positional _ _ Hsep) as P.
    assert (Hmerged : detailsContent (updateImportDetails u v S2) u
                      = mergeContent (detailsContent st u) (detailsContent st v)).
    { exact (merge_refines S2 u v P). }
    assert (Hsource : detailsContent (updateImportDetails u v S2) v
                      = detailsContent st v).
    { exact (merge_keeps_source S2 u v Hsep). }
    exists n. split; [by rewrite insert_insert_eq, lookup_insert_eq |].
    unfold nodeContent. cbn [n_imported n_internal].
    rewrite nodes_updateImportDetails. cbn [nodes with_nodes S2].
    split; [| split].
    - assert (node_imported (N2 !!! n) = Some u) as ->; [| by rewrite <- Hmerged].
      unfold N2. destruct (decide (n = y)) as [-> | Hny].
      + rewrite lookup_total_insert_eq. done.
      + by rewrite lookup_total_insert_ne.
    - rewrite lookup_fmap.
      assert (imports_internal (N2 !!! x) !! path = Some u) as ->;
        [| cbn; by rewrite <- Hmerged].
      unfold N2. by rewrite lookup_total_insert_ne.
    - rewrite lookup_fmap.
      assert (imports_internal (N2 !!! y) !! path = Some v) as ->;
        [| cbn; by rewrite <- Hsource].
      unfold N2. rewrite lookup_total_insert_eq. cbn.
      by rewrite lookup_insert_eq. }
  intros r1 r2 q1 q2 merged.
  destruct (Hrun first second a b Hne HintA HintB Hsep)
    as (n & Hn & Hagg & Hfirst & Hsecond).
  assert (Hsep' : separate st [details st !!! b; details st !!! a]).
  { by apply separate_swap. }
  destruct (Hrun second first b a (not_eq_sym Hne) HintB HintA Hsep')
    as (n' & Hn' & Hagg' & _).
  split; [by exists n |]. split; [| done].
  exists n'. split; [done |]. unfold merged.
  by rewrite mergeContent_comm.
Qed.

Lemma two_importers_witness :
  let st := store0 project in
  let r1 := updateImportMap (nodeA project) importMapA (graph0 project) st in
  let r2 := updateImportMap (nodeB project) importMapB r1.2 r1.1 in
  let merged :=
    mergeContent (detailsContent st (detailsA project))
      (detailsContent st (detailsB project)) in
  separate st [details st !!! detailsA project; details st !!! detailsB project]
  /\ n_internal (nodeContent r2.1 (nodeA project)) !! "C.ts" = Some merged
  /\ n_internal (nodeContent r2.1 (nodeB project)) !! "C.ts"
     = Some (detailsContent st (detailsB project)).
Proof.
  intros st r1 r2 merged.
  assert (Hsep : separate st [details st !!! detailsA project;
                              details st !!! detailsB project])
    by by_computation.
  split; [exact Hsep |].
  refine (proj2 (proj2 (two_importers (nodeA project) (nodeB project) "C.ts"
                          (detailsA project) (detailsB project)
                          (graph0 project) st _ _ _ _ Hsep))).
  - vm_compute. discriminate.
  - vm_compute. reflexivity.
  - vm_compute. reflexivity.
  - intros n Hn. vm_compute in Hn. injection Hn as <-. vm_compute. reflexivity.
Defined.

(** One iteration of [updateImportMap], as far as the edge between the
    source and the target goes. *)
Lemma updateImportEntry_edge (file : loc) (st : Store)
    (graph : DependencyGraph) (path : string) (d : loc) :
  let r := updateImportEntry file (st, graph) (path, d) in
  exists n,
    r.2 = <[path := n]> graph
    /\ (forall n0, graph !! path = Some n0 -> n = n0)
    /\ imports_internal (nodes r.1 !!! file)
       = match imports_internal (nodes st !!! file) !! path with
         | Some _ => imports_internal (nodes st !!! file)
         | None => <[path := d]> (imports_internal (nodes st !!! file))
         end
    /\ is_Some (node_imported (nodes r.1 !!! n))
    /\ (forall m, is_Some (node_imported (nodes st !!! m)) ->
          is_Some (node_imported (nodes r.1 !!! m))).
Proof.
  unfold updateImportEntry.
  match goal with
  | |- context [getOrCreateFileNode ?s graph path] => set (st1 := s)
  end.
  assert (H1 : imports_internal (nodes st1 !!! file)
               = match imports_internal (nodes st !!! file) !! path with
                 | Some _ => imports_internal (nodes st !!! file)
                 | None => <[path := d]> (imports_internal (nodes st !!! file))
                 end
               /\ (forall m, node_imported (nodes st1 !!! m)
                             = node_imported (nodes st !!! m))
               /\ file ∈ dom (nodes st1)).
  { subst st1.
    destruct (imports_internal (nodes st !!! file) !! path) as [x|] eqn:Hint.
    - rewrite nodes_updateImportDetails. split; [done |]. split; [done |].
      apply elem_of_dom. destruct (nodes st !! file) as [node|] eqn:Hfile;
        [by eexists |].
      rewrite lookup_total_alt, Hfile in Hint. done.
    - cbn [nodes with_nodes]. split; [| split].
      + by rewrite lookup_total_insert_eq.
      + intros m. apply imported_after_internal.
      + rewrite dom_insert. set_solver. }
  clearbody st1. destruct H1 as (Hint1 & Himp1 & Hfile1).
  destruct (getOrCreateFileNode st1 graph path) as [n st2] eqn:Hget.
  assert (H2 : (forall n0, graph !! path = Some n0 -> n = n0)
               /\ forall m, nodes st2 !!! m = nodes st1 !!! m).
  { unfold getOrCreateFileNode in Hget.
    destruct (graph !! path) as [n'|].
    - injection Hget as -> ->. split; [by intros n0 [= ->] | done].
    - unfold createFileNode, newNode in Hget. injection Hget as <- <-.
      split; [done |]. intros m. cbn [nodes with_nodes].
      destruct (decide (m = fresh (dom (nodes st1)))) as [-> | Hm].
      + rewrite lookup_total_insert_eq, lookup_total_alt.
        assert (nodes st1 !! fresh (dom (nodes st1)) = None) as ->; [| done].
        apply not_elem_of_dom, is_fresh.
      + by rewrite lookup_total_insert_ne. }
  destruct H2 as (Hreg & Hsame). cbv zeta. cbn [fst snd].
  exists n. split; [done |]. split; [exact Hreg |].
  destruct (node_imported (nodes st2 !!! n)) as [agg|] eqn:Hagg.
  - rewrite nodes_updateImportDetails. rewrite !Hsame.
    split; [exact Hint1 |]. rewrite Hsame in Hagg. split; [by rewrite Hagg |].
    intros m. by rewrite Hsame, Himp1.
  - cbn [nodes with_nodes]. split; [| split].
    + destruct (decide (file = n)) as [<- | Hne].
      * rewrite lookup_total_insert_eq. cbn. by rewrite Hsame.
      * by rewrite lookup_total_insert_ne, Hsame.
    + by rewrite lookup_total_insert_eq.
    + intros m Hm. destruct (decide (m = n)) as [-> | Hne].
      * by rewrite lookup_total_insert_eq.
      * by rewrite lookup_total_insert_ne, Hsame, Himp1.
Qed.

Lemma updateImportMap_edges (file : loc) (importMap : list (string * loc)) :
  forall (graph : DependencyGraph) (st : Store),
    let r := updateImportMap file importMap graph st in
    dom (imports_internal (nodes r.1 !!! file))
    = dom (imports_internal (nodes st !!! file)) ∪ list_to_set importMap.*1
    /\ (forall t n, graph !! t = Some n -> r.2 !! t = Some n)
    /\ (forall m, is_Some (node_imported (nodes st !!! m)) ->
          is_Some (node_imported (nodes r.1 !!! m)))
    /\ (forall t, t ∈ importMap.*1 ->
          exists n, r.2 !! t = Some n
                    /\ is_Some (node_imported (nodes r.1 !!! n))).
Proof.
  unfold updateImportMap.
  induction importMap as [|[path d] importMap IH]; intros graph st; cbn [foldl].
  { cbn. split; [set_solver |]. split; [done |]. split; [done |].
    by intros t Ht%elem_of_nil. }
  pose proof (updateImportEntry_edge file st graph path d) as Hstep.
  destruct (updateImportEntry file (st, graph) (path, d)) as [st1 graph1].
  cbv zeta in Hstep. cbn [fst snd] in Hstep.
  destruct Hstep as (n & -> & Hreg & Hint & Hn & Himp).
  destruct (IH (<[path := n]> graph) st1) as (I1 & I2 & I3 & I4).
  cbv zeta in *. split; [| split; [| split]].
  - rewrite I1, Hint. cbn [fmap list_fmap fst list_to_set].
    destruct (imports_internal (nodes st !!! file) !! path) as [x|] eqn:Hp.
    + assert (path ∈ dom (imports_internal (nodes st !!! file)))
        by (apply elem_of_dom; by eexists).
      set_solver.
    + rewrite dom_insert_L. set_solver.
  - intros t n0 Ht. apply I2. destruct (decide (t = path)) as [-> | Hne].
    + rewrite lookup_insert_eq. f_equal. by apply Hreg.
    + by rewrite lookup_insert_ne.
  - intros m Hm. by apply I3, Himp.
  - intros t Ht. cbn [fmap list_fmap fst] in Ht.
    apply elem_of_cons in Ht as [-> | Ht]; [| by apply I4].
    exists n. split; [apply I2; by rewrite lookup_insert_eq | by apply I3].
Qed.

(** X20. Every edge is recorded at both ends. After [updateImportMap], the
    [imports.internal] map of the source has the keys it had and the keys of
    the import map; and for every key of the import map the graph holds a
    node of the store whose [imported] is set. *)
Theorem edges_recorded (file : loc) (importMap : list (string * loc))
    (graph : DependencyGraph) (st : Store) :
  let r := updateImportMap file importMap graph st in
  dom (imports_internal (nodes r.1 !!! file))
  = dom (imports_internal (nodes st !!! file)) ∪ list_to_set importMap.*1
  /\ (forall t, t ∈ importMap.*1 ->
        exists n node,
          r.2 !! t = Some n /\ nodes r.1 !! n = Some node
          /\ is_Some (node_imported node)).
Proof.
  intros r.
  destruct (updateImportMap_edges file importMap graph st) as (H1 & _ & _ & H4).
  split; [exact H1 |]. intros t Ht.
  destruct (H4 t Ht) as (n & Hn & Himp). fold r in Hn, Himp.
  exists n, (nodes r.1 !!! n). split; [done |]. split; [| done].
  destruct (nodes r.1 !! n) as [node|] eqn:Hnode.
  - by rewrite (lookup_total_correct _ _ _ Hnode).
  - rewrite lookup_total_alt, Hnode in Himp. by destruct Himp.
Qed.

Lemma node_records_kept_witness :
  let r := updateImportMap (nodeA project) importMapA (graph0 project)
             (store0 project) in
  r.2 !! "B.ts" = graph0 project !! "B.ts"
  /\ exists node',
       nodes r.1 !! nodeB project = Some node'
       /\ imports_external node' = imports_external emptyFileNode
       /\ imports_unresolved node' = imports_unresolved emptyFileNode
       /\ exports node' = exports emptyFileNode
       /\ duplicates node' = duplicates emptyFileNode
       /\ scripts node' = scripts emptyFileNode
       /\ traceRefs node' = traceRefs emptyFileNode
       /\ (nodeB project <> nodeA project ->
           imports_internal node' = imports_internal emptyFileNode)
       /\ (forall p, p ∉ importMapA.*1 ->
             imports_internal node' !! p = imports_internal emptyFileNode !! p)
       /\ ((forall p, p ∈ importMapA.*1 ->
              graph0 project !! p <> Some (nodeB project)) ->
           node_imported node' = node_imported emptyFileNode).
Proof.
  intros r.
  destruct (node_records_kept (nodeA project) importMapA (graph0 project)
              (store0 project)) as (Hgraph & _ & Hnodes).
  split.
  - apply Hgraph. vm_compute. intros Hin.
    apply list_elem_of_singleton in Hin. discriminate Hin.
  - apply (Hnodes (nodeB project) emptyFileNode). vm_compute. reflexivity.
Defined.

Lemma edges_recorded_witness :
  let r := updateImportMap (nodeA project) importMapA (graph0 project)
             (store0 project) in
  "C.ts" ∈ importMapA.*1
  /\ exists n node,
       r.2 !! "C.ts" = Some n /\ nodes r.1 !! n = Some node
       /\ is_Some (node_imported node).
Proof.
  intros r.
  assert (Hin : "C.ts" ∈ importMapA.*1).
  { apply list_elem_of_singleton. reflexivity. }
  split; [exact Hin |].
  exact (proj2 (edges_recorded (nodeA project) importMapA (graph0 project)
                  (store0 project)) "C.ts" Hin).
Defined.

(** ** The values the constructors build *)

(** *** Objects and paths *)

Lemma object_nsField (g : NsField) (n : loc) (d : ImportDetails) :
  (g, n) ∈ nsObjects d -> nsField g d = n.
Proof.
  unfold nsObjects. rewrite !elem_of_cons, elem_of_nil.
  intros [[= -> ->] | [[= -> ->] | []]]; done.
Qed.

Lemma object_mapAt (st : Store) (d : ImportDetails) (q : MapPath) (m : loc) :
  (q, m) ∈ mapObjects st d -> mapAt st d q = Some m.
Proof.
  unfold mapObjects. rewrite elem_of_app.
  intros [(f & [= -> ->] & _)%list_elem_of_fmap | Hin]; [done |].
  apply list_elem_of_bind in Hin as (g & Hin & _).
  apply list_elem_of_fmap in Hin as ([id m'] & [= -> ->] & Hin).
  by apply elem_of_map_to_list in Hin.
Qed.

Lemma object_setAt (st : Store) (d : ImportDetails) (p : SetPath) (l : loc) :
  (p, l) ∈ setObjects st d -> setAt st d p = Some l.
Proof.
  unfold setObjects. rewrite elem_of_cons, elem_of_app.
  intros [[= -> ->] | [Hin | Hin]]; [done | |].
  - apply list_elem_of_bind in Hin as (f & Hin & _).
    apply list_elem_of_fmap in Hin as ([id l'] & [= -> ->] & Hin).
    by apply elem_of_map_to_list in Hin.
  - apply list_elem_of_bind in Hin as (g & Hin & _).
    apply list_elem_of_bind in Hin as ([id m] & Hin & Hm).
    apply list_elem_of_fmap in Hin as ([ns l'] & [= -> ->] & Hin).
    apply elem_of_map_to_list in Hin, Hm. cbn [fst snd] in *.
    apply setAt_ns_inv. by exists m.
Qed.

Lemma NoDup_idFields : NoDup idFields.
Proof. unfold idFields. repeat constructor; set_solver. Qed.

Lemma NoDup_nsFields : NoDup nsFields.
Proof. unfold nsFields. repeat constructor; set_solver. Qed.

Lemma NoDup_nsObjects (d : ImportDetails) :
  NoDup (nsObjects d).
Proof.
  unfold nsObjects. repeat constructor; [| set_solver].
  intros [= ?]%list_elem_of_singleton.
Qed.

Lemma NoDup_mapObjects (st : Store) (d : ImportDetails) :
  NoDup (mapObjects st d).
Proof.
  unfold mapObjects. apply NoDup_app. split; [| split].
  - apply NoDup_fmap_2_strong; [| apply NoDup_idFields].
    by intros f f' _ _ [= ->].
  - intros x (f & -> & _)%list_elem_of_fmap Hin.
    apply list_elem_of_bind in Hin as (g & Hin & _).
    by apply list_elem_of_fmap in Hin as (e & [= _ _] & _).
  - apply NoDup_bind; [| | apply NoDup_nsFields].
    + intros g1 g2 x _ _ (e1 & -> & _)%list_elem_of_fmap
        (e2 & [= -> _ _] & _)%list_elem_of_fmap. done.
    + intros g _. apply NoDup_fmap_2_strong; [| apply NoDup_map_to_list].
      intros [id1 m1] [id2 m2] _ _ [= -> ->]. done.
Qed.

Lemma NoDup_setObjects (st : Store) (d : ImportDetails) :
  NoDup (setObjects st d).
Proof.
  unfold setObjects. apply NoDup_cons. split.
  { intros [Hin | Hin]%elem_of_app.
    - apply list_elem_of_bind in Hin as (f & Hin & _).
      by apply list_elem_of_fmap in Hin as (e & [= _ _] & _).
    - apply list_elem_of_bind in Hin as (g & Hin & _).
      apply list_elem_of_bind in Hin as (e & Hin & _).
      by apply list_elem_of_fmap in Hin as (e' & [= _ _] & _). }
  apply NoDup_app. split; [| split].
  - apply NoDup_bind; [| | apply NoDup_idFields].
    + intros f1 f2 x _ _ (e1 & -> & _)%list_elem_of_fmap
        (e2 & [= -> _ _] & _)%list_elem_of_fmap. done.
    + intros f _. apply NoDup_fmap_2_strong; [| apply NoDup_map_to_list].
      intros [id1 m1] [id2 m2] _ _ [= -> ->]. done.
  - intros x Hin1 Hin2.
    apply list_elem_of_bind in Hin1 as (f & Hin1 & _).
    apply list_elem_of_fmap in Hin1 as (e & -> & _).
    apply list_elem_of_bind in Hin2 as (g & Hin2 & _).
    apply list_elem_of_bind in Hin2 as (e2 & Hin2 & _).
    by apply list_elem_of_fmap in Hin2 as (e' & [= _ _] & _).
  - apply NoDup_bind; [| | apply NoDup_nsFields].
    + intros g1 g2 x _ _ Hin1 Hin2.
      apply list_elem_of_bind in Hin1 as (e1 & Hin1 & _).
      apply list_elem_of_fmap in Hin1 as (e1' & -> & _).
      apply list_elem_of_bind in Hin2 as (e2 & Hin2 & _).
      by apply list_elem_of_fmap in Hin2 as (e2' & [= -> _ _ _] & _).
    + intros g _. apply NoDup_bind; [| | apply NoDup_map_to_list].
      * intros [id1 m1] [id2 m2] x Hm1 Hm2 Hin1 Hin2.
        apply list_elem_of_fmap in Hin1 as (e1' & -> & _).
        apply list_elem_of_fmap in Hin2 as (e2' & [= Hid _ _] & _).
        cbn [fst] in Hid. subst id2.
        apply elem_of_map_to_list in Hm1, Hm2. congruence.
      * intros e _. apply NoDup_fmap_2_strong; [| apply NoDup_map_to_list].
        intros [id1 m1] [id2 m2] _ _ [= -> ->]. done.
Qed.

(** *** Lists of objects and paths to objects *)

Lemma objects_one_value {P : Type} (F : ImportDetails -> list (P * loc))
    (ds : list ImportDetails) :
  (forall d, F d <> []) ->
  NoDup ((ds ≫= F).*2) ->
  NoDup ds
  /\ forall d1 d2 p1 p2 l, d1 ∈ ds -> d2 ∈ ds ->
       (p1, l) ∈ F d1 -> (p2, l) ∈ F d2 -> d1 = d2.
Proof.
  intros Hne. induction ds as [|d ds IH]; intros Hnd.
  { split; [constructor |]. by intros ? ? ? ? ? ?%elem_of_nil. }
  rewrite bind_cons, fmap_app in Hnd.
  apply NoDup_app in Hnd as (Hd & Hdisj & Hds).
  destruct (IH Hds) as (IH1 & IH2).
  assert (Hin : forall d' p l, d' ∈ ds -> (p, l) ∈ F d' -> l ∈ (ds ≫= F).*2).
  { intros d' p l Hd' Hp. apply list_elem_of_fmap. exists (p, l).
    split; [done |]. apply list_elem_of_bind. by exists d'. }
  assert (Hfst : forall p l, (p, l) ∈ F d -> l ∈ (F d).*2).
  { intros p l Hp. apply list_elem_of_fmap. by exists (p, l). }
  split.
  - apply NoDup_cons. split; [| done]. intros Hdin.
    destruct (F d) as [|[p l] xs] eqn:HF; [by apply (Hne d) |].
    apply (Hdisj l).
    + rewrite <- HF in *. apply (Hfst p). rewrite HF. left.
    + apply (Hin d p); [done |]. rewrite HF. left.
  - intros d1 d2 p1 p2 l [-> | H1]%elem_of_cons [-> | H2]%elem_of_cons G1 G2.
    + done.
    + destruct (Hdisj l); [by apply (Hfst p1) | by apply (Hin d2 p2)].
    + destruct (Hdisj l); [by apply (Hfst p2) | by apply (Hin d1 p1)].
    + by apply (IH2 d1 d2 p1 p2 l).
Qed.

Lemma objects_NoDup {P : Type} (F : ImportDetails -> list (P * loc))
    (ds : list ImportDetails) :
  NoDup ds ->
  (forall d, d ∈ ds -> NoDup (F d).*2) ->
  (forall d1 d2 p1 p2 l, d1 ∈ ds -> d2 ∈ ds ->
     (p1, l) ∈ F d1 -> (p2, l) ∈ F d2 -> d1 = d2) ->
  NoDup ((ds ≫= F).*2).
Proof.
  induction ds as [|d ds IH]; intros Hnd Hone Hinj; [constructor |].
  apply NoDup_cons in Hnd as [Hd Hnd].
  rewrite bind_cons, fmap_app. apply NoDup_app. split; [| split].
  - apply Hone. left.
  - intros l ([p1 l1] & -> & H1)%list_elem_of_fmap
      ([p2 l2] & Heq & H2)%list_elem_of_fmap.
    cbn [snd] in *. subst l2.
    apply list_elem_of_bind in H2 as (d2 & H2 & Hd2).
    apply Hd. rewrite (Hinj d d2 p1 p2 l1); [done | left | by right | done..].
  - apply IH; [done | |].
    + intros d' Hd'. apply Hone. by right.
    + intros d1 d2 p1 p2 l H1 H2. apply Hinj; by right.
Qed.

Lemma one_value_NoDup {P : Type} (xs : list (P * loc)) :
  NoDup xs ->
  (forall p1 p2 l, (p1, l) ∈ xs -> (p2, l) ∈ xs -> p1 = p2) ->
  NoDup xs.*2.
Proof.
  intros Hnd Hinj. apply NoDup_fmap_2_strong; [| done].
  intros [p1 l1] [p2 l2] H1 H2. cbn. intros ->.
  by rewrite (Hinj p1 p2 l2).
Qed.

Lemma separate_onePlace (st : Store) (ds : list ImportDetails) :
  separate st ds <-> onePlace st ds.
Proof.
  split.
  - intros Hsep. pose proof (separate_positional _ _ Hsep) as (P1 & P2 & P3).
    destruct Hsep as (S1 & S2 & S3).
    destruct (objects_one_value nsObjects ds) as (Hnd & I1); [done | done |].
    destruct (objects_one_value (mapObjects st) ds) as (_ & I2); [done | done |].
    destruct (objects_one_value (setObjects st) ds) as (_ & I3); [done | done |].
    split; [done |]. split; [| split].
    + intros d1 d2 g1 g2 H1 H2 Heq. split; [| by apply (P1 d1 d2)].
      apply (I1 d1 d2 g1 g2 (nsField g1 d1)); [done | done | |].
      * apply nsField_object.
      * rewrite Heq. apply nsField_object.
    + intros d1 d2 q1 q2 m H1 H2 G1 G2. split; [| by apply (P2 d1 d2 q1 q2 m)].
      apply (I2 d1 d2 q1 q2 m); try done; by apply mapAt_object.
    + intros d1 d2 p1 p2 l H1 H2 G1 G2. split; [| by apply (P3 d1 d2 p1 p2 l)].
      apply (I3 d1 d2 p1 p2 l); try done; by apply setAt_object.
  - intros (Hnd & O1 & O2 & O3). split; [| split].
    + apply objects_NoDup; [done | |].
      * intros d Hd. apply one_value_NoDup; [apply NoDup_nsObjects |].
        intros g1 g2 n H1%object_nsField H2%object_nsField.
        apply (O1 d d g1 g2 Hd Hd). congruence.
      * intros d1 d2 g1 g2 n H1 H2 G1%object_nsField G2%object_nsField.
        apply (O1 d1 d2 g1 g2 H1 H2). congruence.
    + apply objects_NoDup; [done | |].
      * intros d Hd. apply one_value_NoDup; [apply NoDup_mapObjects |].
        intros q1 q2 m H1%object_mapAt H2%object_mapAt.
        by apply (O2 d d q1 q2 m Hd Hd).
      * intros d1 d2 q1 q2 m H1 H2 G1%object_mapAt G2%object_mapAt.
        by apply (O2 d1 d2 q1 q2 m H1 H2).
    + apply objects_NoDup; [done | |].
      * intros d Hd. apply one_value_NoDup; [apply NoDup_setObjects |].
        intros p1 p2 l H1%object_setAt H2%object_setAt.
        by apply (O3 d d p1 p2 l Hd Hd).
      * intros d1 d2 p1 p2 l H1 H2 G1%object_setAt G2%object_setAt.
        by apply (O3 d1 d2 p1 p2 l H1 H2).
Qed.

Lemma allocated_held (st : Store) (d : ImportDetails) :
  allocated st d <-> held st d.
Proof.
  unfold allocated, held. rewrite !Forall_forall. split.
  - intros (A1 & A2 & A3). split; [| split].
    + intros g. apply (A1 (g, nsField g d)), nsField_object.
    + intros q m Hm. by apply (A2 (q, m)), mapAt_object.
    + intros p l Hl. by apply (A3 (p, l)), setAt_object.
  - intros (H1 & H2 & H3). split; [| split].
    + intros [g n] <-%object_nsField. apply H1.
    + intros [q m] Hm%object_mapAt. by apply (H2 q m).
    + intros [p l] Hl%object_setAt. by apply (H3 p l).
Qed.

Lemma built_paths (st : Store) (ds : list ImportDetails) :
  built st ds <-> onePlace st ds /\ forall d, d ∈ ds -> held st d.
Proof.
  unfold built. rewrite separate_onePlace, Forall_forall.
  split; intros [H1 H2]; (split; [done |]);
    intros d Hd; by apply allocated_held, H2.
Qed.

(** *** Paths through a map *)

Lemma setAt_under (st : Store) (d : ImportDetails) (q : MapPath) (m : loc)
    (id : string) :
  mapAt st d q = Some m ->
  setAt st d (setUnder q id) = (idmaps st !!! m) !! id.
Proof.
  destruct q as [f | g i]; cbn [mapAt setUnder setAt].
  - by intros [= <-].
  - by intros ->.
Qed.

Lemma setAt_under_none (st : Store) (d : ImportDetails) (q : MapPath)
    (id : string) :
  mapAt st d q = None -> setAt st d (setUnder q id) = None.
Proof.
  destruct q as [f | g i]; cbn [mapAt setUnder setAt]; [done |].
  by intros ->.
Qed.

Lemma setPath_cases (p : SetPath) :
  p = AtRefs \/ exists q id, p = setUnder q id.
Proof.
  destruct p as [| f id | g i id]; [by left | right | right].
  - by exists (AtField f), id.
  - by exists (AtEntry g i), id.
Qed.

Lemma setUnder_inj (q q' : MapPath) (id id' : string) :
  setUnder q id = setUnder q' id' -> q = q' /\ id = id'.
Proof. destruct q, q'; cbn; intros [= ]; by subst. Qed.

Lemma idmapContent_agree (st st' : Store) (m : loc) :
  idmaps st' !!! m = idmaps st !!! m ->
  (forall id l, (idmaps st !!! m) !! id = Some l ->
     sets st' !!! l = sets st !!! l) ->
  idmapContent st' m = idmapContent st m.
Proof.
  intros Hm Hsets. unfold idmapContent. rewrite Hm.
  apply map_fmap_ext. intros id l Hl. by apply (Hsets id l).
Qed.

Lemma contentOf_agree (st st' : Store) (d : ImportDetails) :
  (forall g, nsmaps st' !!! nsField g d = nsmaps st !!! nsField g d) ->
  (forall q m, mapAt st d q = Some m -> idmaps st' !!! m = idmaps st !!! m) ->
  (forall p l, setAt st d p = Some l -> sets st' !!! l = sets st !!! l) ->
  contentOf st' d = contentOf st d.
Proof.
  intros Hns Hmap Hset.
  assert (Hid : forall f, idmapContent st' (idField f d)
                          = idmapContent st (idField f d)).
  { intros f. apply idmapContent_agree; [by apply (Hmap (AtField f)) |].
    intros id l Hl. by apply (Hset (AtId f id)). }
  assert (Hnsc : forall g, nsmapContent st' (nsField g d)
                           = nsmapContent st (nsField g d)).
  { intros g. unfold nsmapContent. rewrite Hns.
    apply map_fmap_ext. intros i m Hm.
    apply idmapContent_agree; [by apply (Hmap (AtEntry g i)) |].
    intros id l Hl. apply (Hset (AtNs g i id)). cbn [setAt]. rewrite Hm.
    done. }
  unfold contentOf. f_equal.
  - by apply (Hset AtRefs).
  - apply (Hid FImported).
  - apply (Hnsc FImportedAs).
  - apply (Hid FImportedNs).
  - apply (Hid FReExported).
  - apply (Hnsc FReExportedAs).
  - apply (Hid FReExportedNs).
Qed.

(** *** [addValue] on a map of a value *)

Lemma addValue_at (st : Store) (ds : list ImportDetails) (d : ImportDetails)
    (q : MapPath) (m : loc) (id v : string) :
  onePlace st ds ->
  (forall x, x ∈ ds -> held st x) ->
  d ∈ ds ->
  mapAt st d q = Some m ->
  let st' := addValue m id v st in
  onePlace st' ds
  /\ (forall x, x ∈ ds -> held st' x)
  /\ nsmaps st' = nsmaps st /\ details st' = details st /\ nodes st' = nodes st
  /\ (forall x q', mapAt st' x q' = mapAt st x q')
  /\ idmapContent st' m = contentAdd id v (idmapContent st m)
  /\ (forall x q' m', x ∈ ds -> mapAt st x q' = Some m' -> m' <> m ->
        idmapContent st' m' = idmapContent st m')
  /\ (forall x, x ∈ ds -> setContent st' (refs x) = setContent st (refs x)).
Proof.
  intros (Hnd & O1 & O2 & O3) Hheld Hd Hm. unfold addValue.
  destruct ((idmaps st !!! m) !! id) as [t|] eqn:Hid.
  - (* the identifier is known: its set receives the value *)
    assert (Ht : setAt st d (setUnder q id) = Some t).
    { by rewrite (setAt_under _ _ _ _ _ Hm). }
    assert (Hother : forall x p l, x ∈ ds -> setAt st x p = Some l ->
              (x, p) <> (d, setUnder q id) ->
              sets (setAdd t v st) !!! l = sets st !!! l).
    { intros x p l Hx Hl Hne. cbn [setAdd sets with_sets].
      apply lookup_total_insert_ne. intros <-.
      destruct (O3 x d p (setUnder q id) t Hx Hd Hl Ht) as [-> ->]. done. }
    cbv zeta. split; [by split |]. split.
    { intros x Hx. destruct (Hheld x Hx) as (H1 & H2 & H3).
      split; [exact H1 |]. split; [exact H2 |].
      intros p l Hl. cbn [setAdd sets with_sets]. rewrite dom_insert.
      apply elem_of_union. right. by apply (H3 p l). }
    split; [done |]. split; [done |]. split; [done |]. split; [done |].
    split; [| split].
    + unfold idmapContent, contentAdd. cbn [setAdd idmaps with_sets].
      rewrite lookup_fmap, Hid. cbn [fmap option_fmap option_map default].
      apply map_eq. intros k. destruct (decide (k = id)) as [-> | Hk].
      * rewrite lookup_insert_eq, lookup_fmap, Hid. cbn.
        unfold setContent, setAdd. cbn [sets with_sets].
        by rewrite lookup_total_insert_eq.
      * rewrite lookup_insert_ne, !lookup_fmap by done.
        destruct ((idmaps st !!! m) !! k) as [l|] eqn:Hl; [| done]. cbn.
        f_equal. apply (Hother d (setUnder q k) l Hd).
        -- by rewrite (setAt_under _ _ _ _ _ Hm).
        -- intros [= (_ & ?)%setUnder_inj]. done.
    + intros x q' m' Hx Hm' Hne. apply idmapContent_agree; [done |].
      intros k l Hl. apply (Hother x (setUnder q' k) l Hx).
      * by rewrite (setAt_under _ _ _ _ _ Hm').
      * intros [= -> (-> & _)%setUnder_inj]. congruence.
    + intros x Hx. apply (Hother x AtRefs (refs x) Hx); [done |].
      intros [= _ Hp]. by destruct q.
  - (* a new identifier: a new set *)
    unfold newSet. cbn [fst snd].
    set (t := fresh (dom (sets st))).
    set (st' := idmapSet m id t (with_sets st (<[t := {[v]}]> (sets st)))).
    cbv zeta.
    assert (Hfresh : forall x p, x ∈ ds -> setAt st x p <> Some t).
    { intros x p Hx Hl. destruct (Hheld x Hx) as (_ & _ & H3).
      apply (is_fresh (dom (sets st))). by apply (H3 p t). }
    assert (Hmaps : forall x q', mapAt st' x q' = mapAt st x q') by done.
    assert (Hidm : forall x q' m', x ∈ ds -> mapAt st x q' = Some m' ->
              idmaps st' !!! m'
              = if decide (x = d /\ q' = q) then <[id := t]> (idmaps st !!! m)
                else idmaps st !!! m').
    { intros x q' m' Hx Hm'. unfold st', idmapSet; cbn [idmaps with_idmaps with_sets].
      destruct (decide (x = d /\ q' = q)) as [[-> ->] | Hne].
      - assert (m' = m) as -> by congruence. by rewrite lookup_total_insert_eq.
      - apply lookup_total_insert_ne. intros <-.
        apply Hne. by apply (O2 x d q' q m). }
    assert (Hnew : setAt st' d (setUnder q id) = Some t).
    { rewrite (setAt_under st' d q m id) by done.
      rewrite (Hidm d q m Hd Hm), decide_True by done.
      by rewrite lookup_insert_eq. }
    assert (Hold : forall x p, x ∈ ds -> (x, p) <> (d, setUnder q id) ->
              setAt st' x p = setAt st x p).
    { intros x p Hx Hne.
      destruct (setPath_cases p) as [-> | (q' & k & ->)]; [done |].
      destruct (mapAt st x q') as [m'|] eqn:Hm'.
      - rewrite (setAt_under st' x q' m' k), (setAt_under st x q' m' k) by done.
        rewrite (Hidm x q' m' Hx Hm').
        destruct (decide (x = d /\ q' = q)) as [[-> ->] | Hne']; [| done].
        assert (m' = m) as -> by congruence.
        rewrite lookup_insert_ne; [done |]. intros ->. by apply Hne.
      - by rewrite !setAt_under_none. }
    assert (Hsets : forall x p l, x ∈ ds -> setAt st x p = Some l ->
              sets st' !!! l = sets st !!! l).
    { intros x p l Hx Hl. unfold st', idmapSet; cbn [sets with_idmaps with_sets].
      apply lookup_total_insert_ne. intros <-. by apply (Hfresh x p). }
    split; [| split; [| split; [| split; [| split; [| split; [| split; [| split]]]]]]];
      try done.
    + split; [done |]. split; [exact O1 |]. split; [exact O2 |].
      intros d1 d2 p1 p2 l H1 H2 G1 G2.
      destruct (decide ((d1, p1) = (d, setUnder q id))) as [[= -> ->] | N1],
               (decide ((d2, p2) = (d, setUnder q id))) as [[= -> ->] | N2].
      * done.
      * rewrite Hnew in G1. injection G1 as <-.
        rewrite (Hold d2 p2 H2 N2) in G2. by destruct (Hfresh d2 p2 H2).
      * rewrite Hnew in G2. injection G2 as <-.
        rewrite (Hold d1 p1 H1 N1) in G1. by destruct (Hfresh d1 p1 H1).
      * rewrite (Hold d1 p1 H1 N1) in G1. rewrite (Hold d2 p2 H2 N2) in G2.
        by apply (O3 d1 d2 p1 p2 l).
    + intros x Hx. destruct (Hheld x Hx) as (H1 & H2 & H3).
      split; [exact H1 |]. split.
      * intros q' m' Hm'. unfold st', idmapSet; cbn [idmaps with_idmaps with_sets].
        rewrite dom_insert. apply elem_of_union. right. by apply (H2 q' m').
      * intros p l Hl. unfold st', idmapSet; cbn [sets with_idmaps with_sets].
        rewrite dom_insert.
        destruct (decide ((x, p) = (d, setUnder q id))) as [[= -> ->] | N].
        -- rewrite Hnew in Hl. injection Hl as <-. set_solver.
        -- rewrite (Hold x p Hx N) in Hl. apply elem_of_union. right.
           by apply (H3 p l).
    + unfold idmapContent, contentAdd.
      rewrite (Hidm d q m Hd Hm), decide_True by done.
      rewrite lookup_fmap, Hid. cbn [fmap option_fmap option_map default].
      rewrite fmap_insert, union_empty_r_L. f_equal.
      * unfold setContent. unfold st', idmapSet; cbn [sets with_idmaps with_sets].
        by rewrite lookup_total_insert_eq.
      * apply map_fmap_ext. intros k l Hl.
        apply (Hsets d (setUnder q k) l Hd).
        by rewrite (setAt_under _ _ _ _ _ Hm).
    + intros x q' m' Hx Hm' Hne. apply idmapContent_agree.
      * rewrite (Hidm x q' m' Hx Hm'), decide_False; [done |].
        intros [-> ->]. congruence.
      * intros k l Hl. apply (Hsets x (setUnder q' k) l Hx).
        by rewrite (setAt_under _ _ _ _ _ Hm').
    + intros x Hx. by apply (Hsets x AtRefs (refs x) Hx).
Qed.

Lemma nsmapContent_other (st st' : Store) (ds : list ImportDetails)
    (x : ImportDetails) (g : NsField) (m : loc) :
  nsmaps st' = nsmaps st ->
  (forall i m', mapAt st x (AtEntry g i) = Some m' -> m' <> m) ->
  (forall q' m', mapAt st x q' = Some m' -> m' <> m ->
     idmapContent st' m' = idmapContent st m') ->
  nsmapContent st' (nsField g x) = nsmapContent st (nsField g x).
Proof.
  intros Hns Hne Hother. unfold nsmapContent. rewrite Hns.
  apply map_fmap_ext. intros i m' Hm'.
  apply (Hother (AtEntry g i)); [done |]. by apply (Hne i).
Qed.

(** X21. [addValue] keeps what the constructors build. When [map] is one of the
    identifier-keyed maps of a built value [d], [addValue(map, id, value)]
    leaves the values built: separate, with their objects in the store. In
    content, the value set of [id] in that map receives [value], a new
    singleton if [id] was not a key; every other member of [d], and every
    other value, holds what it held. *)
Theorem addValue_builds (st : Store) (ds : list ImportDetails)
    (d : ImportDetails) (f : IdField) (id value : string) :
  built st ds ->
  d ∈ ds ->
  let st' := addValue (idField f d) id value st in
  built st' ds
  /\ idmapContent st' (idField f d)
     = contentAdd id value (idmapContent st (idField f d))
  /\ (forall f', f' <> f ->
        idmapContent st' (idField f' d) = idmapContent st (idField f' d))
  /\ (forall g, nsmapContent st' (nsField g d) = nsmapContent st (nsField g d))
  /\ setContent st' (refs d) = setContent st (refs d)
  /\ (forall x, x ∈ ds -> x <> d -> contentOf st' x = contentOf st x).
Proof.
  intros [Hone Hheld]%built_paths Hd.
  destruct (addValue_at st ds d (AtField f) (idField f d) id value
              Hone Hheld Hd eq_refl)
    as (Hone' & Hheld' & Hns & _ & _ & Hmaps & Hadd & Hother & Hrefs).
  destruct Hone as (Hnd & O1 & O2 & O3).
  cbv zeta in *.
  assert (Hfield : forall x f', x ∈ ds -> (x, f') <> (d, f) ->
            idmapContent (addValue (idField f d) id value st) (idField f' x)
            = idmapContent st (idField f' x)).
  { intros x f' Hx Hne. apply (Hother x (AtField f')); [done | done |].
    intros Heq.
    pose proof (O2 x d (AtField f') (AtField f) (idField f d) Hx Hd) as H.
    cbn [mapAt] in H. rewrite Heq in H.
    destruct (H eq_refl eq_refl) as [-> [= ->]]. by apply Hne. }
  assert (Hnsc : forall x g, x ∈ ds ->
            nsmapContent (addValue (idField f d) id value st) (nsField g x)
            = nsmapContent st (nsField g x)).
  { intros x g Hx. apply (nsmapContent_other st _ ds x g (idField f d));
      [done | |].
    - intros i m' Hm' ->.
      by destruct (O2 x d (AtEntry g i) (AtField f) (idField f d) Hx Hd
                     Hm' eq_refl) as [_ [=]].
    - intros q' m' Hm' Hne. by apply (Hother x q'). }
  split; [by apply built_paths |]. split; [exact Hadd |].
  split; [intros f' Hf; apply Hfield; [done | congruence] |].
  split; [intros g; by apply Hnsc |]. split; [by apply Hrefs |].
  intros x Hx Hne. unfold contentOf. f_equal.
  - by apply Hrefs.
  - apply (Hfield x FImported); [done | congruence].
  - by apply (Hnsc x FImportedAs).
  - apply (Hfield x FImportedNs); [done | congruence].
  - apply (Hfield x FReExported); [done | congruence].
  - by apply (Hnsc x FReExportedAs).
  - apply (Hfield x FReExportedNs); [done | congruence].
Qed.

Lemma addNsValue_known (map inner : loc) (id ns value : string) (st : Store) :
  (nsmaps st !!! map) !! id = Some inner ->
  addNsValue map id ns value st = addValue inner ns value st.
Proof. intros H. unfold addNsValue, addValue. by rewrite H. Qed.

(** *** [addNsValue] for an identifier the map does not hold *)

Lemma addNsValue_new (st : Store) (ds : list ImportDetails)
    (d : ImportDetails) (g : NsField) (id ns v : string) :
  onePlace st ds ->
  (forall x, x ∈ ds -> held st x) ->
  d ∈ ds ->
  (nsmaps st !!! nsField g d) !! id = None ->
  let st' := addNsValue (nsField g d) id ns v st in
  onePlace st' ds
  /\ (forall x, x ∈ ds -> held st' x)
  /\ nsmapContent st' (nsField g d)
     = contentAddNs id ns v (nsmapContent st (nsField g d))
  /\ (forall x g', x ∈ ds -> (x, g') <> (d, g) ->
        nsmapContent st' (nsField g' x) = nsmapContent st (nsField g' x))
  /\ (forall x f, x ∈ ds ->
        idmapContent st' (idField f x) = idmapContent st (idField f x))
  /\ (forall x, x ∈ ds -> setContent st' (refs x) = setContent st (refs x)).
Proof.
  intros (Hnd & O1 & O2 & O3) Hheld Hd Hid. unfold addNsValue. rewrite Hid.
  unfold newSet, newIdMap. cbn [fst snd idmaps with_sets].
  set (t := fresh (dom (sets st))).
  set (inner := fresh (dom (idmaps st))).
  set (n := nsField g d) in *.
  set (st' := nsmapSet n id inner _). cbv zeta.
  assert (Esets : sets st' = <[t := {[v]}]> (sets st)) by done.
  assert (Eidm : idmaps st' = <[inner := {[ns := t]}]> (idmaps st)) by done.
  assert (Ensm : nsmaps st' = <[n := <[id := inner]> (nsmaps st !!! n)]>
                                (nsmaps st)) by done.
  clearbody st'.
  assert (Ft : forall x p, x ∈ ds -> setAt st x p <> Some t).
  { intros x p Hx Hl. destruct (Hheld x Hx) as (_ & _ & H3).
    apply (is_fresh (dom (sets st))). by apply (H3 p t). }
  assert (Fi : forall x q, x ∈ ds -> mapAt st x q <> Some inner).
  { intros x q Hx Hm. destruct (Hheld x Hx) as (_ & H2 & _).
    apply (is_fresh (dom (idmaps st))). by apply (H2 q inner). }
  assert (Hsets : forall x p l, x ∈ ds -> setAt st x p = Some l ->
            sets st' !!! l = sets st !!! l).
  { intros x p l Hx Hl. rewrite Esets. apply lookup_total_insert_ne.
    intros <-. by apply (Ft x p). }
  assert (Hidm : forall x q m, x ∈ ds -> mapAt st x q = Some m ->
            idmaps st' !!! m = idmaps st !!! m).
  { intros x q m Hx Hm. rewrite Eidm. apply lookup_total_insert_ne.
    intros <-. by apply (Fi x q). }
  assert (Hnsm : forall x g', x ∈ ds ->
            nsmaps st' !!! nsField g' x
            = if decide (x = d /\ g' = g) then <[id := inner]> (nsmaps st !!! n)
              else nsmaps st !!! nsField g' x).
  { intros x g' Hx. rewrite Ensm.
    destruct (decide (x = d /\ g' = g)) as [[-> ->] | Hne].
    - by rewrite lookup_total_insert_eq.
    - apply lookup_total_insert_ne. intros Heq. apply Hne.
      by apply (O1 x d g' g). }
  assert (Mnew : mapAt st' d (AtEntry g id) = Some inner).
  { cbn [mapAt]. rewrite (Hnsm d g Hd), decide_True by done.
    by rewrite lookup_insert_eq. }
  assert (Mold : forall x q, x ∈ ds -> (x, q) <> (d, AtEntry g id) ->
            mapAt st' x q = mapAt st x q).
  { intros x [f | g' i] Hx Hne; [done |]. cbn [mapAt].
    rewrite (Hnsm x g' Hx).
    destruct (decide (x = d /\ g' = g)) as [[-> ->] | Hne']; [| done].
    rewrite lookup_insert_ne; [done |]. intros ->. by apply Hne. }
  assert (Snew : setAt st' d (AtNs g id ns) = Some t).
  { apply setAt_ns_inv. exists inner. split; [exact Mnew |].
    by rewrite Eidm, lookup_total_insert_eq, lookup_singleton_eq. }
  assert (Sold : forall x p, x ∈ ds -> (x, p) <> (d, AtNs g id ns) ->
            setAt st' x p = setAt st x p).
  { intros x p Hx Hne.
    destruct (setPath_cases p) as [-> | (q & k & ->)]; [done |].
    destruct (decide ((x, q) = (d, AtEntry g id))) as [[= -> ->] | Hq].
    - rewrite (setAt_under st' d (AtEntry g id) inner k Mnew).
      rewrite Eidm, lookup_total_insert_eq.
      rewrite lookup_singleton_ne; [| intros ->; by apply Hne].
      symmetry. apply setAt_under_none. cbn [mapAt]. exact Hid.
    - pose proof (Mold x q Hx Hq) as Hm.
      destruct (mapAt st x q) as [m|] eqn:Hmq.
      + rewrite (setAt_under st' x q m k Hm), (setAt_under st x q m k Hmq).
        by rewrite (Hidm x q m Hx Hmq).
      + by rewrite !setAt_under_none. }
  assert (Hidc : forall x q m, x ∈ ds -> mapAt st x q = Some m ->
            idmapContent st' m = idmapContent st m).
  { intros x q m Hx Hm. apply idmapContent_agree; [by apply (Hidm x q) |].
    intros k l Hl. apply (Hsets x (setUnder q k) l Hx).
    by rewrite (setAt_under _ _ _ _ _ Hm). }
  split; [| split; [| split; [| split; [| split]]]].
  - split; [done |]. split; [exact O1 |]. split.
    + intros d1 d2 q1 q2 m H1 H2 G1 G2.
      destruct (decide ((d1, q1) = (d, AtEntry g id))) as [[= -> ->] | N1],
               (decide ((d2, q2) = (d, AtEntry g id))) as [[= -> ->] | N2].
      * done.
      * rewrite Mnew in G1. injection G1 as <-.
        rewrite (Mold d2 q2 H2 N2) in G2. by destruct (Fi d2 q2 H2).
      * rewrite Mnew in G2. injection G2 as <-.
        rewrite (Mold d1 q1 H1 N1) in G1. by destruct (Fi d1 q1 H1).
      * rewrite (Mold d1 q1 H1 N1) in G1. rewrite (Mold d2 q2 H2 N2) in G2.
        by apply (O2 d1 d2 q1 q2 m).
    + intros d1 d2 p1 p2 l H1 H2 G1 G2.
      destruct (decide ((d1, p1) = (d, AtNs g id ns))) as [[= -> ->] | N1],
               (decide ((d2, p2) = (d, AtNs g id ns))) as [[= -> ->] | N2].
      * done.
      * rewrite Snew in G1. injection G1 as <-.
        rewrite (Sold d2 p2 H2 N2) in G2. by destruct (Ft d2 p2 H2).
      * rewrite Snew in G2. injection G2 as <-.
        rewrite (Sold d1 p1 H1 N1) in G1. by destruct (Ft d1 p1 H1).
      * rewrite (Sold d1 p1 H1 N1) in G1. rewrite (Sold d2 p2 H2 N2) in G2.
        by apply (O3 d1 d2 p1 p2 l).
  - intros x Hx. destruct (Hheld x Hx) as (H1 & H2 & H3).
    split; [| split].
    + intros g'. rewrite Ensm, dom_insert. apply elem_of_union. right.
      apply H1.
    + intros q m Hm. rewrite Eidm, dom_insert.
      destruct (decide ((x, q) = (d, AtEntry g id))) as [[= -> ->] | N].
      * rewrite Mnew in Hm. injection Hm as <-. set_solver.
      * rewrite (Mold x q Hx N) in Hm. apply elem_of_union. right.
        by apply (H2 q m).
    + intros p l Hl. rewrite Esets, dom_insert.
      destruct (decide ((x, p) = (d, AtNs g id ns))) as [[= -> ->] | N].
      * rewrite Snew in Hl. injection Hl as <-. set_solver.
      * rewrite (Sold x p Hx N) in Hl. apply elem_of_union. right.
        by apply (H3 p l).
  - unfold nsmapContent, contentAddNs, contentAdd. unfold n in *.
    rewrite (Hnsm d g Hd), decide_True by done.
    rewrite lookup_fmap, Hid. cbn [fmap option_fmap option_map default].
    rewrite fmap_insert, lookup_empty. cbn [default].
    rewrite union_empty_r_L, insert_empty. f_equal.
    + unfold idmapContent. rewrite Eidm, lookup_total_insert_eq.
      rewrite map_fmap_singleton. unfold setContent.
      by rewrite Esets, lookup_total_insert_eq.
    + apply map_fmap_ext. intros i m Hm.
      by apply (Hidc d (AtEntry g i) m Hd).
  - intros x g' Hx Hne. unfold nsmapContent.
    rewrite (Hnsm x g' Hx), decide_False; [| intros [-> ->]; by apply Hne].
    apply map_fmap_ext. intros i m Hm. by apply (Hidc x (AtEntry g' i) m Hx).
  - intros x f Hx. by apply (Hidc x (AtField f) (idField f x) Hx).
  - intros x Hx. by apply (Hsets x AtRefs (refs x) Hx).
Qed.

(** X22. [addNsValue] keeps what the constructors build. When [map] is one of
    the alias-keyed maps of a built value [d], [addNsValue(map, id, ns,
    value)] leaves the values built. In content, the map that [map] holds
    for [id], a new one if [id] was not a key, receives [value] in its value
    set for [ns], a new singleton if [ns] was not a key; every other member
    of [d], and every other value, holds what it held. *)
Theorem addNsValue_builds (st : Store) (ds : list ImportDetails)
    (d : ImportDetails) (g : NsField) (id ns value : string) :
  built st ds ->
  d ∈ ds ->
  let st' := addNsValue (nsField g d) id ns value st in
  built st' ds
  /\ nsmapContent st' (nsField g d)
     = contentAddNs id ns value (nsmapContent st (nsField g d))
  /\ (forall g', g' <> g ->
        nsmapContent st' (nsField g' d) = nsmapContent st (nsField g' d))
  /\ (forall f, idmapContent st' (idField f d) = idmapContent st (idField f d))
  /\ setContent st' (refs d) = setContent st (refs d)
  /\ (forall x, x ∈ ds -> x <> d -> contentOf st' x = contentOf st x).
Proof.
  intros [Hone Hheld]%built_paths Hd.
  assert (Hall : let st' := addNsValue (nsField g d) id ns value st in
            onePlace st' ds
            /\ (forall x, x ∈ ds -> held st' x)
            /\ nsmapContent st' (nsField g d)
               = contentAddNs id ns value (nsmapContent st (nsField g d))
            /\ (forall x g', x ∈ ds -> (x, g') <> (d, g) ->
                  nsmapContent st' (nsField g' x)
                  = nsmapContent st (nsField g' x))
            /\ (forall x f, x ∈ ds ->
                  idmapContent st' (idField f x) = idmapContent st (idField f x))
            /\ (forall x, x ∈ ds ->
                  setContent st' (refs x) = setContent st (refs x))).
  { destruct ((nsmaps st !!! nsField g d) !! id) as [inner|] eqn:Hid;
      [| by apply addNsValue_new].
    rewrite (addNsValue_known _ inner) by done.
    destruct (addValue_at st ds d (AtEntry g id) inner ns value
                Hone Hheld Hd Hid)
      as (Hone' & Hheld' & Hns & _ & _ & Hmaps & Hadd & Hother & Hrefs).
    destruct Hone as (Hnd & O1 & O2 & O3). cbv zeta in *.
    split; [done |]. split; [done |]. split; [| split; [| split; [| done]]].
    - unfold nsmapContent, contentAddNs. rewrite Hns.
      rewrite lookup_fmap, Hid. cbn [fmap option_fmap option_map default].
      apply map_eq. intros i. destruct (decide (i = id)) as [-> | Hi].
      + rewrite lookup_insert_eq, lookup_fmap, Hid. cbn. by rewrite Hadd.
      + rewrite lookup_insert_ne, !lookup_fmap by done.
        destruct ((nsmaps st !!! nsField g d) !! i) as [m'|] eqn:Hm'; [| done].
        cbn. f_equal. apply (Hother d (AtEntry g i) m' Hd Hm').
        intros ->.
        by destruct (O2 d d (AtEntry g i) (AtEntry g id) inner Hd Hd Hm' Hid)
          as [_ [= ->]].
    - intros x g' Hx Hne.
      apply (nsmapContent_other st _ ds x g' inner); [done | |].
      + intros i m' Hm' ->.
        destruct (O2 x d (AtEntry g' i) (AtEntry g id) inner Hx Hd Hm' Hid)
          as [-> [= -> _]]. by apply Hne.
      + intros q' m' Hm' Hnem. by apply (Hother x q').
    - intros x f Hx. apply (Hother x (AtField f)); [done | done |].
      intros Heq.
      assert (Hf : mapAt st x (AtField f) = Some inner)
        by (cbn; by rewrite Heq).
      by destruct (O2 x d (AtField f) (AtEntry g id) inner Hx Hd Hf Hid)
        as [_ [=]]. }
  cbv zeta in *. destruct Hall as (Hone' & Hheld' & Hadd & Hnsc & Hidc & Hrefs).
  split; [by apply built_paths |]. split; [exact Hadd |].
  split; [intros g' Hg; apply Hnsc; [done | congruence] |].
  split; [intros f; by apply Hidc |]. split; [by apply Hrefs |].
  intros x Hx Hne. unfold contentOf. f_equal.
  - by apply Hrefs.
  - by apply (Hidc x FImported).
  - apply (Hnsc x FImportedAs); [done | congruence].
  - by apply (Hidc x FImportedNs).
  - by apply (Hidc x FReExported).
  - apply (Hnsc x FReExportedAs); [done | congruence].
  - by apply (Hidc x FReExportedNs).
Qed.

(** *** [createImports] *)

Lemma createImports_objects (st : Store) :
  let r := createImports st in
  exists rl i ia ins re rea rens,
    fst r = fresh (dom (details st))
    /\ details (snd r)
       = <[fresh (dom (details st))
             := mkImportDetails rl i ia ins re rea rens]> (details st)
    /\ sets (snd r) = <[rl := ∅]> (sets st)
    /\ idmaps (snd r)
       = <[rens := ∅]> (<[re := ∅]> (<[ins := ∅]> (<[i := ∅]> (idmaps st))))
    /\ nsmaps (snd r) = <[rea := ∅]> (<[ia := ∅]> (nsmaps st))
    /\ nodes (snd r) = nodes st
    /\ (rl ∉ dom (sets st))
    /\ (forall m, m ∈ [i; ins; re; rens] -> m ∉ dom (idmaps st))
    /\ NoDup [i; ins; re; rens]
    /\ (ia ∉ dom (nsmaps st)) /\ (rea ∉ dom (nsmaps st)) /\ ia <> rea.
Proof.
  unfold createImports, newSet, newIdMap, newNsMap, newDetails.
  cbn [fst snd sets idmaps nsmaps details nodes
       with_sets with_idmaps with_nsmaps with_details].
  set (rl := fresh (dom (sets st))).
  set (i := fresh (dom (idmaps st))).
  set (ia := fresh (dom (nsmaps st))).
  set (M1 := <[i := ∅]> (idmaps st)).
  set (ins := fresh (dom M1)).
  set (M2 := <[ins := ∅]> M1).
  set (re := fresh (dom M2)).
  set (N1 := <[ia := ∅]> (nsmaps st)).
  set (rea := fresh (dom N1)).
  set (M3 := <[re := ∅]> M2).
  set (rens := fresh (dom M3)).
  exists rl, i, ia, ins, re, rea, rens.
  pose proof (is_fresh (dom (sets st))) as F1. fold rl in F1.
  pose proof (is_fresh (dom (idmaps st))) as F2. fold i in F2.
  pose proof (is_fresh (dom (nsmaps st))) as F3. fold ia in F3.
  pose proof (is_fresh (dom M1)) as F4. fold ins in F4.
  pose proof (is_fresh (dom M2)) as F5. fold re in F5.
  pose proof (is_fresh (dom N1)) as F6. fold rea in F6.
  pose proof (is_fresh (dom M3)) as F7. fold rens in F7.
  unfold M3, M2, M1, N1 in *. rewrite ?dom_insert in *.
  do 6 (split; [done |]).
  split; [set_solver |]. split; [| split; [| split; [| split]]].
  - intros m. rewrite !elem_of_cons, elem_of_nil.
    intros [-> | [-> | [-> | [-> | []]]]]; set_solver.
  - repeat (apply NoDup_cons; split); [set_solver .. | constructor].
  - done.
  - set_solver.
  - set_solver.
Qed.

Lemma createImports_built (st : Store) (ds : list ImportDetails) :
  built st ds ->
  let r := createImports st in
  let d := details r.2 !!! r.1 in
  details st !! r.1 = None
  /\ built r.2 (ds ++ [d])
  /\ contentOf r.2 d = emptyContent
  /\ (forall x, x ∈ ds -> contentOf r.2 x = contentOf st x)
  /\ nodes r.2 = nodes st
  /\ (forall l, l <> r.1 -> details r.2 !! l = details st !! l)
  /\ is_Some (details r.2 !! r.1).
Proof.
  intros [(Hnd & O1 & O2 & O3) Hheld]%built_paths.
  destruct (createImports_objects st)
    as (rl & i & ia & ins & re & rea & rens & E1 & Ed & Es & Ei & En & Enodes
        & Frl & Fid & Did & Fia & Frea & Dns).
  destruct (createImports st) as [dl st'] eqn:Hcreate. cbn [fst snd] in *.
  subst dl. cbv zeta.
  set (dn := mkImportDetails rl i ia ins re rea rens) in *.
  assert (Hdn : details st' !!! fresh (dom (details st)) = dn).
  { by rewrite Ed, lookup_total_insert_eq. }
  rewrite Hdn.
  assert (Hidn : forall f, idField f dn ∈ [i; ins; re; rens]).
  { intros []; cbn; in_list. }
  assert (Hinj : forall f1 f2, idField f1 dn = idField f2 dn -> f1 = f2).
  { pose (idx := fun f => match f with
                          | FImported => 0 | FImportedNs => 1
                          | FReExported => 2 | FReExportedNs => 3
                          end%nat).
    assert (Hl : forall f, [i; ins; re; rens] !! idx f = Some (idField f dn))
      by (by intros []).
    intros f1 f2 Heq.
    assert (Hidx : idx f1 = idx f2).
    { apply (NoDup_lookup _ _ _ (idField f1 dn) Did (Hl f1)).
      rewrite Heq. apply Hl. }
    by destruct f1, f2. }
  assert (Hnsn : forall g, nsField g dn = ia \/ nsField g dn = rea).
  { intros []; cbn; auto. }
  assert (Hns_old : forall n, n ∈ dom (nsmaps st) ->
            nsmaps st' !!! n = nsmaps st !!! n).
  { intros n Hn. rewrite En, !lookup_total_insert_ne; [done | |];
      intros <-; done. }
  assert (Hid_old : forall m, m ∈ dom (idmaps st) ->
            idmaps st' !!! m = idmaps st !!! m).
  { intros m Hm. rewrite Ei.
    rewrite !lookup_total_insert_ne; [done | | | |]; intros <-;
      (eapply Fid; [| exact Hm]); in_list. }
  assert (Hset_old : forall l, l ∈ dom (sets st) ->
            sets st' !!! l = sets st !!! l).
  { intros l Hl. rewrite Es, lookup_total_insert_ne; [done |]. by intros <-. }
  assert (Hns_new : forall g, nsmaps st' !!! nsField g dn = ∅).
  { intros g. rewrite En, !lookup_total_insert.
    repeat case_decide; try done. destruct (Hnsn g); congruence. }
  assert (Hid_new : forall m, m ∈ [i; ins; re; rens] -> idmaps st' !!! m = ∅).
  { intros m Hm. rewrite Ei, !lookup_total_insert.
    repeat case_decide; try done. exfalso.
    rewrite !elem_of_cons, elem_of_nil in Hm. naive_solver. }
  assert (Mold : forall x q, x ∈ ds -> mapAt st' x q = mapAt st x q).
  { intros x [f | g k] Hx; [done |]. cbn [mapAt].
    rewrite Hns_old; [done |]. by apply (Hheld x Hx). }
  assert (Sold : forall x p, x ∈ ds -> setAt st' x p = setAt st x p).
  { intros x p Hx.
    destruct (setPath_cases p) as [-> | (q & k & ->)]; [done |].
    pose proof (Mold x q Hx) as Hm.
    destruct (mapAt st x q) as [m|] eqn:Hmq.
    - rewrite (setAt_under st' x q m k Hm), (setAt_under st x q m k Hmq).
      rewrite Hid_old; [done |]. destruct (Hheld x Hx) as (_ & H2 & _).
      by apply (H2 q m).
    - by rewrite !setAt_under_none. }
  assert (Mnew : forall q m, mapAt st' dn q = Some m ->
            (m ∉ dom (idmaps st)) /\ exists f, q = AtField f).
  { intros [f | g k] m; cbn [mapAt].
    - intros [= <-]. split; [by apply Fid | by exists f].
    - by rewrite Hns_new, lookup_empty. }
  assert (Snew : forall p l, setAt st' dn p = Some l -> p = AtRefs /\ l = rl).
  { intros [| f k | g k1 k2] l; cbn [setAt].
    - by intros [= <-].
    - by rewrite (Hid_new _ (Hidn f)), lookup_empty.
    - by rewrite Hns_new, lookup_empty. }
  assert (Hnotin : dn ∉ ds).
  { intros Hin. destruct (Hheld dn Hin) as (_ & _ & H3).
    apply Frl. by apply (H3 AtRefs rl). }
  assert (Hheld_old : forall x, x ∈ ds -> held st' x).
  { intros x Hx. destruct (Hheld x Hx) as (H1 & H2 & H3).
    split; [| split].
    - intros g. rewrite En, !dom_insert. specialize (H1 g). set_solver.
    - intros q m Hm. rewrite (Mold x q Hx) in Hm. rewrite Ei, !dom_insert.
      specialize (H2 q m Hm). set_solver.
    - intros p l Hl. rewrite (Sold x p Hx) in Hl. rewrite Es, dom_insert.
      specialize (H3 p l Hl). set_solver. }
  assert (Hheld_new : held st' dn).
  { split; [| split].
    - intros g. rewrite En, !dom_insert. destruct (Hnsn g) as [-> | ->];
        set_solver.
    - intros q m Hm. destruct (Mnew q m Hm) as (_ & f & ->).
      cbn [mapAt] in Hm. injection Hm as <-. rewrite Ei, !dom_insert.
      pose proof (Hidn f) as Hf. rewrite !elem_of_cons, elem_of_nil in Hf.
      destruct Hf as [-> | [-> | [-> | [-> | []]]]]; set_solver.
    - intros p l Hl. destruct (Snew p l Hl) as [-> ->].
      rewrite Es, dom_insert. set_solver. }
  split; [apply not_elem_of_dom, is_fresh |].
  split; [| split; [| split; [| split; [done |]]]];
    [| | | split; [| by rewrite Ed, lookup_insert_eq]].
  - apply built_paths. split.
    + split; [| split; [| split]].
      * apply NoDup_app. split; [done |]. split; [| apply NoDup_singleton].
        intros x Hx ->%list_elem_of_singleton. done.
      * intros d1 d2 g1 g2 [H1 | ->%list_elem_of_singleton]%elem_of_app
          [H2 | ->%list_elem_of_singleton]%elem_of_app Heq.
        -- by apply (O1 d1 d2).
        -- exfalso. destruct (Hheld d1 H1) as (H & _). specialize (H g1).
           rewrite Heq in H. destruct (Hnsn g2) as [E | E]; rewrite E in H; done.
        -- exfalso. destruct (Hheld d2 H2) as (H & _). specialize (H g2).
           rewrite <- Heq in H.
           destruct (Hnsn g1) as [E | E]; rewrite E in H; done.
        -- split; [done |]. destruct g1, g2; cbn in Heq; congruence.
      * intros d1 d2 q1 q2 m [H1 | ->%list_elem_of_singleton]%elem_of_app
          [H2 | ->%list_elem_of_singleton]%elem_of_app G1 G2.
        -- rewrite (Mold d1 q1 H1) in G1. rewrite (Mold d2 q2 H2) in G2.
           by apply (O2 d1 d2 q1 q2 m).
        -- exfalso. rewrite (Mold d1 q1 H1) in G1.
           destruct (Mnew q2 m G2) as (Hm & _). apply Hm.
           destruct (Hheld d1 H1) as (_ & H & _). by apply (H q1 m).
        -- exfalso. rewrite (Mold d2 q2 H2) in G2.
           destruct (Mnew q1 m G1) as (Hm & _). apply Hm.
           destruct (Hheld d2 H2) as (_ & H & _). by apply (H q2 m).
        -- split; [done |].
           destruct (Mnew q1 m G1) as (_ & f1 & ->).
           destruct (Mnew q2 m G2) as (_ & f2 & ->).
           cbn [mapAt] in G1, G2. f_equal. apply Hinj. congruence.
      * intros d1 d2 p1 p2 l [H1 | ->%list_elem_of_singleton]%elem_of_app
          [H2 | ->%list_elem_of_singleton]%elem_of_app G1 G2.
        -- rewrite (Sold d1 p1 H1) in G1. rewrite (Sold d2 p2 H2) in G2.
           by apply (O3 d1 d2 p1 p2 l).
        -- exfalso. rewrite (Sold d1 p1 H1) in G1.
           destruct (Snew p2 l G2) as [_ ->]. apply Frl.
           destruct (Hheld d1 H1) as (_ & _ & H). by apply (H p1 rl).
        -- exfalso. rewrite (Sold d2 p2 H2) in G2.
           destruct (Snew p1 l G1) as [_ ->]. apply Frl.
           destruct (Hheld d2 H2) as (_ & _ & H). by apply (H p2 rl).
        -- split; [done |]. destruct (Snew p1 l G1) as [-> _].
           by destruct (Snew p2 l G2) as [-> _].
    + intros x [Hx | ->%list_elem_of_singleton]%elem_of_app;
        [by apply Hheld_old | exact Hheld_new].
  - assert (Hc_id : forall f, idmapContent st' (idField f dn) = ∅).
    { intros f. unfold idmapContent.
      by rewrite (Hid_new _ (Hidn f)), fmap_empty. }
    assert (Hc_ns : forall g, nsmapContent st' (nsField g dn) = ∅).
    { intros g. unfold nsmapContent. by rewrite Hns_new, fmap_empty. }
    unfold contentOf, emptyContent. f_equal.
    + unfold setContent. by rewrite Es, lookup_total_insert_eq.
    + apply (Hc_id FImported).
    + apply (Hc_ns FImportedAs).
    + apply (Hc_id FImportedNs).
    + apply (Hc_id FReExported).
    + apply (Hc_ns FReExportedAs).
    + apply (Hc_id FReExportedNs).
  - intros x Hx. destruct (Hheld x Hx) as (H1 & H2 & H3).
    apply contentOf_agree.
    + intros g. by apply Hns_old.
    + intros q m Hm. by apply Hid_old, (H2 q m).
    + intros p l Hl. by apply Hset_old, (H3 p l).
  - intros l Hl. by rewrite Ed, lookup_insert_ne.
Qed.

(** X23. [createImports] builds a value next to those already built: a new
    [ImportDetails] object whose seven members are new objects, different
    from one another, that hold nothing. The values built before stay
    built, together with the new one, and hold what they held; no node and
    no other [ImportDetails] object is touched. *)
Theorem createImports_builds (st : Store) (ds : list ImportDetails) :
  built st ds ->
  let r := createImports st in
  let d := details r.2 !!! r.1 in
  details st !! r.1 = None
  /\ built r.2 (ds ++ [d])
  /\ contentOf r.2 d = emptyContent
  /\ (forall x, x ∈ ds -> contentOf r.2 x = contentOf st x)
  /\ nodes r.2 = nodes st
  /\ (forall l, l <> r.1 -> details r.2 !! l = details st !! l).
Proof.
  intros Hbuilt r d.
  destruct (createImports_built st ds Hbuilt) as (H1 & H2 & H3 & H4 & H5 & H6 & _).
  done.
Qed.

(** *** Sequences of constructor calls *)

Lemma details_addValue (map : loc) (id value : string) (st : Store) :
  details (addValue map id value st) = details st.
Proof. unfold addValue. by destruct (_ !! id). Qed.

Lemma details_addNsValue (map : loc) (id ns value : string) (st : Store) :
  details (addNsValue map id ns value st) = details st.
Proof.
  unfold addNsValue. destruct (_ !! id); [| done]. by destruct (_ !! ns).
Qed.

Lemma addValue_built (st : Store) (ds : list ImportDetails)
    (d : ImportDetails) (f : IdField) (id value : string) :
  built st ds -> d ∈ ds -> built (addValue (idField f d) id value st) ds.
Proof.
  intros [Hone Hheld]%built_paths Hd. apply built_paths.
  destruct (addValue_at st ds d (AtField f) (idField f d) id value
              Hone Hheld Hd eq_refl) as (Hone' & Hheld' & _).
  done.
Qed.

Lemma addNsValue_built (st : Store) (ds : list ImportDetails)
    (d : ImportDetails) (g : NsField) (id ns value : string) :
  built st ds -> d ∈ ds -> built (addNsValue (nsField g d) id ns value st) ds.
Proof.
  intros [Hone Hheld]%built_paths Hd. apply built_paths.
  destruct ((nsmaps st !!! nsField g d) !! id) as [inner|] eqn:Hid.
  - rewrite (addNsValue_known _ inner) by done.
    destruct (addValue_at st ds d (AtEntry g id) inner ns value
                Hone Hheld Hd Hid) as (Hone' & Hheld' & _).
    done.
  - destruct (addNsValue_new st ds d g id ns value Hone Hheld Hd Hid)
      as (Hone' & Hheld' & _).
    done.
Qed.

(** What a sequence of constructor calls keeps. *)
Lemma constructAll_built (calls : list Construction) :
  let sv := constructAll calls in
  NoDup sv.2
  /\ (forall d, d ∈ sv.2 -> d ∈ dom (details sv.1))
  /\ built sv.1 ((fun d => details sv.1 !!! d) <$> sv.2).
Proof.
  unfold constructAll. induction calls as [|c calls IH] using rev_ind.
  { cbn. split; [constructor |]. split; [by intros d Hd%elem_of_nil |].
    split; [| constructor].
    repeat split; constructor. }
  rewrite foldl_app. cbn [foldl].
  destruct (foldl construct (emptyStore, []) calls) as [st vs].
  cbv zeta in IH. cbn [fst snd] in IH. destruct IH as (Hnd & Hdom & Hbuilt).
  cbv zeta. destruct c as [| k f id value | k g id ns value]; cbn [construct fst snd].
  - destruct (createImports_built st _ Hbuilt)
      as (Hnew & Hbuilt' & _ & _ & _ & Hold & Hthere).
    cbv zeta in *.
    set (r := createImports st) in *.
    assert (Hfresh : r.1 ∉ vs).
    { intros Hin. apply Hdom in Hin. by apply not_elem_of_dom in Hnew. }
    split; [| split].
    + apply NoDup_app. split; [done |]. split; [| apply NoDup_singleton].
      intros d Hd ->%list_elem_of_singleton. done.
    + intros d [Hd | ->%list_elem_of_singleton]%elem_of_app.
      * apply elem_of_dom. rewrite Hold by (intros ->; done).
        by apply elem_of_dom, Hdom.
      * by apply elem_of_dom.
    + rewrite fmap_app. cbn [fmap list_fmap].
      replace ((fun d => details r.2 !!! d) <$> vs)
        with ((fun d => details st !!! d) <$> vs); [done |].
      apply list_fmap_ext. intros _ d Hd%list_elem_of_lookup_2.
      rewrite !lookup_total_alt, Hold; [done |]. by intros ->.
  - destruct (vs !! k) as [d|] eqn:Hk; cbn [fst snd]; [| done].
    split; [done |]. rewrite details_addValue. split; [done |].
    apply addValue_built; [done |].
    apply list_elem_of_fmap. exists d. split; [done |].
    by apply list_elem_of_lookup_2 in Hk.
  - destruct (vs !! k) as [d|] eqn:Hk; cbn [fst snd]; [| done].
    split; [done |]. rewrite details_addNsValue. split; [done |].
    apply addNsValue_built; [done |].
    apply list_elem_of_fmap. exists d. split; [done |].
    by apply list_elem_of_lookup_2 in Hk.
Qed.

Lemma onePlace_pair (st : Store) (ds : list ImportDetails)
    (x y : ImportDetails) :
  onePlace st ds -> x ∈ ds -> y ∈ ds -> x <> y -> onePlace st [x; y].
Proof.
  intros (Hnd & O1 & O2 & O3) Hx Hy Hne.
  assert (Hin : forall z, z ∈ [x; y] -> z ∈ ds).
  { intros z. rewrite !elem_of_cons, elem_of_nil. by intros [-> | [-> | []]]. }
  split; [| split; [| split]].
  - apply NoDup_cons. split; [| apply NoDup_singleton].
    by intros ->%list_elem_of_singleton.
  - intros d1 d2 g1 g2 H1 H2. apply O1; by apply Hin.
  - intros d1 d2 q1 q2 m H1 H2. apply O2; by apply Hin.
  - intros d1 d2 p1 p2 l H1 H2. apply O3; by apply Hin.
Qed.

(** X24. The values that the constructors build are separate, whatever the
    calls: after any sequence of calls of [createImports], [addValue] and
    [addNsValue] from the empty store, the values created are built, that
    is separate from one another with their objects in the store; hence
    merging one of them into another one leaves in the target the union of
    the two contents. *)
Theorem constructed_values_merge (calls : list Construction) (i j : nat)
    (a b : loc) :
  let sv := constructAll calls in
  built sv.1 ((fun d => details sv.1 !!! d) <$> sv.2)
  /\ (sv.2 !! i = Some a -> sv.2 !! j = Some b -> i <> j ->
      separate sv.1 [details sv.1 !!! a; details sv.1 !!! b]
      /\ detailsContent (updateImportDetails a b sv.1) a
         = mergeContent (detailsContent sv.1 a) (detailsContent sv.1 b)).
Proof.
  intros sv. destruct (constructAll_built calls) as (Hnd & Hdom & Hbuilt).
  fold sv in Hnd, Hdom, Hbuilt. split; [exact Hbuilt |].
  intros Ha Hb Hij.
  apply built_paths in Hbuilt as (Hone & _).
  set (L := (fun d => details sv.1 !!! d) <$> sv.2) in *.
  assert (HA : L !! i = Some (details sv.1 !!! a))
    by (unfold L; by rewrite list_lookup_fmap, Ha).
  assert (HB : L !! j = Some (details sv.1 !!! b))
    by (unfold L; by rewrite list_lookup_fmap, Hb).
  assert (Hne : details sv.1 !!! a <> details sv.1 !!! b).
  { intros Heq. apply Hij. destruct Hone as (HndL & _).
    apply (NoDup_lookup L i j (details sv.1 !!! a) HndL HA).
    by rewrite Heq. }
  assert (Hsep : separate sv.1 [details sv.1 !!! a; details sv.1 !!! b]).
  { apply separate_onePlace. apply (onePlace_pair _ L); [done | | | done].
    - by apply list_elem_of_lookup_2 in HA.
    - by apply list_elem_of_lookup_2 in HB. }
  split; [exact Hsep |].
  apply merge_refines. by apply separate_positional.
Qed.

Lemma constructed_values_merge_witness :
  let calls := [CreateImports; CreateImports;
                AddValue 0 FImported "x" "A.ts";
                AddNsValue 1 FImportedAs "x" "y" "B.ts";
                AddValue 1 FImported "x" "B.ts"] in
  let sv := constructAll calls in
  sv.2 = [1; 2]%positive
  /\ c_imported (detailsContent (updateImportDetails 1 2 sv.1) 1) !! "x"
     = Some {[ "A.ts"; "B.ts" ]}.
Proof.
  intros calls sv. split; [vm_compute; reflexivity |].
  destruct (constructed_values_merge calls 0 1 1%positive 2%positive)
    as (_ & Hmerge).
  destruct Hmerge as (_ & Hmerge); [vm_compute; reflexivity ..| lia |].
  subst sv. rewrite Hmerge. vm_compute. reflexivity.
Defined.

Lemma createImports_builds_witness :
  let st := valuesStore threeValues in
  let ds := [details st !!! valueA threeValues;
             details st !!! valueB threeValues;
             details st !!! valueC threeValues] in
  let r := createImports st in
  built st ds
  /\ built r.2 (ds ++ [details r.2 !!! r.1])
  /\ contentOf r.2 (details r.2 !!! r.1) = emptyContent.
Proof.
  intros st ds r.
  assert (Hbuilt : built st ds) by by_computation.
  split; [exact Hbuilt |].
  destruct (createImports_builds st ds Hbuilt) as (_ & H2 & H3 & _).
  by split.
Defined.

Lemma addValue_builds_witness :
  let st := valuesStore threeValues in
  let a := details st !!! valueA threeValues in
  let ds := [a; details st !!! valueB threeValues;
             details st !!! valueC threeValues] in
  let st' := addValue (idField FImported a) "x" "E.ts" st in
  built st ds
  /\ built st' ds
  /\ idmapContent st' (idField FImported a)
     = contentAdd "x" "E.ts" (idmapContent st (idField FImported a)).
Proof.
  intros st a ds st'.
  assert (Hbuilt : built st ds) by by_computation.
  split; [exact Hbuilt |].
  destruct (addValue_builds st ds a FImported "x" "E.ts" Hbuilt)
    as (H1 & H2 & _); [in_list |].
  by split.
Defined.

Lemma addNsValue_builds_witness :
  let st := valuesStore threeValues in
  let b := details st !!! valueB threeValues in
  let ds := [details st !!! valueA threeValues; b;
             details st !!! valueC threeValues] in
  let st' := addNsValue (nsField FImportedAs b) "x" "z" "B.ts" st in
  built st ds
  /\ built st' ds
  /\ nsmapContent st' (nsField FImportedAs b)
     = contentAddNs "x" "z" "B.ts" (nsmapContent st (nsField FImportedAs b)).
Proof.
  intros st b ds st'.
  assert (Hbuilt : built st ds) by by_computation.
  split; [exact Hbuilt |].
  destruct (addNsValue_builds st ds b FImportedAs "x" "z" "B.ts" Hbuilt)
    as (H1 & H2 & _); [in_list |].
  by split.
Defined.
